(** * STLite priority_queue: a pairing heap on raw pointers

    A shallow embedding of [sjtu::priority_queue] (priority_queue.hpp).
    Nodes live in a store indexed by addresses, queue objects live in a
    second store indexed by object identities, and every member function is
    a program of a small state-and-exception monad.  A C++ exception leaves
    the store as it was at the throw; dereferencing a null or dangling
    pointer is undefined behaviour and is kept apart from exceptions. *)

From stdpp Require Import base option list gmap fin_maps fin_sets.
From Stdlib Require Import NArith Lia Sorted.

(** ** Machine model *)

Abbreviation loc := positive.
Abbreviation qid := positive.

(** [size_t] is a 64-bit unsigned integer; arithmetic wraps around. *)
Definition size_t_mod : N := 2 ^ 64.
Definition wrap (n : N) : N := (n mod size_t_mod)%N.
Definition size_incr (n : N) : N := wrap (n + 1).
Definition size_decr (n : N) : N := wrap (n + size_t_mod - 1).
Definition size_add (n m : N) : N := wrap (n + m).

(** Exceptions: the two kinds of exceptions.hpp that the queue throws, and
    whatever the comparator throws (of an arbitrary type [E]). *)
Inductive exn (E : Type) : Type :=
  | container_is_empty
  | runtime_error
  | comparator_exn (e : E).
Arguments container_is_empty {E}.
Arguments runtime_error {E}.
Arguments comparator_exn {E} e.

Inductive outcome (E A : Type) : Type :=
  | Val (a : A)          (* normal return *)
  | Exn (e : exn E)      (* a C++ exception in flight *)
  | UB                   (* null or dangling dereference, double delete *)
  | OutOfFuel.           (* the recursion budget of the model ran out *)
Arguments Val {E A} a.
Arguments Exn {E A} e.
Arguments UB {E A}.
Arguments OutOfFuel {E A}.

Section PairingHeap.

Context {T C E : Type}.

(** The user's [Compare]: it may keep state of its own (type [C]) and it
    either answers or throws ([inl e]). *)
Variable Compare : C → T → T → (E + bool) * C.

Record pq_node : Type := PqNode {
  val : T;
  child : option loc;
  sibling : option loc
}.

Record priority_queue : Type := PriorityQueue {
  root : option loc;
  raw_size_ : N
}.

Record state : Type := State {
  mem : gmap loc pq_node;              (* the nodes allocated with new *)
  objs : gmap qid priority_queue;      (* the live queue objects *)
  cst : C;                             (* the comparator's own state *)
  calls : list (T * T)                 (* comparator invocations, latest first *)
}.

Definition with_mem (m : gmap loc pq_node) (s : state) : state :=
  State m (objs s) (cst s) (calls s).
Definition with_objs (o : gmap qid priority_queue) (s : state) : state :=
  State (mem s) o (cst s) (calls s).

(** ** The monad *)

Definition M (A : Type) : Type := state → outcome E A * state.

Definition ret {A} (a : A) : M A := λ s, (Val a, s).
Definition bind {A B} (m : M A) (k : A → M B) : M B :=
  λ s, match m s with
       | (Val a, s') => k a s'
       | (Exn e, s') => (Exn e, s')
       | (UB, s') => (UB, s')
       | (OutOfFuel, s') => (OutOfFuel, s')
       end.
Definition throw {A} (e : exn E) : M A := λ s, (Exn e, s).
Definition undefined {A} : M A := λ s, (UB, s).
Definition out_of_fuel {A} : M A := λ s, (OutOfFuel, s).

(** [try m catch (...) h] *)
Definition try_catch_all {A} (m : M A) (h : M A) : M A :=
  λ s, match m s with
       | (Exn _, s') => h s'
       | r => r
       end.

(** [try m catch (runtime_error&) h] *)
Definition try_catch_runtime_error {A} (m : M A) (h : M A) : M A :=
  λ s, match m s with
       | (Exn runtime_error, s') => h s'
       | r => r
       end.

Declare Scope pq_scope.
Notation "x <- m ;; k" := (bind m (λ x, k))
  (at level 20, m at level 99, k at level 200, only parsing) : pq_scope.
Notation "m ;; k" := (bind m (λ _, k))
  (at level 100, k at level 200, only parsing, right associativity) : pq_scope.
Local Open Scope pq_scope.

(** ** Primitive accesses *)

Definition deref (p : loc) : M pq_node :=
  λ s, match mem s !! p with
       | Some n => (Val n, s)
       | None => (UB, s)
       end.

(** [p->f] through a possibly null pointer. *)
Definition deref_ptr (p : option loc) : M pq_node :=
  match p with
  | Some l => deref l
  | None => undefined
  end.

Definition get_val (p : loc) : M T := n <- deref p ;; ret (val n).
Definition get_child (p : loc) : M (option loc) := n <- deref p ;; ret (child n).
Definition get_sibling (p : loc) : M (option loc) := n <- deref p ;; ret (sibling n).

Definition set_child (p : loc) (c : option loc) : M unit :=
  n <- deref p ;;
  λ s, (Val tt, with_mem (<[p := PqNode (val n) c (sibling n)]> (mem s)) s).

Definition set_sibling (p : loc) (sb : option loc) : M unit :=
  n <- deref p ;;
  λ s, (Val tt, with_mem (<[p := PqNode (val n) (child n) sb]> (mem s)) s).

(** [new pq_node(v, c, sb)]: a fresh address. *)
Definition new_node (v : T) (c sb : option loc) : M loc :=
  λ s, let p := fresh (dom (mem s)) in
       (Val p, with_mem (<[p := PqNode v c sb]> (mem s)) s).

(** [delete p] for a non-null [p]. *)
Definition delete_node (p : loc) : M unit :=
  _ <- deref p ;;
  λ s, (Val tt, with_mem (delete p (mem s)) s).

(** [delete p]; deleting the null pointer does nothing. *)
Definition delete_ptr (p : option loc) : M unit :=
  match p with
  | Some l => delete_node l
  | None => ret tt
  end.

(** [Compare()(x, y)] *)
Definition call_compare (x y : T) : M bool :=
  λ s, match Compare (cst s) x y with
       | (inr b, c') => (Val b, State (mem s) (objs s) c' ((x, y) :: calls s))
       | (inl e, c') => (Exn (comparator_exn e),
                         State (mem s) (objs s) c' ((x, y) :: calls s))
       end.

(** Fields of a queue object. *)
Definition this_obj (this : qid) : M priority_queue :=
  λ s, match objs s !! this with
       | Some q => (Val q, s)
       | None => (UB, s)
       end.

Definition get_root (this : qid) : M (option loc) :=
  q <- this_obj this ;; ret (root q).
Definition get_raw_size (this : qid) : M N :=
  q <- this_obj this ;; ret (raw_size_ q).
Definition set_root (this : qid) (r : option loc) : M unit :=
  q <- this_obj this ;;
  λ s, (Val tt, with_objs (<[this := PriorityQueue r (raw_size_ q)]> (objs s)) s).
Definition set_raw_size (this : qid) (n : N) : M unit :=
  q <- this_obj this ;;
  λ s, (Val tt, with_objs (<[this := PriorityQueue (root q) n]> (objs s)) s).

(** ** pq_node members *)

(** Duplicates everything at (right) and below the level of the node,
    including the node itself. *)
Fixpoint recursive_dup (fuel : nat) (self : loc) : M loc :=
  match fuel with
  | O => out_of_fuel
  | S fuel' =>
      v <- get_val self ;;
      new_self_ptr <- new_node v None None ;;
      c <- get_child self ;;
      match c with
       | Some cp => c' <- recursive_dup fuel' cp ;; set_child new_self_ptr (Some c')
       | None => ret tt
       end ;;
      sb <- get_sibling self ;;
      match sb with
       | Some sp => s' <- recursive_dup fuel' sp ;; set_sibling new_self_ptr (Some s')
       | None => ret tt
       end ;;
      ret new_self_ptr
  end.

(** Deletes everything at (right) and below the level of the node,
    excluding the node itself. *)
Fixpoint recursive_del (fuel : nat) (self : loc) : M unit :=
  match fuel with
  | O => out_of_fuel
  | S fuel' =>
      c <- get_child self ;;
      match c with
       | Some cp => recursive_del fuel' cp ;; delete_node cp
       | None => ret tt
       end ;;
      sb <- get_sibling self ;;
      match sb with
       | Some sp => recursive_del fuel' sp ;; delete_node sp
       | None => ret tt
       end
  end.

(** ** The heap engine *)

Definition meld_nodes (node_a node_b : option loc) : M (option loc) :=
  match node_a with
  | None => ret node_b
  | Some a =>
      match node_b with
      | None => ret node_a
      | Some b =>
          try_catch_all
            (va <- get_val a ;;
             vb <- get_val b ;;
             r <- call_compare va vb ;;
             if r
             then (* node_b should come first *)
               bc <- get_child b ;;
               set_sibling a bc ;;
               set_child b (Some a) ;;
               ret (Some b)
             else
               ac <- get_child a ;;
               set_sibling b ac ;;
               set_child a (Some b) ;;
               ret (Some a))
            (throw runtime_error)
      end
  end.

(** The body of the while loop of [compare_siblings]; [begin] is not null. *)
Fixpoint compare_siblings_loop (fuel : nat) (begin : loc) : M unit :=
  match fuel with
  | O => out_of_fuel
  | S fuel' =>
      sb <- get_sibling begin ;;
      match sb with
      | None => ret tt
      | Some sp =>
          v <- get_val begin ;;
          vs <- get_val sp ;;
          _ <- call_compare v vs ;;
          compare_siblings_loop fuel' sp
      end
  end.

Definition compare_siblings (fuel : nat) (begin : option loc) : M unit :=
  try_catch_all
    (match begin with
     | None => ret tt
     | Some b => compare_siblings_loop fuel b
     end)
    (throw runtime_error).

Fixpoint merge_siblings (fuel : nat) (begin : option loc) : M (option loc) :=
  match fuel with
  | O => out_of_fuel
  | S fuel' =>
      match begin with
      | None => ret begin
      | Some b =>
          sb <- get_sibling b ;;
          match sb with
          | None => ret begin
          | Some begin_sib =>
              begin_sib_sib <- get_sibling begin_sib ;;
              set_sibling b None ;;
              set_sibling begin_sib None ;;
              self_and_sib <- meld_nodes (Some b) (Some begin_sib) ;;
              sib_of_sib <- merge_siblings fuel' begin_sib_sib ;;
              meld_nodes self_and_sib sib_of_sib
          end
      end
  end.

(** ** The queue facade *)

(** [priority_queue() = default]: the object comes to life at [this] with
    the default member initialisers. *)
Definition construct (this : qid) : M unit :=
  λ s, match objs s !! this with
       | Some _ => (UB, s)
       | None => (Val tt, with_objs (<[this := PriorityQueue None 0]> (objs s)) s)
       end.

Definition pq_default (this : qid) : M unit := construct this.

(** [priority_queue(const priority_queue &other)] *)
Definition pq_copy (fuel : nat) (this other : qid) : M unit :=
  construct this ;;
  r <- get_root this ;;
  o <- get_root other ;;
  if decide (r = o) then ret tt
  else
    r <- get_root this ;;
    match r with
     | Some rp => recursive_del fuel rp ;; delete_node rp
     | None => ret tt
     end ;;
    o <- get_root other ;;
    match o with
    | None => undefined      (* other.root->recursive_dup() on a null root *)
    | Some op =>
        d <- recursive_dup fuel op ;;
        set_root this (Some d) ;;
        n <- get_raw_size other ;;
        set_raw_size this n
    end.

(** [operator=(const priority_queue &other)] *)
Definition pq_assign (fuel : nat) (this other : qid) : M unit :=
  r <- get_root this ;;
  o <- get_root other ;;
  if decide (r = o) then ret tt
  else
    r <- get_root this ;;
    match r with
     | Some rp => recursive_del fuel rp ;; delete_node rp
     | None => ret tt
     end ;;
    o <- get_root other ;;
    match o with
    | None => undefined      (* other.root->recursive_dup() on a null root *)
    | Some op =>
        d <- recursive_dup fuel op ;;
        set_root this (Some d) ;;
        n <- get_raw_size other ;;
        set_raw_size this n
    end.

(** [~priority_queue()]; the object's lifetime ends. *)
Definition pq_destroy (fuel : nat) (this : qid) : M unit :=
  r <- get_root this ;;
  match r with
   | Some rp => recursive_del fuel rp ;; delete_node rp
   | None => ret tt
   end ;;
  λ s, (Val tt, with_objs (delete this (objs s)) s).

Definition pq_empty (this : qid) : M bool :=
  r <- get_root this ;;
  ret (bool_decide (r = None)).

Definition pq_size (this : qid) : M N := get_raw_size this.

Definition pq_top (this : qid) : M T :=
  e <- pq_empty this ;;
  if e then throw container_is_empty
  else
    r <- get_root this ;;
    n <- deref_ptr r ;;
    ret (val n).

Definition pq_push (this : qid) (e : T) : M unit :=
  new_node_ptr <- new_node e None None ;;
  try_catch_runtime_error
    (r <- get_root this ;;
     r' <- meld_nodes r (Some new_node_ptr) ;;
     set_root this r' ;;
     n <- get_raw_size this ;;
     set_raw_size this (size_incr n))
    (delete_node new_node_ptr ;;
     throw runtime_error).

Definition pq_pop (fuel : nat) (this : qid) : M unit :=
  r <- get_root this ;;
  match r with
  | None => throw container_is_empty
  | Some rp =>
      c <- get_child rp ;;
      compare_siblings fuel c ;;
      (* After this, supposedly there should be no exceptions! *)
      c <- get_child rp ;;
      new_root <- merge_siblings fuel c ;;
      r <- get_root this ;;
      delete_ptr r ;;
      set_root this new_root ;;
      n <- get_raw_size this ;;
      set_raw_size this (size_decr n)
  end.

Definition pq_merge (this other : qid) : M unit :=
  a <- get_root this ;;
  b <- get_root other ;;
  r <- meld_nodes a b ;;
  set_root this r ;;
  set_root other None ;;
  n <- get_raw_size this ;;
  k <- get_raw_size other ;;
  set_raw_size this (size_add n k) ;;
  set_raw_size other 0.

(** ** Bounded traversals used to observe a store *)

(** The number of nodes met by a child/sibling traversal from [p]. *)
Fixpoint count_reachable (fuel : nat) (m : gmap loc pq_node) (p : option loc) : nat :=
  match fuel with
  | O => 0
  | S fuel' =>
      match p with
      | None => 0
      | Some l =>
          match m !! l with
          | None => 0
          | Some n => S (count_reachable fuel' m (child n) + count_reachable fuel' m (sibling n))
          end
      end
  end.

(** The values met by the same traversal. *)
Fixpoint values_reachable (fuel : nat) (m : gmap loc pq_node) (p : option loc) : list T :=
  match fuel with
  | O => []
  | S fuel' =>
      match p with
      | None => []
      | Some l =>
          match m !! l with
          | None => []
          | Some n => val n :: values_reachable fuel' m (child n)
                              ++ values_reachable fuel' m (sibling n)
          end
      end
  end.

(** ** Trees represented in the store *)

(** The shape of a node graph: the binary child/sibling encoding, with the
    address and the value of every node. *)
Inductive bt : Type :=
  | Leaf
  | Bin (p : loc) (v : T) (c s : bt).

Definition ptr (t : bt) : option loc :=
  match t with
  | Leaf => None
  | Bin p _ _ _ => Some p
  end.

Definition sib (t : bt) : bt :=
  match t with
  | Leaf => Leaf
  | Bin _ _ _ s => s
  end.

Fixpoint repr (m : gmap loc pq_node) (t : bt) : Prop :=
  match t with
  | Leaf => True
  | Bin p v c s => m !! p = Some (PqNode v (ptr c) (ptr s)) ∧ repr m c ∧ repr m s
  end.

Fixpoint locs (t : bt) : list loc :=
  match t with
  | Leaf => []
  | Bin p _ c s => p :: locs c ++ locs s
  end.

Fixpoint elems (t : bt) : list T :=
  match t with
  | Leaf => []
  | Bin _ v c s => v :: elems c ++ elems s
  end.

Fixpoint nodes (t : bt) : nat :=
  match t with
  | Leaf => 0
  | Bin _ _ c s => S (nodes c + nodes s)
  end.

(** Values along the sibling chain that starts at [t]. *)
Fixpoint chain_vals (t : bt) : list T :=
  match t with
  | Leaf => []
  | Bin _ v _ s => v :: chain_vals s
  end.

(** Same values and same shape, whatever the addresses. *)
Fixpoint same_shape (t u : bt) : Prop :=
  match t, u with
  | Leaf, Leaf => True
  | Bin _ v c s, Bin _ w d r => v = w ∧ same_shape c d ∧ same_shape s r
  | _, _ => False
  end.

(** ** Heap order *)

(** The comparator answers, whenever it answers, as the order [lessb]
    does; [lessb] is asymmetric; incomparability under [lessb] is
    transitive.  Together: the comparator implements a strict weak order. *)
Definition cmp_sound (lessb : T → T → bool) : Prop :=
  ∀ c x y b c', Compare c x y = (inr b, c') → b = lessb x y.
Definition lt_asym (lessb : T → T → bool) : Prop :=
  ∀ x y, lessb x y = true → lessb y x = false.
Definition lt_negtrans (lessb : T → T → bool) : Prop :=
  ∀ x y z, lessb x y = false → lessb y z = false → lessb x z = false.

(** For every node [n] and every child [c] of [n] (the nodes of the sibling
    chain under [n]), [n] does not compare below [c]. *)
Fixpoint ho (lessb : T → T → bool) (t : bt) : Prop :=
  match t with
  | Leaf => True
  | Bin _ v c s => Forall (λ x, lessb v x = false) (chain_vals c) ∧ ho lessb c ∧ ho lessb s
  end.

(** ** The vocabulary of the specifications *)

(** What one comparator invocation leaves behind. *)
Definition after_call (s : state) (x y : T) (c' : C) : state :=
  State (mem s) (objs s) c' ((x, y) :: calls s).

(** [s'] differs from [s] at most in the nodes at the addresses [F]: no
    allocation, no release, no queue object touched. *)
Definition touches (F : list loc) (s s' : state) : Prop :=
  (∀ p, p ∉ F → mem s' !! p = mem s !! p) ∧
  dom (mem s') = dom (mem s) ∧
  objs s' = objs s.

(** The root of [t] has no sibling. *)
Definition rooted (t : bt) : Prop := sib t = Leaf.

(** The tree [meld_nodes] builds from two rooted trees when the comparator
    answers [r]. *)
Definition meld_tree (r : bool) (ta tb : bt) : bt :=
  match ta, tb with
  | Leaf, _ => tb
  | _, Leaf => ta
  | Bin pa va ca _, Bin pb vb cb _ =>
      if r then Bin pb vb (Bin pa va ca cb) Leaf
      else Bin pa va (Bin pb vb cb ca) Leaf
  end.

(** What is left of a chain when a pass over it stops half-way: the first
    node still heads a tree without sharing, made of nodes of the chain. *)
Definition weak_post (t : bt) (s s' : state) : Prop :=
  ∃ t', ptr t' = ptr t ∧ repr (mem s') t' ∧ NoDup (locs t') ∧
        locs t' ⊆ locs t ∧ touches (locs t) s s'.

(** The tree that hangs from the first node once the first meld is done. *)
Definition first_after_meld (b : bool) p0 v0 c0 p1 v1 c1 : bt :=
  if b then Bin p0 v0 c0 c1 else Bin p0 v0 (Bin p1 v1 c1 c0) Leaf.

(** The copy [t'] of [t] that [recursive_dup] returns at [r]: same values
    and shape, on addresses that were free, everything else as it was. *)
Definition dup_post (s : state) (t : bt) (r : loc) (s' : state) : Prop :=
  ∃ t', ptr t' = Some r ∧ same_shape t t' ∧ repr (mem s') t' ∧ NoDup (locs t') ∧
        (∀ q, q ∈ locs t' → mem s !! q = None) ∧
        (∀ q, q ∉ locs t' → mem s' !! q = mem s !! q) ∧
        objs s' = objs s ∧ cst s' = cst s ∧ calls s' = calls s.

(** With fuel for the nodes of [t], [recursive_dup] returns such a copy. *)
Definition dup_ok (fuel : nat) : Prop :=
  ∀ t s p, ptr t = Some p → repr (mem s) t → nodes t ≤ fuel →
    ∃ r s', recursive_dup fuel p s = (Val r, s') ∧ dup_post s t r s'.

(** [s'] is [s] with the nodes at [F] released and nothing else changed. *)
Definition del_post (F : list loc) (s s' : state) : Prop :=
  (∀ q, q ∈ F → mem s' !! q = None) ∧
  (∀ q, q ∉ F → mem s' !! q = mem s !! q) ∧
  objs s' = objs s ∧ cst s' = cst s ∧ calls s' = calls s.

(** With fuel for its nodes, [recursive_del] releases everything below and
    to the right of a node of a tree without sharing. *)
Definition del_ok (fuel : nat) : Prop :=
  ∀ p v c sb s, repr (mem s) (Bin p v c sb) → NoDup (locs (Bin p v c sb)) →
    nodes (Bin p v c sb) ≤ fuel →
    ∃ s', recursive_del fuel p s = (Val tt, s') ∧ del_post (locs c ++ locs sb) s s'.

(** Queue object [q] holds the root of [t] and the count [n]; [t] is laid
    out without sharing and its root has no sibling. *)
Definition queue_at (s : state) (q : qid) (t : bt) (n : N) : Prop :=
  objs s !! q = Some (PriorityQueue (ptr t) n) ∧
  repr (mem s) t ∧ NoDup (locs t) ∧ rooted t.

(** The same, with the count the size invariant asks for. *)
Definition queue_ok (s : state) (q : qid) (t : bt) : Prop :=
  queue_at s q t (wrap (N.of_nat (nodes t))).

(** [s'] comes from [s] by pushes and pops on queue [q], whether they
    return or throw; every pop has fuel for the whole store. *)
Inductive mutated (q : qid) : state → state → Prop :=
  | mutated_refl s : mutated q s s
  | mutated_push s s' e :
      mutated q s s' → mutated q s (pq_push q e s').2
  | mutated_pop s s' fuel :
      mutated q s s' → size (mem s') ≤ fuel → mutated q s (pq_pop fuel q s').2.

(** What queue [q] shows to its user. *)
Definition observe (q : qid) (s : state) : outcome E T * outcome E N :=
  ((pq_top q s).1, (pq_size q s).1).

(** A call of the public interface. *)
Inductive op : Type :=
  | OpDefault (q : qid)
  | OpCopy (q other : qid)
  | OpAssign (q other : qid)
  | OpDestroy (q : qid)
  | OpTop (q : qid)
  | OpPush (q : qid) (e : T)
  | OpPop (q : qid)
  | OpSize (q : qid)
  | OpEmpty (q : qid)
  | OpMerge (q other : qid).

(** What a call returns. *)
Inductive answer : Type :=
  | AUnit
  | AElem (e : T)
  | ASize (n : N)
  | ABool (b : bool).

Definition exec (fuel : nat) (o : op) : M answer :=
  match o with
  | OpDefault q => pq_default q ;; ret AUnit
  | OpCopy q other => pq_copy fuel q other ;; ret AUnit
  | OpAssign q other => pq_assign fuel q other ;; ret AUnit
  | OpDestroy q => pq_destroy fuel q ;; ret AUnit
  | OpTop q => v <- pq_top q ;; ret (AElem v)
  | OpPush q e => pq_push q e ;; ret AUnit
  | OpPop q => pq_pop fuel q ;; ret AUnit
  | OpSize q => n <- pq_size q ;; ret (ASize n)
  | OpEmpty q => b <- pq_empty q ;; ret (ABool b)
  | OpMerge q other => pq_merge q other ;; ret AUnit
  end.

(** The states a program reaches from the empty store through calls that
    return; every call has fuel for the whole store. *)
Inductive reachable : state → Prop :=
  | reachable_init c : reachable (State ∅ ∅ c [])
  | reachable_step s fuel o a s' :
      reachable s → size (mem s) ≤ fuel → exec fuel o s = (Val a, s') →
      reachable s'.

(** Parent value and child value, for every node and every child of it. *)
Fixpoint parent_child (t : bt) : list (T * T) :=
  match t with
  | Leaf => []
  | Bin _ v c s => map (pair v) (chain_vals c) ++ parent_child c ++ parent_child s
  end.

(** Every live queue owns a tree of its own, in heap order and with the
    right count. *)
Definition owns_ok (lessb : T → T → bool) (s : state) (owns : gmap qid bt) : Prop :=
  (∀ q, is_Some (owns !! q) ↔ is_Some (objs s !! q)) ∧
  (∀ q t, owns !! q = Some t → queue_ok s q t ∧ ho lessb t) ∧
  (∀ q1 q2 t1 t2, q1 ≠ q2 → owns !! q1 = Some t1 → owns !! q2 = Some t2 →
     ∀ p, p ∈ locs t1 → p ∉ locs t2).

(** The state is in order: there is such an assignment of trees. *)
Definition world_ok (lessb : T → T → bool) (s : state) : Prop :=
  ∃ owns, owns_ok lessb s owns.

(** Queue [c] owns a copy [t'] of the tree [ta] that queue [a] owns: same
    values and shape, no node in common. *)
Definition copied (s : state) (c a : qid) (ta t' : bt) (n : N) : Prop :=
  c ≠ a ∧ queue_at s c t' n ∧ queue_at s a ta n ∧
  same_shape ta t' ∧ (∀ p, p ∈ locs t' → p ∉ locs ta).

(** The comparator never throws. *)
Definition cmp_total : Prop :=
  ∀ c x y, ∃ b c', Compare c x y = (inr b, c').

(** The program [m] never ends in a C++ exception. *)
Definition no_exn {A} (m : M A) : Prop :=
  ∀ s x s', m s ≠ (Exn x, s').

(** [top] then [pop], [n] times over: the elements taken off the queue, up
    to the first call that does not return. *)
Fixpoint pop_all (n fuel : nat) (q : qid) (s : state) : list T :=
  match n with
  | O => []
  | S n' =>
      match pq_top q s with
      | (Val v, _) =>
          match pq_pop fuel q s with
          | (Val _, s') => v :: pop_all n' fuel q s'
          | _ => []
          end
      | _ => []
      end
  end.

(** The program [m] never calls the comparator. *)
Definition quiet {A} (m : M A) : Prop :=
  ∀ s, calls (m s).2 = calls s ∧ cst (m s).2 = cst s.

(** Each element of a list with its right neighbour. *)
Fixpoint adjacent (l : list T) : list (T * T) :=
  match l with
  | x :: ((y :: _) as l') => (x, y) :: adjacent l'
  | _ => []
  end.

(** One [push] after the other, for the elements of [l] from left to
    right, whatever each of them answers. *)
Fixpoint push_all (l : list T) (q : qid) (s : state) : state :=
  match l with
  | [] => s
  | e :: l' => push_all l' q (pq_push q e s).2
  end.


(** The order in which nothing is below anything. *)
Definition no_order : T → T → bool := λ _ _, false.


(** The call ended: it returned or it threw. *)
Definition finished {A} (r : outcome E A) : Prop :=
  match r with
  | Val _ | Exn _ => True
  | UB | OutOfFuel => False
  end.

(** The states a program reaches from the empty store through calls that
    returned or threw; every call has fuel for the whole store. *)
Inductive reachable_any : state → Prop :=
  | reachable_any_init c : reachable_any (State ∅ ∅ c [])
  | reachable_any_step s fuel o :
      reachable_any s → size (mem s) ≤ fuel → finished (exec fuel o s).1 →
      reachable_any (exec fuel o s).2.

(** Every live queue owns a tree of its own, whatever its count says. *)
Definition owns_safe (s : state) (owns : gmap qid bt) : Prop :=
  (∀ q, is_Some (owns !! q) ↔ is_Some (objs s !! q)) ∧
  (∀ q t, owns !! q = Some t → ∃ n, queue_at s q t n) ∧
  (∀ q1 q2 t1 t2, q1 ≠ q2 → owns !! q1 = Some t1 → owns !! q2 = Some t2 →
     ∀ p, p ∈ locs t1 → p ∉ locs t2).

Definition world_safe (s : state) : Prop :=
  ∃ owns, owns_safe s owns.


(** No node is lost: every allocated node belongs to the tree of a live
    queue. *)
Definition leak_free (s : state) : Prop :=
  ∀ p, is_Some (mem s !! p) → ∃ q t n, queue_at s q t n ∧ p ∈ locs t.

(** A queue merged into itself. *)
Definition self_merge (o : op) : Prop :=
  match o with
  | OpMerge q other => q = other
  | _ => False
  end.

(** The states a program reaches from the empty store through calls that
    returned, none of them a merge of a queue into itself. *)
Inductive reachable_unmerged : state → Prop :=
  | reachable_unmerged_init c : reachable_unmerged (State ∅ ∅ c [])
  | reachable_unmerged_step s fuel o a s' :
      reachable_unmerged s → size (mem s) ≤ fuel → ¬ self_merge o →
      exec fuel o s = (Val a, s') → reachable_unmerged s'.


(** ** Basic facts about trees in the store *)

Lemma length_locs t : length (locs t) = nodes t.
Proof. induction t; simpl; [done|]. rewrite length_app. lia. Qed.

Lemma length_elems t : length (elems t) = nodes t.
Proof. induction t; simpl; [done|]. rewrite length_app. lia. Qed.

Lemma repr_dom m t p : repr m t → p ∈ locs t → is_Some (m !! p).
Proof.
  induction t as [|q v c IHc s IHs]; simpl; [by intros _ ?%elem_of_nil|].
  intros (Hq & Hc & Hs) [->|[?|?]%elem_of_app]%elem_of_cons; eauto.
Qed.

(** A tree only depends on the part of the store it occupies. *)
Lemma repr_frame m m' t :
  repr m t → (∀ p, p ∈ locs t → m' !! p = m !! p) → repr m' t.
Proof.
  induction t as [|q v c IHc s IHs]; simpl; [done|].
  intros (Hq & Hc & Hs) Hag. split_and!.
  - rewrite Hag; [done|]. apply elem_of_cons; by left.
  - apply IHc; [done|]. intros p Hp. apply Hag. set_solver.
  - apply IHs; [done|]. intros p Hp. apply Hag. set_solver.
Qed.

Lemma repr_insert_fresh m t p n :
  repr m t → p ∉ locs t → repr (<[p := n]> m) t.
Proof.
  intros Hr Hp. eapply repr_frame; [done|].
  intros q Hq. rewrite lookup_insert_ne; [done|]. intros ->. done.
Qed.

Lemma repr_delete m t p :
  repr m t → p ∉ locs t → repr (delete p m) t.
Proof.
  intros Hr Hp. eapply repr_frame; [done|].
  intros q Hq. rewrite lookup_delete_ne; [done|]. intros ->. done.
Qed.

(** The store and the root determine the tree. *)
Lemma repr_inj m t u : repr m t → repr m u → ptr t = ptr u → t = u.
Proof.
  revert u. induction t as [|p v c IHc s IHs]; intros [|q w d r]; simpl; try done.
  intros (Hp & Hc & Hs) (Hq & Hd & Hr) [= <-].
  rewrite Hp in Hq. injection Hq as -> Hcd Hsr.
  f_equal; eauto.
Qed.

Lemma same_shape_elems t u : same_shape t u → elems t = elems u.
Proof.
  revert u. induction t as [|p v c IHc s IHs]; intros [|q w d r]; simpl; try done.
  intros (-> & Hc & Hs). f_equal. f_equal; eauto.
Qed.

Lemma same_shape_nodes t u : same_shape t u → nodes t = nodes u.
Proof.
  revert u. induction t as [|p v c IHc s IHs]; intros [|q w d r]; simpl; try done.
  intros (-> & Hc & Hs). f_equal. f_equal; eauto.
Qed.

Lemma count_reachable_repr m t fuel :
  repr m t → nodes t < fuel → count_reachable fuel m (ptr t) = nodes t.
Proof.
  revert t. induction fuel as [|fuel IH]; intros t Hr Hf; [lia|].
  destruct t as [|p v c s]; simpl in *; [done|].
  destruct Hr as (-> & Hc & Hs). simpl.
  rewrite !IH by (done || lia). done.
Qed.

Lemma values_reachable_repr m t fuel :
  repr m t → nodes t < fuel → values_reachable fuel m (ptr t) = elems t.
Proof.
  revert t. induction fuel as [|fuel IH]; intros t Hr Hf; [lia|].
  destruct t as [|p v c s]; simpl in *; [done|].
  destruct Hr as (-> & Hc & Hs). simpl.
  rewrite !IH by (done || lia). done.
Qed.

(** ** Stepping through programs *)

Lemma bind_Val {A B} (m : M A) (k : A → M B) s a s' :
  m s = (Val a, s') → bind m k s = k a s'.
Proof. unfold bind. by intros ->. Qed.

Lemma bind_Exn {A B} (m : M A) (k : A → M B) s e s' :
  m s = (Exn e, s') → bind m k s = (Exn e, s').
Proof. unfold bind. by intros ->. Qed.

Lemma bind_UB {A B} (m : M A) (k : A → M B) s s' :
  m s = (UB, s') → bind m k s = (UB, s').
Proof. unfold bind. by intros ->. Qed.

Lemma bind_OutOfFuel {A B} (m : M A) (k : A → M B) s s' :
  m s = (OutOfFuel, s') → bind m k s = (OutOfFuel, s').
Proof. unfold bind. by intros ->. Qed.

Lemma deref_Some s p n : mem s !! p = Some n → deref p s = (Val n, s).
Proof. unfold deref. by intros ->. Qed.

Lemma deref_None s p : mem s !! p = None → deref p s = (UB, s).
Proof. unfold deref. by intros ->. Qed.

Lemma get_val_Some s p n : mem s !! p = Some n → get_val p s = (Val (val n), s).
Proof. intros H. unfold get_val. by rewrite (bind_Val _ _ _ _ _ (deref_Some _ _ _ H)). Qed.

Lemma get_child_Some s p n : mem s !! p = Some n → get_child p s = (Val (child n), s).
Proof. intros H. unfold get_child. by rewrite (bind_Val _ _ _ _ _ (deref_Some _ _ _ H)). Qed.

Lemma get_sibling_Some s p n :
  mem s !! p = Some n → get_sibling p s = (Val (sibling n), s).
Proof. intros H. unfold get_sibling. by rewrite (bind_Val _ _ _ _ _ (deref_Some _ _ _ H)). Qed.

Lemma set_child_Some s p n c :
  mem s !! p = Some n →
  set_child p c s = (Val tt, with_mem (<[p := PqNode (val n) c (sibling n)]> (mem s)) s).
Proof. intros H. unfold set_child. by rewrite (bind_Val _ _ _ _ _ (deref_Some _ _ _ H)). Qed.

Lemma set_sibling_Some s p n sb :
  mem s !! p = Some n →
  set_sibling p sb s = (Val tt, with_mem (<[p := PqNode (val n) (child n) sb]> (mem s)) s).
Proof. intros H. unfold set_sibling. by rewrite (bind_Val _ _ _ _ _ (deref_Some _ _ _ H)). Qed.

Lemma delete_node_Some s p n :
  mem s !! p = Some n → delete_node p s = (Val tt, with_mem (delete p (mem s)) s).
Proof. intros H. unfold delete_node. by rewrite (bind_Val _ _ _ _ _ (deref_Some _ _ _ H)). Qed.

Lemma this_obj_Some s q o : objs s !! q = Some o → this_obj q s = (Val o, s).
Proof. unfold this_obj. by intros ->. Qed.

Lemma get_root_Some s q o : objs s !! q = Some o → get_root q s = (Val (root o), s).
Proof. intros H. unfold get_root. by rewrite (bind_Val _ _ _ _ _ (this_obj_Some _ _ _ H)). Qed.

Lemma get_raw_size_Some s q o :
  objs s !! q = Some o → get_raw_size q s = (Val (raw_size_ o), s).
Proof. intros H. unfold get_raw_size. by rewrite (bind_Val _ _ _ _ _ (this_obj_Some _ _ _ H)). Qed.

Lemma set_root_Some s q o r :
  objs s !! q = Some o →
  set_root q r s = (Val tt, with_objs (<[q := PriorityQueue r (raw_size_ o)]> (objs s)) s).
Proof. intros H. unfold set_root. by rewrite (bind_Val _ _ _ _ _ (this_obj_Some _ _ _ H)). Qed.

Lemma set_raw_size_Some s q o n :
  objs s !! q = Some o →
  set_raw_size q n s = (Val tt, with_objs (<[q := PriorityQueue (root o) n]> (objs s)) s).
Proof. intros H. unfold set_raw_size. by rewrite (bind_Val _ _ _ _ _ (this_obj_Some _ _ _ H)). Qed.

Lemma call_compare_eq s x y :
  call_compare x y s =
    match Compare (cst s) x y with
    | (inr b, c') => (Val b, after_call s x y c')
    | (inl e, c') => (Exn (comparator_exn e), after_call s x y c')
    end.
Proof. done. Qed.

(** ** meld_nodes, exactly *)

Lemma meld_nodes_None_l b s : meld_nodes None b s = (Val b, s).
Proof. done. Qed.

Lemma meld_nodes_None_r a s : meld_nodes a None s = (Val a, s).
Proof. by destruct a. Qed.

Lemma meld_nodes_Some s a b na nb :
  a ≠ b → mem s !! a = Some na → mem s !! b = Some nb →
  meld_nodes (Some a) (Some b) s =
    match Compare (cst s) (val na) (val nb) with
    | (inr true, c') =>
        (Val (Some b),
         with_mem (<[b := PqNode (val nb) (Some a) (sibling nb)]>
                     (<[a := PqNode (val na) (child na) (child nb)]> (mem s)))
                  (after_call s (val na) (val nb) c'))
    | (inr false, c') =>
        (Val (Some a),
         with_mem (<[a := PqNode (val na) (Some b) (sibling na)]>
                     (<[b := PqNode (val nb) (child nb) (child na)]> (mem s)))
                  (after_call s (val na) (val nb) c'))
    | (inl e, c') => (Exn runtime_error, after_call s (val na) (val nb) c')
    end.
Proof.
  intros Hab Ha Hb. unfold meld_nodes, try_catch_all.
  rewrite (bind_Val _ _ _ _ _ (get_val_Some _ _ _ Ha)).
  rewrite (bind_Val _ _ _ _ _ (get_val_Some _ _ _ Hb)).
  unfold bind at 1. rewrite call_compare_eq.
  destruct (Compare (cst s) (val na) (val nb)) as [[e|[|]] c']; [done|..].
  - set (s1 := after_call s (val na) (val nb) c').
    assert (Ha1 : mem s1 !! a = Some na) by done.
    assert (Hb1 : mem s1 !! b = Some nb) by done.
    rewrite (bind_Val _ _ _ _ _ (get_child_Some _ _ _ Hb1)).
    rewrite (bind_Val _ _ _ _ _ (set_sibling_Some _ _ _ _ Ha1)).
    erewrite bind_Val; [done|].
    erewrite set_child_Some; [done|].
    simpl. by rewrite lookup_insert_ne.
  - set (s1 := after_call s (val na) (val nb) c').
    assert (Ha1 : mem s1 !! a = Some na) by done.
    assert (Hb1 : mem s1 !! b = Some nb) by done.
    rewrite (bind_Val _ _ _ _ _ (get_child_Some _ _ _ Ha1)).
    rewrite (bind_Val _ _ _ _ _ (set_sibling_Some _ _ _ _ Hb1)).
    erewrite bind_Val; [done|].
    erewrite set_child_Some; [done|].
    simpl. by rewrite lookup_insert_ne.
Qed.

(** ** Footprints *)

Lemma touches_refl F s : touches F s s.
Proof. done. Qed.

Lemma touches_trans F s1 s2 s3 : touches F s1 s2 → touches F s2 s3 → touches F s1 s3.
Proof.
  intros (H1 & D1 & O1) (H2 & D2 & O2). split_and!.
  - intros p Hp. by rewrite H2, H1.
  - by rewrite D2.
  - by rewrite O2.
Qed.

Lemma touches_mono F G s s' : F ⊆ G → touches F s s' → touches G s s'.
Proof. intros HFG (H & D & O). split_and!; [|done..]. intros p Hp. apply H. set_solver. Qed.

Lemma touches_repr F s s' t :
  touches F s s' → repr (mem s) t → (∀ p, p ∈ locs t → p ∉ F) → repr (mem s') t.
Proof. intros (H & _) Hr Hd. eapply repr_frame; [done|]. intros p Hp. apply H. eauto. Qed.

(** ** meld_nodes on trees *)

Lemma repr_meld_tree (m : gmap loc pq_node) (r : bool) pa va ca pb vb cb :
  repr m (Bin pa va ca Leaf) → repr m (Bin pb vb cb Leaf) →
  NoDup (locs (Bin pa va ca Leaf) ++ locs (Bin pb vb cb Leaf)) →
  repr (if r
        then <[pb := PqNode vb (Some pa) None]> (<[pa := PqNode va (ptr ca) (ptr cb)]> m)
        else <[pa := PqNode va (Some pb) None]> (<[pb := PqNode vb (ptr cb) (ptr ca)]> m))
       (meld_tree r (Bin pa va ca Leaf) (Bin pb vb cb Leaf)).
Proof.
  simpl. rewrite !app_nil_r. intros (Ha & Hca & _) (Hb & Hcb & _) Hnd.
  apply NoDup_cons in Hnd as [Hpa Hnd]. apply NoDup_app in Hnd as (Hnca & Hd & Hnd).
  apply NoDup_cons in Hnd as [Hpb Hncb].
  assert (pa ≠ pb) by set_solver.
  assert ((pa ∉ locs ca) ∧ (pa ∉ locs cb) ∧ (pb ∉ locs ca) ∧ (pb ∉ locs cb)) as (?&?&?&?).
  { split_and!; [set_solver|set_solver| |set_solver]. intros Hin. apply (Hd pb Hin). set_solver. }
  destruct r; simpl; split_and!;
    first [ done
          | by rewrite lookup_insert_eq
          | by rewrite lookup_insert_ne, lookup_insert_eq
          | by apply repr_insert_fresh; [apply repr_insert_fresh|] ].
Qed.

Lemma perm_cons_middle {A} (x y : A) l1 l2 :
  y :: x :: l1 ++ l2 ≡ₚ x :: l1 ++ y :: l2.
Proof. rewrite <- Permutation_middle. apply perm_swap. Qed.

Lemma locs_meld_tree r ta tb :
  rooted ta → rooted tb → locs (meld_tree r ta tb) ≡ₚ locs ta ++ locs tb.
Proof.
  destruct ta as [|pa va ca sa], tb as [|pb vb cb sb]; simpl; try done.
  - intros _ _. by rewrite app_nil_r.
  - unfold rooted. simpl. intros -> ->. destruct r; simpl; rewrite !app_nil_r.
    + apply perm_cons_middle.
    + rewrite <- Permutation_middle. do 2 constructor. apply Permutation_app_comm.
Qed.

Lemma elems_meld_tree r ta tb :
  rooted ta → rooted tb → elems (meld_tree r ta tb) ≡ₚ elems ta ++ elems tb.
Proof.
  destruct ta as [|pa va ca sa], tb as [|pb vb cb sb]; simpl; try done.
  - intros _ _. by rewrite app_nil_r.
  - unfold rooted. simpl. intros -> ->. destruct r; simpl; rewrite !app_nil_r.
    + apply perm_cons_middle.
    + rewrite <- Permutation_middle. do 2 constructor. apply Permutation_app_comm.
Qed.

Lemma nodes_meld_tree r ta tb :
  rooted ta → rooted tb → nodes (meld_tree r ta tb) = nodes ta + nodes tb.
Proof.
  intros Ha Hb. rewrite <- !length_locs, <- length_app.
  by rewrite (locs_meld_tree r ta tb Ha Hb).
Qed.

Lemma rooted_meld_tree r ta tb : rooted ta → rooted tb → rooted (meld_tree r ta tb).
Proof. destruct ta, tb; simpl; try done. by destruct r. Qed.

(** The comparator's answer on the two roots keeps the heap order. *)
Lemma ho_meld_tree lessb pa va ca sa pb vb cb sb :
  lt_asym lessb → ho lessb (Bin pa va ca sa) → ho lessb (Bin pb vb cb sb) →
  ho lessb (meld_tree (lessb va vb) (Bin pa va ca sa) (Bin pb vb cb sb)).
Proof.
  intros Hasym (Fa & Hca & _) (Fb & Hcb & _). simpl.
  destruct (lessb va vb) eqn:Hlt; simpl; split_and!; try done.
  - constructor; [by apply Hasym|done].
  - by constructor.
Qed.

Lemma touches_meld s a b na nb na' nb' x y c' :
  mem s !! a = Some na → mem s !! b = Some nb →
  touches [a; b] s (with_mem (<[a := na']> (<[b := nb']> (mem s))) (after_call s x y c')).
Proof.
  intros Ha Hb. split_and!; simpl; [| |done].
  - intros p Hp. rewrite !lookup_insert_ne; [done|set_solver..].
  - rewrite !dom_insert_L. apply elem_of_dom_2 in Ha, Hb. set_solver.
Qed.

(** [meld_nodes] on two disjoint rooted trees: what it returns, what it
    leaves in the store, and that a throw leaves the store alone. *)
Lemma meld_nodes_trees s ta tb :
  repr (mem s) ta → repr (mem s) tb → rooted ta → rooted tb →
  NoDup (locs ta ++ locs tb) →
  match meld_nodes (ptr ta) (ptr tb) s with
  | (Val r, s') =>
      ∃ b, r = ptr (meld_tree b ta tb) ∧ repr (mem s') (meld_tree b ta tb) ∧
           (∀ lessb, cmp_sound lessb → lt_asym lessb → ho lessb ta → ho lessb tb →
              ho lessb (meld_tree b ta tb)) ∧
           touches (locs ta ++ locs tb) s s'
  | (Exn e, s') => e = runtime_error ∧ mem s' = mem s ∧ objs s' = objs s
  | (UB, _) | (OutOfFuel, _) => False
  end.
Proof.
  intros Hra Hrb Hsa Hsb Hnd.
  destruct ta as [|pa va ca sa].
  { rewrite meld_nodes_None_l. exists true. simpl. split_and!; try done. }
  destruct tb as [|pb vb cb sb].
  { rewrite meld_nodes_None_r. exists true. simpl. destruct Hra as (? & ? & ?). split_and!; try done. }
  unfold rooted in Hsa, Hsb. simpl in Hsa, Hsb. subst sa sb.
  pose proof Hra as (Ha & _). pose proof Hrb as (Hb & _).
  assert (pa ≠ pb) as Hab.
  { intros ->. simpl in Hnd. apply NoDup_cons in Hnd as [Hnd _]. set_solver. }
  cbn [ptr]. rewrite (meld_nodes_Some s pa pb _ _ Hab Ha Hb). cbn [val child sibling].
  destruct (Compare (cst s) va vb) as [[e|b] c'] eqn:Hc; [done|].
  assert (touches (locs (Bin pa va ca Leaf) ++ locs (Bin pb vb cb Leaf)) s
            (if b
             then with_mem (<[pb := PqNode vb (Some pa) None]>
                              (<[pa := PqNode va (ptr ca) (ptr cb)]> (mem s)))
                           (after_call s va vb c')
             else with_mem (<[pa := PqNode va (Some pb) None]>
                              (<[pb := PqNode vb (ptr cb) (ptr ca)]> (mem s)))
                           (after_call s va vb c'))) as Ht.
  { destruct b.
    - eapply touches_mono; [|by eapply (touches_meld s pb pa)]. set_solver.
    - eapply touches_mono; [|by eapply (touches_meld s pa pb)]. set_solver. }
  pose proof (repr_meld_tree (mem s) b pa va ca pb vb cb Hra Hrb Hnd) as Hr.
  assert (∀ lessb, cmp_sound lessb → lt_asym lessb →
          ho lessb (Bin pa va ca Leaf) → ho lessb (Bin pb vb cb Leaf) →
          ho lessb (meld_tree b (Bin pa va ca Leaf) (Bin pb vb cb Leaf))) as Hho.
  { intros lessb Hs Hasym H1 H2. rewrite (Hs _ _ _ _ _ Hc). by apply ho_meld_tree. }
  destruct b; [exists true|exists false]; split_and!; done.
Qed.

(** ** compare_siblings *)

(** One turn of the loop, written out. *)
Lemma compare_siblings_loop_S fuel b s :
  compare_siblings_loop (S fuel) b s =
    match mem s !! b with
    | None => (UB, s)
    | Some n =>
        match sibling n with
        | None => (Val tt, s)
        | Some sp =>
            match mem s !! sp with
            | None => (UB, s)
            | Some ns =>
                match Compare (cst s) (val n) (val ns) with
                | (inr _, c') =>
                    compare_siblings_loop fuel sp (after_call s (val n) (val ns) c')
                | (inl e, c') =>
                    (Exn (comparator_exn e), after_call s (val n) (val ns) c')
                end
            end
        end
    end.
Proof.
  cbn [compare_siblings_loop].
  destruct (mem s !! b) as [n|] eqn:Hb.
  2:{ unfold get_sibling. apply bind_UB. apply bind_UB. by apply deref_None. }
  rewrite (bind_Val _ _ _ _ _ (get_sibling_Some _ _ _ Hb)).
  destruct (sibling n) as [sp|]; [|done].
  rewrite (bind_Val _ _ _ _ _ (get_val_Some _ _ _ Hb)).
  destruct (mem s !! sp) as [ns|] eqn:Hs.
  2:{ unfold get_val. apply bind_UB. apply bind_UB. by apply deref_None. }
  rewrite (bind_Val _ _ _ _ _ (get_val_Some _ _ _ Hs)).
  unfold bind at 1. rewrite call_compare_eq.
  by destruct (Compare (cst s) (val n) (val ns)) as [[e|r] c'].
Qed.

(** The validation pass never writes to the store, whatever it is given. *)
Lemma compare_siblings_loop_pure fuel b s :
  mem (compare_siblings_loop fuel b s).2 = mem s ∧
  objs (compare_siblings_loop fuel b s).2 = objs s.
Proof.
  revert b s. induction fuel as [|fuel IH]; intros b s; [done|].
  rewrite compare_siblings_loop_S.
  destruct (mem s !! b) as [n|]; [|done].
  destruct (sibling n) as [sp|]; [|done].
  destruct (mem s !! sp) as [ns|]; [|done].
  destruct (Compare (cst s) (val n) (val ns)) as [[e|r] c']; [done|].
  destruct (IH sp (after_call s (val n) (val ns) c')) as [-> ->]. done.
Qed.

Lemma compare_siblings_pure fuel begin s :
  mem (compare_siblings fuel begin s).2 = mem s ∧
  objs (compare_siblings fuel begin s).2 = objs s.
Proof.
  unfold compare_siblings, try_catch_all.
  destruct begin as [b|]; [|done].
  pose proof (compare_siblings_loop_pure fuel b s) as H.
  by destruct (compare_siblings_loop fuel b s) as [[[]|e| |] s'].
Qed.

(** Whatever it catches, it rethrows as [runtime_error]. *)
Lemma compare_siblings_exn fuel begin s e s' :
  compare_siblings fuel begin s = (Exn e, s') → e = runtime_error.
Proof.
  unfold compare_siblings, try_catch_all.
  destruct begin as [b|]; [|done].
  destruct (compare_siblings_loop fuel b s) as [[[]|e0| |] s0]; unfold throw; simpl; congruence.
Qed.

(** On a chain laid out in the store, with fuel for its length, the loop
    returns or the comparator throws. *)
Lemma compare_siblings_loop_chain fuel p v c sb s :
  repr (mem s) (Bin p v c sb) → nodes (Bin p v c sb) ≤ fuel →
  match compare_siblings_loop fuel p s with
  | (Val _, _) | (Exn (comparator_exn _), _) => True
  | _ => False
  end.
Proof.
  revert p v c sb s. induction fuel as [|fuel IH]; intros p v c sb s Hr Hf.
  { simpl in Hf. lia. }
  rewrite compare_siblings_loop_S.
  destruct Hr as (Hp & Hc & Hs). rewrite Hp. cbn [sibling val].
  destruct sb as [|p1 v1 c1 s1]; [done|]. cbn [ptr].
  pose proof Hs as (Hp1 & _). rewrite Hp1. cbn [val].
  destruct (Compare (cst s) v v1) as [[e|r] c']; [done|].
  apply (IH p1 v1 c1 s1); [done|]. simpl in *. lia.
Qed.

Lemma compare_siblings_chain fuel t s :
  repr (mem s) t → nodes t ≤ fuel →
  match compare_siblings fuel (ptr t) s with
  | (Val _, _) | (Exn runtime_error, _) => True
  | _ => False
  end.
Proof.
  intros Hr Hf. unfold compare_siblings, try_catch_all.
  destruct t as [|p v c sb]; [done|]. cbn [ptr].
  pose proof (compare_siblings_loop_chain fuel p v c sb s Hr Hf) as H.
  by destruct (compare_siblings_loop fuel p s) as [[[]|[| |e]| |] s'].
Qed.

(** ** merge_siblings *)

Lemma weak_post_refl t s : repr (mem s) t → NoDup (locs t) → weak_post t s s.
Proof. intros Hr Hn. exists t. split_and!; done. Qed.

(** The first two nodes are taken off the chain. *)
Lemma merge_siblings_detach fuel p0 v0 c0 p1 v1 c1 rest s :
  repr (mem s) (Bin p0 v0 c0 (Bin p1 v1 c1 rest)) → p0 ≠ p1 →
  merge_siblings (S fuel) (Some p0) s =
    (self_and_sib <- meld_nodes (Some p0) (Some p1) ;;
     sib_of_sib <- merge_siblings fuel (ptr rest) ;;
     meld_nodes self_and_sib sib_of_sib)
      (with_mem (<[p1 := PqNode v1 (ptr c1) None]>
                   (<[p0 := PqNode v0 (ptr c0) None]> (mem s))) s).
Proof.
  intros (Hp0 & Hc0 & Hp1 & Hc1 & Hrest) Hne. cbn [merge_siblings].
  rewrite (bind_Val _ _ _ _ _ (get_sibling_Some _ _ _ Hp0)). cbn [sibling ptr].
  rewrite (bind_Val _ _ _ _ _ (get_sibling_Some _ _ _ Hp1)). cbn [sibling].
  rewrite (bind_Val _ _ _ _ _ (set_sibling_Some _ _ _ _ Hp0)). cbn [val child].
  assert (mem (with_mem (<[p0 := PqNode v0 (ptr c0) None]> (mem s)) s) !! p1
          = Some (PqNode v1 (ptr c1) (ptr rest))) as Hp1'.
  { simpl. by rewrite lookup_insert_ne. }
  by rewrite (bind_Val _ _ _ _ _ (set_sibling_Some _ _ _ _ Hp1')).
Qed.

Lemma NoDup_chain_split p0 v0 c0 p1 v1 c1 rest :
  NoDup (locs (Bin p0 v0 c0 (Bin p1 v1 c1 rest))) →
  NoDup (locs (Bin p0 v0 c0 Leaf) ++ locs (Bin p1 v1 c1 Leaf)) ∧
  NoDup (locs rest) ∧
  (∀ p, p ∈ locs rest → p ∉ locs (Bin p0 v0 c0 Leaf) ++ locs (Bin p1 v1 c1 Leaf)).
Proof.
  simpl. rewrite !app_nil_r. intros H.
  change (p0 :: locs c0 ++ p1 :: locs c1 ++ locs rest)
    with ((p0 :: locs c0) ++ (p1 :: locs c1) ++ locs rest) in H.
  rewrite app_assoc in H. apply NoDup_app in H as (H1 & H2 & H3).
  split_and!; [done..|]. intros p Hp Hin. by apply (H2 p).
Qed.

Lemma locs_chain_split p0 v0 c0 p1 v1 c1 rest :
  locs (Bin p0 v0 c0 (Bin p1 v1 c1 rest)) =
  (locs (Bin p0 v0 c0 Leaf) ++ locs (Bin p1 v1 c1 Leaf)) ++ locs rest.
Proof. simpl. rewrite !app_nil_r. by rewrite <- !app_assoc. Qed.

Lemma elems_chain_split p0 v0 c0 p1 v1 c1 rest :
  elems (Bin p0 v0 c0 (Bin p1 v1 c1 rest)) =
  (elems (Bin p0 v0 c0 Leaf) ++ elems (Bin p1 v1 c1 Leaf)) ++ elems rest.
Proof. simpl. rewrite !app_nil_r. by rewrite <- !app_assoc. Qed.

Lemma first_after_meld_repr m b p0 v0 c0 p1 v1 c1 :
  repr m (meld_tree b (Bin p0 v0 c0 Leaf) (Bin p1 v1 c1 Leaf)) →
  repr m (first_after_meld b p0 v0 c0 p1 v1 c1).
Proof. destruct b; simpl; naive_solver. Qed.

Lemma first_after_meld_locs b p0 v0 c0 p1 v1 c1 :
  locs (first_after_meld b p0 v0 c0 p1 v1 c1) ⊆
  locs (Bin p0 v0 c0 Leaf) ++ locs (Bin p1 v1 c1 Leaf).
Proof. destruct b; simpl; rewrite ?app_nil_r; set_solver. Qed.

Lemma first_after_meld_NoDup b p0 v0 c0 p1 v1 c1 :
  NoDup (locs (Bin p0 v0 c0 Leaf) ++ locs (Bin p1 v1 c1 Leaf)) →
  NoDup (locs (first_after_meld b p0 v0 c0 p1 v1 c1)).
Proof.
  simpl. rewrite !app_nil_r. intros H.
  apply NoDup_cons in H as [H0 H]. apply NoDup_app in H as (Hc0 & Hd & H).
  apply NoDup_cons in H as [H1 Hc1].
  destruct b; simpl; rewrite ?app_nil_r.
  - apply NoDup_cons. split; [set_solver|]. apply NoDup_app. split_and!; [done| |done].
    intros x Hx Hx'. apply (Hd x Hx). set_solver.
  - apply NoDup_cons. split; [set_solver|]. apply NoDup_cons. split.
    + intros Hx. apply elem_of_app in Hx as [Hx|Hx]; [done|]. apply (Hd p1 Hx). set_solver.
    + apply NoDup_app. split_and!; [done| |done].
      intros x Hx Hx'. apply (Hd x Hx'). set_solver.
Qed.

Lemma NoDup_pair_roots p0 v0 c0 p1 v1 c1 :
  NoDup (locs (Bin p0 v0 c0 Leaf) ++ locs (Bin p1 v1 c1 Leaf)) →
  (p0 ∉ locs c0) ∧ (p0 ∉ locs c1) ∧ (p1 ∉ locs c0) ∧ (p1 ∉ locs c1) ∧ p0 ≠ p1.
Proof.
  simpl. rewrite !app_nil_r. intros Hnd.
  apply NoDup_cons in Hnd as [Hpa Hnd]. apply NoDup_app in Hnd as (Hnca & Hd & Hnd).
  apply NoDup_cons in Hnd as [Hpb Hncb].
  split_and!; [set_solver|set_solver| |set_solver|set_solver].
  intros Hin. apply (Hd p1 Hin). set_solver.
Qed.

Lemma touches_of_eq F s s' : mem s' = mem s → objs s' = objs s → touches F s s'.
Proof. intros Hm Ho. split_and!; [|by rewrite Hm|done]. intros p _. by rewrite Hm. Qed.

Lemma touches_detach p0 n0 n0' p1 n1 n1' s :
  mem s !! p0 = Some n0 → mem s !! p1 = Some n1 →
  touches [p0; p1] s (with_mem (<[p1 := n1']> (<[p0 := n0']> (mem s))) s).
Proof.
  intros H0 H1. split_and!; simpl; [| |done].
  - intros p Hp. rewrite !lookup_insert_ne; [done|set_solver..].
  - rewrite !dom_insert_L. apply elem_of_dom_2 in H0, H1. set_solver.
Qed.

(** The merge pass on a chain without sharing.  When it returns, the chain
    has become one rooted tree with the same nodes and the same values, in
    heap order if the chain was.  It can also throw: then only nodes of the
    chain were rewritten, and the first node still heads a tree. *)
Lemma merge_siblings_spec fuel t s :
  repr (mem s) t → NoDup (locs t) →
  match merge_siblings fuel (ptr t) s with
  | (Val r, s') =>
      ∃ t', ptr t' = r ∧ repr (mem s') t' ∧ rooted t' ∧
            locs t' ≡ₚ locs t ∧ elems t' ≡ₚ elems t ∧
            (∀ lessb, cmp_sound lessb → lt_asym lessb → ho lessb t → ho lessb t') ∧ touches (locs t) s s'
  | (Exn e, s') => e = runtime_error ∧ weak_post t s s'
  | (OutOfFuel, s') => fuel ≤ nodes t ∧ weak_post t s s'
  | (UB, _) => False
  end.
Proof.
  revert t s. induction fuel as [|fuel IH]; intros t s Hr Hn.
  { simpl. split; [lia|]. by apply weak_post_refl. }
  destruct t as [|p0 v0 c0 [|p1 v1 c1 rest]].
  - simpl. exists Leaf. split_and!; done.
  - cbn [ptr merge_siblings]. pose proof Hr as (Hp0 & _).
    rewrite (bind_Val _ _ _ _ _ (get_sibling_Some _ _ _ Hp0)). cbn [sibling ptr].
    exists (Bin p0 v0 c0 Leaf). split_and!; done.
  - pose proof (NoDup_chain_split _ _ _ _ _ _ _ Hn) as (Hn01 & Hnr & Hdisj).
    assert (p0 ≠ p1) as Hne.
    { intros ->. simpl in Hn. apply NoDup_cons in Hn as [Hn _]. set_solver. }
    cbn [ptr]. rewrite (merge_siblings_detach _ _ _ _ _ _ _ _ _ Hr Hne).
    pose proof Hr as (Hp0 & Hc0 & Hp1 & Hc1 & Hrest).
    set (t := Bin p0 v0 c0 (Bin p1 v1 c1 rest)) in *.
    set (ta := Bin p0 v0 c0 Leaf) in *. set (tb := Bin p1 v1 c1 Leaf) in *.
    set (s2 := with_mem _ s).
    assert (touches [p0; p1] s s2) as T02 by (by eapply touches_detach).
    assert (locs t = (locs ta ++ locs tb) ++ locs rest) as Hlocs
      by apply locs_chain_split.
    assert (touches (locs t) s s2) as T02'.
    { eapply touches_mono; [|done]. rewrite Hlocs. subst ta tb. set_solver. }
    assert (repr (mem s2) rest) as Hrr2.
    { eapply touches_repr; [exact T02|done|]. intros p Hp Hin. apply (Hdisj p Hp).
      subst ta tb. set_solver. }
    pose proof (NoDup_pair_roots _ _ _ _ _ _ Hn01) as (H00 & H01 & H10 & H11 & _).
    assert (repr (mem s2) ta) as Hra.
    { subst ta s2. simpl. split_and!; [| |done].
      - rewrite lookup_insert_ne, lookup_insert_eq; done.
      - by apply repr_insert_fresh; [apply repr_insert_fresh|]. }
    assert (repr (mem s2) tb) as Hrb.
    { subst tb s2. simpl. split_and!; [| |done].
      - by rewrite lookup_insert_eq.
      - by apply repr_insert_fresh; [apply repr_insert_fresh|]. }
    pose proof (meld_nodes_trees s2 ta tb Hra Hrb eq_refl eq_refl Hn01) as Hm.
    cbn [ptr ta tb] in Hm.
    destruct (meld_nodes (Some p0) (Some p1) s2) as [[r3|e| |] s3] eqn:Em;
      [| |done|done].
    2:{ (* the comparator throws in the first meld *)
      rewrite (bind_Exn _ _ _ _ _ Em). destruct Hm as (-> & Hmem & Hobjs).
      split; [done|]. exists ta. split_and!; [done| | | |].
      - by rewrite Hmem.
      - apply NoDup_app in Hn01 as (H & _). done.
      - rewrite Hlocs. set_solver.
      - eapply touches_trans; [done|]. by apply touches_of_eq. }
    rewrite (bind_Val _ _ _ _ _ Em).
    destruct Hm as (b & -> & Hr3 & Hho3 & T23).
    set (tab := meld_tree b ta tb) in *.
    assert (locs tab ≡ₚ locs ta ++ locs tb) as Hltab by (by apply locs_meld_tree).
    assert (touches (locs t) s s3) as T03.
    { eapply touches_trans; [done|]. eapply touches_mono; [|done].
      rewrite Hlocs. set_solver. }
    assert (repr (mem s3) rest) as Hrr3.
    { eapply touches_repr; [exact T23|done|]. intros p Hp Hin. by apply (Hdisj p Hp). }
    set (t0 := first_after_meld b p0 v0 c0 p1 v1 c1).
    assert (repr (mem s3) t0) as Hr03 by (by apply first_after_meld_repr).
    assert (NoDup (locs t0)) as Hn0 by (by apply first_after_meld_NoDup).
    assert (locs t0 ⊆ locs ta ++ locs tb) as Hl0 by apply first_after_meld_locs.
    assert (ptr t0 = Some p0) as Hp0' by (by destruct b).
    pose proof (IH rest s3 Hrr3 Hnr) as Hrec.
    assert (∀ s6, touches (locs rest) s3 s6 → weak_post t s s6) as Hweak.
    { intros s6 T36. exists t0. split_and!; [done| | done | |].
      - eapply touches_repr; [exact T36|done|]. intros p Hp Hin. apply (Hdisj p Hin). set_solver.
      - rewrite Hlocs. set_solver.
      - eapply touches_trans; [done|]. eapply touches_mono; [|done].
        rewrite Hlocs. set_solver. }
    destruct (merge_siblings fuel (ptr rest) s3) as [[r6|e| |] s6] eqn:Er; [| |done|].
    2:{ rewrite (bind_Exn _ _ _ _ _ Er). destruct Hrec as (-> & tr & _ & _ & _ & _ & T36).
        split; [done|]. by apply Hweak. }
    2:{ rewrite (bind_OutOfFuel _ _ _ _ Er). destruct Hrec as (Hf & tr & _ & _ & _ & _ & T36).
        split; [simpl; lia|]. by apply Hweak. }
    rewrite (bind_Val _ _ _ _ _ Er).
    destruct Hrec as (tr & <- & Hr6 & Hroot6 & Hl6 & He6 & Hho6 & T36).
    assert (repr (mem s6) tab) as Hrab6.
    { eapply touches_repr; [exact T36|done|]. intros p Hp Hin. apply (Hdisj p Hin).
      by rewrite <- Hltab. }
    assert (NoDup (locs tab ++ locs tr)) as Hn6.
    { rewrite Hltab, Hl6, <- Hlocs. done. }
    assert (rooted tab) as Hrtab by (by apply rooted_meld_tree).
    pose proof (meld_nodes_trees s6 tab tr Hrab6 Hr6 Hrtab Hroot6 Hn6) as Hm2.
    destruct (meld_nodes (ptr tab) (ptr tr) s6) as [[r7|e| |] s7] eqn:Em2;
      [| |done|done].
    2:{ destruct Hm2 as (-> & Hmem & Hobjs). split; [done|].
        destruct (Hweak s6 T36) as (t' & ? & ? & ? & ? & ?).
        exists t'. split_and!; [done| |done|done|].
        - by rewrite Hmem.
        - eapply touches_trans; [done|]. by apply touches_of_eq. }
    destruct Hm2 as (b2 & -> & Hr7 & Hho7 & T67).
    exists (meld_tree b2 tab tr). split_and!; [done|done| | | | |].
    + by apply rooted_meld_tree.
    + rewrite locs_meld_tree by done. by rewrite Hltab, Hl6, Hlocs.
    + rewrite elems_meld_tree by done. unfold tab.
      rewrite elems_meld_tree by done. rewrite He6.
      unfold t. by rewrite elems_chain_split.
    + intros lessb Hs Ha (F0 & Hhc0 & F1 & Hhc1 & Hhr).
      apply Hho7; [done..| |by apply Hho6].
      apply Hho3; done.
    + eapply touches_trans; [done|]. eapply touches_trans.
      * eapply touches_mono; [|done]. rewrite Hlocs. set_solver.
      * eapply touches_mono; [|done]. rewrite Hltab, Hl6, Hlocs. done.
Qed.

(** ** recursive_dup *)

Lemma new_node_eq v c sb s :
  new_node v c sb s =
    (Val (fresh (dom (mem s))),
     with_mem (<[fresh (dom (mem s)) := PqNode v c sb]> (mem s)) s).
Proof. done. Qed.

Lemma fresh_unallocated (m : gmap loc pq_node) : m !! fresh (dom m) = None.
Proof. apply not_elem_of_dom. apply is_fresh. Qed.

(** The copy of one subtree, hung under the new node [p'] by [set]. *)
Lemma dup_subtree fuel (set : loc → option loc → M unit)
    (upd : pq_node → option loc → pq_node) c s p' n :
  dup_ok fuel →
  (∀ s0 n0 o, mem s0 !! p' = Some n0 →
     set p' o s0 = (Val tt, with_mem (<[p' := upd n0 o]> (mem s0)) s0)) →
  upd n None = n →
  repr (mem s) c → nodes c ≤ fuel → mem s !! p' = Some n →
  ∃ c' s',
    (match ptr c with
     | Some cp => (c' <- recursive_dup fuel cp ;; set p' (Some c'))
     | None => ret tt
     end) s = (Val tt, s') ∧
    same_shape c c' ∧ repr (mem s') c' ∧ NoDup (locs c') ∧
    (∀ q, q ∈ locs c' → mem s !! q = None) ∧
    mem s' !! p' = Some (upd n (ptr c')) ∧
    (∀ q, q ∉ p' :: locs c' → mem s' !! q = mem s !! q) ∧
    objs s' = objs s ∧ cst s' = cst s ∧ calls s' = calls s.
Proof.
  intros IH Hset Hupd Hr Hf Hp'.
  destruct c as [|cp cv cc cs].
  { exists Leaf, s. simpl. rewrite Hupd. split_and!; try done.
    - constructor.
    - by intros q ?%elem_of_nil. }
  cbn [ptr].
  destruct (IH (Bin cp cv cc cs) s cp eq_refl Hr Hf)
    as (r & s2 & Hdup & c' & Hptr & Hshape & Hr2 & Hnd & Hfresh & Hold & Ho & Hc & Hcalls).
  assert (p' ∉ locs c') as Hp'c.
  { intros Hin. apply Hfresh in Hin. congruence. }
  assert (mem s2 !! p' = Some n) as Hp2 by (by rewrite Hold).
  exists c', (with_mem (<[p' := upd n (Some r)]> (mem s2)) s2).
  rewrite (bind_Val _ _ _ _ _ Hdup), (Hset _ _ _ Hp2), Hptr.
  split_and!; try done.
  - by apply repr_insert_fresh.
  - simpl. by rewrite lookup_insert_eq.
  - intros q Hq. simpl. rewrite lookup_insert_ne by set_solver. apply Hold. set_solver.
Qed.

Lemma recursive_dup_ok fuel : dup_ok fuel.
Proof.
  induction fuel as [|fuel IH]; intros t s p Hptr Hr Hf.
  { destruct t; simpl in *; [done|lia]. }
  destruct t as [|p0 v c sb]; [done|]. injection Hptr as ->.
  pose proof Hr as (Hp & Hc & Hsb). simpl in Hf.
  cbn [recursive_dup].
  rewrite (bind_Val _ _ _ _ _ (get_val_Some _ _ _ Hp)). cbn [val].
  rewrite (bind_Val _ _ _ _ _ (new_node_eq _ _ _ _)).
  set (p' := fresh (dom (mem s))).
  set (s1 := with_mem (<[p' := PqNode v None None]> (mem s)) s).
  assert (mem s !! p' = None) as Hfr by apply fresh_unallocated.
  assert (p ≠ p') as Hpp' by congruence.
  assert (∀ q, q ≠ p' → mem s1 !! q = mem s !! q) as H1.
  { intros q Hq. simpl. by rewrite lookup_insert_ne. }
  assert (mem s1 !! p' = Some (PqNode v None None)) as Hp1.
  { simpl. by rewrite lookup_insert_eq. }
  assert (∀ u, repr (mem s) u → repr (mem s1) u) as Hlift.
  { intros u Hu. apply repr_insert_fresh; [done|]. intros Hin.
    destruct (repr_dom _ _ _ Hu Hin) as [? ?]. congruence. }
  assert (mem s1 !! p = Some (PqNode v (ptr c) (ptr sb))) as Hps1 by (by rewrite H1).
  rewrite (bind_Val _ _ _ _ _ (get_child_Some _ _ _ Hps1)). cbn [child].
  destruct (dup_subtree fuel set_child (λ n o, PqNode (val n) o (sibling n))
              c s1 p' (PqNode v None None) IH)
    as (c' & s3 & Hrun & Hshc & Hrc & Hndc & Hfrc & Hp3 & Hold3 & Ho3 & Hc3 & Hcl3);
    [by intros; apply set_child_Some|done|by apply Hlift|lia|done|].
  rewrite (bind_Val _ _ _ _ _ Hrun). cbn [val sibling] in Hp3.
  assert (p ∉ p' :: locs c') as Hpc.
  { intros [?|Hin]%elem_of_cons; [done|]. apply Hfrc in Hin. congruence. }
  assert (mem s3 !! p = Some (PqNode v (ptr c) (ptr sb))) as Hps3 by (by rewrite Hold3).
  rewrite (bind_Val _ _ _ _ _ (get_sibling_Some _ _ _ Hps3)). cbn [sibling].
  assert (repr (mem s3) sb) as Hsb3.
  { eapply repr_frame; [apply (Hlift _ Hsb)|]. intros q Hq. apply Hold3.
    intros [->|Hin]%elem_of_cons.
    - destruct (repr_dom _ _ _ Hsb Hq) as [? ?]. congruence.
    - apply Hfrc in Hin. destruct (repr_dom _ _ _ (Hlift _ Hsb) Hq) as [? ?]. congruence. }
  destruct (dup_subtree fuel set_sibling (λ n o, PqNode (val n) (child n) o)
              sb s3 p' (PqNode v (ptr c') None) IH)
    as (sb' & s6 & Hrun6 & Hshs & Hrs & Hnds & Hfrs & Hp6 & Hold6 & Ho6 & Hc6 & Hcl6);
    [by intros; apply set_sibling_Some|done|done|lia|done|].
  rewrite (bind_Val _ _ _ _ _ Hrun6). cbn [val child] in Hp6.
  assert (∀ q, q ∈ locs c' → q ∉ p' :: locs sb') as Hdisj.
  { intros q Hq [->|Hin]%elem_of_cons.
    - apply Hfrc in Hq. congruence.
    - apply Hfrs in Hin. destruct (repr_dom _ _ _ Hrc Hq) as [? ?]. congruence. }
  assert (p' ∉ locs c') as Hp'c by (intros Hin; apply Hfrc in Hin; congruence).
  assert (p' ∉ locs sb') as Hp's by (intros Hin; apply Hfrs in Hin; congruence).
  exists p', s6. split; [done|].
  exists (Bin p' v c' sb'). simpl. split_and!; try done.
  - eapply repr_frame; [done|]. intros q Hq. apply Hold6. by apply Hdisj.
  - apply NoDup_cons. split; [set_solver|]. apply NoDup_app. split_and!; [done| |done].
    intros q Hq Hin. apply (Hdisj q Hq). set_solver.
  - intros q [->|[Hq|Hq]%elem_of_app]%elem_of_cons; [done| |].
    + rewrite <- (H1 q) by (by intros ->). by apply Hfrc.
    + assert (q ∉ p' :: locs c') as Hn.
      { intros Hin. apply (Hdisj q); set_solver. }
      rewrite <- (H1 q) by set_solver. rewrite <- Hold3 by done. by apply Hfrs.
  - intros q Hq. rewrite Hold6, Hold3, H1; set_solver.
  - by rewrite Ho6, Ho3.
  - by rewrite Hc6, Hc3.
  - by rewrite Hcl6, Hcl3.
Qed.

(** ** recursive_del *)

(** One subtree goes: everything below its root, then the root. *)
Lemma del_subtree fuel c s :
  del_ok fuel → repr (mem s) c → NoDup (locs c) → nodes c ≤ fuel →
  ∃ s',
    (match ptr c with
     | Some cp => (recursive_del fuel cp ;; delete_node cp)
     | None => ret tt
     end) s = (Val tt, s') ∧
    del_post (locs c) s s'.
Proof.
  intros IH Hr Hn Hf. destruct c as [|cp cv cc cs].
  { exists s. split; [done|]. split_and!; try done. by intros q ?%elem_of_nil. }
  cbn [ptr].
  destruct (IH cp cv cc cs s Hr Hn Hf) as (s1 & Hdel & Hgone & Hold & Ho & Hc & Hcl).
  pose proof Hr as (Hcp & _).
  assert (cp ∉ locs cc ++ locs cs) as Hcpn.
  { simpl in Hn. by apply NoDup_cons in Hn as [? _]. }
  assert (mem s1 !! cp = Some (PqNode cv (ptr cc) (ptr cs))) as Hcp1 by (by rewrite Hold).
  exists (with_mem (delete cp (mem s1)) s1).
  rewrite (bind_Val _ _ _ _ _ Hdel), (delete_node_Some _ _ _ Hcp1).
  split; [done|]. split_and!; try done.
  - intros q [->|Hq]%elem_of_cons; simpl.
    + by rewrite lookup_delete_eq.
    + rewrite lookup_delete_ne by (by intros ->). by apply Hgone.
  - intros q Hq. simpl. rewrite lookup_delete_ne by set_solver. apply Hold. set_solver.
Qed.

Lemma recursive_del_ok fuel : del_ok fuel.
Proof.
  induction fuel as [|fuel IH]; intros p v c sb s Hr Hn Hf.
  { simpl in Hf. lia. }
  pose proof Hr as (Hp & Hc & Hsb). simpl in Hf, Hn.
  apply NoDup_cons in Hn as [Hpn Hn]. apply NoDup_app in Hn as (Hnc & Hdisj & Hns).
  cbn [recursive_del].
  rewrite (bind_Val _ _ _ _ _ (get_child_Some _ _ _ Hp)). cbn [child].
  destruct (del_subtree fuel c s IH Hc Hnc) as (s1 & Hrun & Hgone & Hold & Ho & Hcs & Hcl);
    [lia|].
  rewrite (bind_Val _ _ _ _ _ Hrun).
  assert (mem s1 !! p = Some (PqNode v (ptr c) (ptr sb))) as Hp1.
  { rewrite Hold; [done|]. set_solver. }
  rewrite (bind_Val _ _ _ _ _ (get_sibling_Some _ _ _ Hp1)). cbn [sibling].
  assert (repr (mem s1) sb) as Hsb1.
  { eapply repr_frame; [done|]. intros q Hq. apply Hold. intros Hin. by apply (Hdisj q). }
  destruct (del_subtree fuel sb s1 IH Hsb1 Hns) as (s2 & Hrun2 & Hgone2 & Hold2 & Ho2 & Hcs2 & Hcl2);
    [lia|].
  exists s2. split; [done|]. split_and!.
  - intros q [Hq|Hq]%elem_of_app; [|by apply Hgone2].
    rewrite Hold2; [by apply Hgone|]. intros Hin. by apply (Hdisj q).
  - intros q Hq. rewrite Hold2, Hold; set_solver.
  - by rewrite Ho2.
  - by rewrite Hcs2.
  - by rewrite Hcl2.
Qed.

(** ** Queues that own a tree *)

Lemma rooted_Bin_inv t p : ptr t = Some p → rooted t → ∃ v c, t = Bin p v c Leaf.
Proof.
  destruct t as [|p' v c sb]; [done|]. unfold rooted. simpl. intros [= ->] ->. eauto.
Qed.

Lemma ptr_None_inv t : ptr t = None → t = Leaf.
Proof. by destruct t. Qed.

Lemma size_incr_wrap n : size_incr (wrap (N.of_nat n)) = wrap (N.of_nat (S n)).
Proof.
  unfold size_incr, wrap. rewrite N.Div0.add_mod_idemp_l. f_equal. lia.
Qed.

Lemma size_decr_wrap n : size_decr (wrap (N.of_nat (S n))) = wrap (N.of_nat n).
Proof.
  unfold size_decr, wrap.
  rewrite <- N.add_sub_assoc by (unfold size_t_mod; lia).
  rewrite N.Div0.add_mod_idemp_l.
  replace (N.of_nat (S n) + (size_t_mod - 1))%N with (N.of_nat n + 1 * size_t_mod)%N
    by (unfold size_t_mod; lia).
  by rewrite N.Div0.mod_add.
Qed.

Lemma size_add_wrap n m :
  size_add (wrap (N.of_nat n)) (wrap (N.of_nat m)) = wrap (N.of_nat (n + m)).
Proof.
  unfold size_add, wrap. rewrite <- N.Div0.add_mod. f_equal. lia.
Qed.


(** ** push *)

(** What [pq_push] does to a queue that owns a tree.  On success the new
    tree has one more node, holding [e]; when the meld throws, the store and
    the queue object are exactly as before the call. *)
Lemma pq_push_spec s q t n e :
  queue_at s q t n →
  match pq_push q e s with
  | (Val _, s') =>
      ∃ t', queue_at s' q t' (size_incr n) ∧
            objs s' = <[q := PriorityQueue (ptr t') (size_incr n)]> (objs s) ∧
            locs t' ≡ₚ locs t ++ [fresh (dom (mem s))] ∧
            elems t' ≡ₚ elems t ++ [e] ∧
            (∀ lessb, cmp_sound lessb → lt_asym lessb → ho lessb t → ho lessb t') ∧
            (∀ p, p ∉ locs t ++ [fresh (dom (mem s))] → mem s' !! p = mem s !! p)
  | (Exn x, s') => x = runtime_error ∧ mem s' = mem s ∧ objs s' = objs s
  | (UB, _) | (OutOfFuel, _) => False
  end.
Proof.
  intros (Hobj & Hr & Hn & Hroot). unfold pq_push.
  rewrite (bind_Val _ _ _ _ _ (new_node_eq _ _ _ _)).
  set (p' := fresh (dom (mem s))).
  set (s1 := with_mem (<[p' := PqNode e None None]> (mem s)) s).
  assert (mem s !! p' = None) as Hfr by apply fresh_unallocated.
  assert (p' ∉ locs t) as Hp't.
  { intros Hin. destruct (repr_dom _ _ _ Hr Hin) as [? ?]. congruence. }
  set (tb := Bin p' e Leaf Leaf).
  assert (repr (mem s1) t) as Hr1 by (by apply repr_insert_fresh).
  assert (repr (mem s1) tb) as Hrb.
  { simpl. split_and!; [|done..]. by rewrite lookup_insert_eq. }
  assert (NoDup (locs t ++ locs tb)) as Hnd.
  { apply NoDup_app. split_and!; [done| |apply NoDup_singleton].
    intros x Hx ->%list_elem_of_singleton. done. }
  assert (objs s1 !! q = Some (PriorityQueue (ptr t) n)) as Hobj1 by done.
  unfold try_catch_runtime_error.
  rewrite (bind_Val _ _ _ _ _ (get_root_Some _ _ _ Hobj1)). cbn [root].
  pose proof (meld_nodes_trees s1 t tb Hr1 Hrb Hroot eq_refl Hnd) as Hm.
  cbn [ptr tb] in Hm.
  destruct (meld_nodes (ptr t) (Some p') s1) as [[r|x| |] s2] eqn:Em; [| |done|done].
  - rewrite (bind_Val _ _ _ _ _ Em).
    destruct Hm as (b & -> & Hr2 & Hho & (Hfrm & Hdom & Hobjs)).
    set (t' := meld_tree b t tb) in *.
    assert (objs s2 !! q = Some (PriorityQueue (ptr t) n)) as Hobj2 by (by rewrite Hobjs).
    rewrite (bind_Val _ _ _ _ _ (set_root_Some _ _ _ _ Hobj2)). cbn [raw_size_].
    set (s3 := with_objs _ s2).
    assert (objs s3 !! q = Some (PriorityQueue (ptr t') n)) as Hobj3.
    { simpl. by rewrite lookup_insert_eq. }
    rewrite (bind_Val _ _ _ _ _ (get_raw_size_Some _ _ _ Hobj3)). cbn [raw_size_].
    rewrite (set_raw_size_Some _ _ _ _ Hobj3). cbn [root].
    assert (locs t' ≡ₚ locs t ++ [p']) as Hl by (by apply locs_meld_tree).
    exists t'. split_and!.
    + split_and!.
      * simpl. by rewrite lookup_insert_eq.
      * done.
      * by rewrite Hl.
      * by apply rooted_meld_tree.
    + simpl. by rewrite insert_insert_eq, Hobjs.
    + done.
    + by apply elems_meld_tree.
    + intros lessb Hs Ha Hh. apply Hho; [done..|]. simpl. split_and!; done.
    + intros p Hp. simpl. rewrite Hfrm by done. simpl.
      rewrite lookup_insert_ne; [done|]. intros ->. set_solver.
  - destruct Hm as (-> & Hmem & Hobjs).
    assert (mem s2 !! p' = Some (PqNode e None None)) as Hp2.
    { rewrite Hmem. simpl. by rewrite lookup_insert_eq. }
    rewrite (bind_Exn _ _ _ _ _ Em).
    rewrite (bind_Val _ _ _ _ _ (delete_node_Some _ _ _ Hp2)).
    unfold throw. split_and!; [done| |done].
    simpl. rewrite Hmem. simpl. by rewrite delete_insert_id.
Qed.

(** ** pop *)

Lemma pq_pop_empty fuel s q o :
  objs s !! q = Some o → root o = None →
  pq_pop fuel q s = (Exn container_is_empty, s).
Proof.
  intros Hq Hr. unfold pq_pop.
  rewrite (bind_Val _ _ _ _ _ (get_root_Some _ _ _ Hq)). by rewrite Hr.
Qed.

(** What [pq_pop] does to a queue that owns a tree, given fuel for its
    size.  It returns with the old root released and its children merged
    into one tree, or it throws.  After [runtime_error] the queue still owns
    a tree made of nodes it owned before, under the same root. *)
Lemma pq_pop_spec fuel s q t n :
  queue_at s q t n → nodes t ≤ fuel →
  match pq_pop fuel q s with
  | (Val _, s') =>
      ∃ rp v c t', t = Bin rp v c Leaf ∧
        queue_at s' q t' (size_decr n) ∧
        objs s' = <[q := PriorityQueue (ptr t') (size_decr n)]> (objs s) ∧
        locs t' ≡ₚ locs c ∧ elems t' ≡ₚ elems c ∧
        (∀ lessb, cmp_sound lessb → lt_asym lessb → ho lessb t → ho lessb t') ∧
        mem s' !! rp = None ∧
        (∀ p, p ∉ locs t → mem s' !! p = mem s !! p)
  | (Exn x, s') =>
      (x = container_is_empty ∧ t = Leaf ∧ s' = s) ∨
      (x = runtime_error ∧ t ≠ Leaf ∧
       ∃ t', queue_at s' q t' n ∧ ptr t' = ptr t ∧ locs t' ⊆ locs t ∧
             touches (locs t) s s')
  | (UB, _) | (OutOfFuel, _) => False
  end.
Proof.
  intros (Hobj & Hr & Hn & Hroot) Hf.
  destruct (ptr t) as [rp|] eqn:Hptr.
  2:{ rewrite (pq_pop_empty fuel s q _ Hobj eq_refl). left.
      split_and!; [done| |done]. by apply ptr_None_inv. }
  destruct (rooted_Bin_inv t rp Hptr Hroot) as (v & c & ->).
  pose proof Hr as (Hrp & Hc & _). cbn [ptr] in *.
  simpl in Hn. rewrite app_nil_r in Hn. apply NoDup_cons in Hn as [Hrpc Hnc].
  simpl in Hf.
  unfold pq_pop.
  rewrite (bind_Val _ _ _ _ _ (get_root_Some _ _ _ Hobj)). cbn [root].
  rewrite (bind_Val _ _ _ _ _ (get_child_Some _ _ _ Hrp)). cbn [child].
  pose proof (compare_siblings_chain fuel c s Hc) as Hcs.
  pose proof (compare_siblings_pure fuel (ptr c) s) as [Hm1 Ho1].
  destruct (compare_siblings fuel (ptr c) s) as [[[]|x| |] s1] eqn:Ecs;
    [| |exfalso; apply Hcs; lia..].
  2:{ rewrite (bind_Exn _ _ _ _ _ Ecs).
      assert (x = runtime_error) as -> by (by eapply compare_siblings_exn).
      right. split_and!; [done..|].
      exists (Bin rp v c Leaf). simpl in Hm1, Ho1.
      split_and!; [|done|done|by apply touches_of_eq].
      unfold queue_at. rewrite Ho1, Hm1. split_and!; try done.
      simpl. rewrite app_nil_r. by apply NoDup_cons. }
  rewrite (bind_Val _ _ _ _ _ Ecs). simpl in Hm1, Ho1.
  assert (mem s1 !! rp = Some (PqNode v (ptr c) None)) as Hrp1 by (by rewrite Hm1).
  rewrite (bind_Val _ _ _ _ _ (get_child_Some _ _ _ Hrp1)). cbn [child].
  assert (repr (mem s1) c) as Hc1 by (by rewrite Hm1).
  pose proof (merge_siblings_spec fuel c s1 Hc1 Hnc) as Hms.
  assert (∀ s2, touches (locs c) s1 s2 → touches (locs (Bin rp v c Leaf)) s s2) as Htch.
  { intros s2 T12. eapply touches_trans; [by apply touches_of_eq|].
    eapply touches_mono; [|done]. simpl. set_solver. }
  destruct (merge_siblings fuel (ptr c) s1) as [[r|x| |] s2] eqn:Ems; [| |done|].
  3:{ destruct Hms as [Hms _]. lia. }
  2:{ rewrite (bind_Exn _ _ _ _ _ Ems).
      destruct Hms as (-> & t0 & Hp0 & Hr0 & Hn0 & Hl0 & T12).
      right. split_and!; [done..|].
      pose proof T12 as (Hfrm & _ & Hobjs).
      exists (Bin rp v t0 Leaf). split_and!; [|done| |by apply Htch].
      - unfold queue_at. rewrite Hobjs, Ho1. split_and!; try done.
        + simpl. rewrite Hfrm, Hp0 by done. done.
        + simpl. rewrite app_nil_r. apply NoDup_cons. split; [set_solver|done].
      - simpl. set_solver. }
  rewrite (bind_Val _ _ _ _ _ Ems).
  destruct Hms as (t' & <- & Hr2 & Hroot2 & Hl2 & He2 & Hho2 & T12).
  pose proof T12 as (Hfrm & _ & Hobjs).
  assert (objs s2 !! q = Some (PriorityQueue (Some rp) n)) as Hobj2
    by (by rewrite Hobjs, Ho1).
  rewrite (bind_Val _ _ _ _ _ (get_root_Some _ _ _ Hobj2)). cbn [root delete_ptr].
  assert (mem s2 !! rp = Some (PqNode v (ptr c) None)) as Hrp2 by (by rewrite Hfrm).
  rewrite (bind_Val _ _ _ _ _ (delete_node_Some _ _ _ Hrp2)).
  set (s3 := with_mem (delete rp (mem s2)) s2).
  assert (objs s3 !! q = Some (PriorityQueue (Some rp) n)) as Hobj3 by done.
  rewrite (bind_Val _ _ _ _ _ (set_root_Some _ _ _ _ Hobj3)). cbn [raw_size_].
  set (s4 := with_objs _ s3).
  assert (objs s4 !! q = Some (PriorityQueue (ptr t') n)) as Hobj4.
  { simpl. by rewrite lookup_insert_eq. }
  rewrite (bind_Val _ _ _ _ _ (get_raw_size_Some _ _ _ Hobj4)). cbn [raw_size_].
  rewrite (set_raw_size_Some _ _ _ _ Hobj4). cbn [root].
  assert (rp ∉ locs t') as Hrpt by (by rewrite Hl2).
  exists rp, v, c, t'. split_and!; try done.
  - unfold queue_at. split_and!; [|by apply repr_delete|by rewrite Hl2|done].
    simpl. by rewrite lookup_insert_eq.
  - simpl. by rewrite insert_insert_eq, Hobjs, Ho1.
  - intros lessb Hs Ha (_ & Hhc & _). by apply Hho2.
  - simpl. by rewrite lookup_delete_eq.
  - intros p Hp. simpl. rewrite lookup_delete_ne by set_solver.
    rewrite Hfrm, Hm1; set_solver.
Qed.

(** ** meld_nodes on arbitrary allocated nodes *)

Lemma get_val_None s p : mem s !! p = None → get_val p s = (UB, s).
Proof. intros H. unfold get_val. apply bind_UB. by apply deref_None. Qed.

Lemma meld_nodes_dangling_l s a b :
  mem s !! a = None → meld_nodes (Some a) (Some b) s = (UB, s).
Proof.
  intros Ha. unfold meld_nodes, try_catch_all.
  by rewrite (bind_UB _ _ _ _ (get_val_None _ _ Ha)).
Qed.

Lemma meld_nodes_dangling_r s a b na :
  mem s !! a = Some na → mem s !! b = None → meld_nodes (Some a) (Some b) s = (UB, s).
Proof.
  intros Ha Hb. unfold meld_nodes, try_catch_all.
  rewrite (bind_Val _ _ _ _ _ (get_val_Some _ _ _ Ha)).
  by rewrite (bind_UB _ _ _ _ (get_val_None _ _ Hb)).
Qed.

(** The comparator is called before anything is written: a throw leaves
    the store alone, also when the two pointers are the same node. *)
Lemma meld_nodes_throw s a b na nb e c' :
  mem s !! a = Some na → mem s !! b = Some nb →
  Compare (cst s) (val na) (val nb) = (inl e, c') →
  meld_nodes (Some a) (Some b) s
    = (Exn runtime_error, after_call s (val na) (val nb) c').
Proof.
  intros Ha Hb Hc. unfold meld_nodes, try_catch_all.
  rewrite (bind_Val _ _ _ _ _ (get_val_Some _ _ _ Ha)).
  rewrite (bind_Val _ _ _ _ _ (get_val_Some _ _ _ Hb)).
  unfold bind at 1. rewrite call_compare_eq, Hc. done.
Qed.

(** A node melded with itself becomes its own child. *)
Lemma meld_nodes_self s a na r c' :
  mem s !! a = Some na →
  Compare (cst s) (val na) (val na) = (inr r, c') →
  meld_nodes (Some a) (Some a) s
    = (Val (Some a),
       with_mem (<[a := PqNode (val na) (Some a) (child na)]> (mem s))
                (after_call s (val na) (val na) c')).
Proof.
  intros Ha Hc. unfold meld_nodes, try_catch_all.
  rewrite (bind_Val _ _ _ _ _ (get_val_Some _ _ _ Ha)).
  rewrite (bind_Val _ _ _ _ _ (get_val_Some _ _ _ Ha)).
  unfold bind at 1. rewrite call_compare_eq, Hc.
  set (s1 := after_call s (val na) (val na) c').
  assert (Ha1 : mem s1 !! a = Some na) by done.
  assert (∀ s2 n2, mem s2 !! a = Some n2 →
            (set_child a (Some a) ;; ret (Some a)) s2
            = (Val (Some a), with_mem (<[a := PqNode (val n2) (Some a) (sibling n2)]> (mem s2)) s2))
    as Hlast.
  { intros s2 n2 H2. by rewrite (bind_Val _ _ _ _ _ (set_child_Some _ _ _ _ H2)). }
  assert (mem (with_mem (<[a := PqNode (val na) (child na) (child na)]> (mem s1)) s1) !! a
          = Some (PqNode (val na) (child na) (child na))) as Ha2.
  { simpl. by rewrite lookup_insert_eq. }
  destruct r.
  - rewrite (bind_Val _ _ _ _ _ (get_child_Some _ _ _ Ha1)).
    rewrite (bind_Val _ _ _ _ _ (set_sibling_Some _ _ _ _ Ha1)).
    rewrite (Hlast _ _ Ha2). simpl. by rewrite insert_insert_eq.
  - rewrite (bind_Val _ _ _ _ _ (get_child_Some _ _ _ Ha1)).
    rewrite (bind_Val _ _ _ _ _ (set_sibling_Some _ _ _ _ Ha1)).
    rewrite (Hlast _ _ Ha2). simpl. by rewrite insert_insert_eq.
Qed.

(** Any exception that leaves [meld_nodes] is [runtime_error], and the
    store is then the one the call started from. *)
Lemma meld_nodes_exn a b s x s' :
  meld_nodes a b s = (Exn x, s') →
  x = runtime_error ∧ mem s' = mem s ∧ objs s' = objs s.
Proof.
  destruct a as [a|]; [|by rewrite meld_nodes_None_l].
  destruct b as [b|]; [|by rewrite meld_nodes_None_r].
  destruct (mem s !! a) as [na|] eqn:Ha; [|by rewrite meld_nodes_dangling_l].
  destruct (mem s !! b) as [nb|] eqn:Hb; [|by erewrite meld_nodes_dangling_r].
  destruct (Compare (cst s) (val na) (val nb)) as [[e|r] c'] eqn:Hc.
  - rewrite (meld_nodes_throw _ _ _ _ _ _ _ Ha Hb Hc). by intros [= <- <-].
  - destruct (decide (a = b)) as [->|Hne].
    + assert (na = nb) as -> by congruence.
      by rewrite (meld_nodes_self _ _ _ _ _ Ha Hc).
    + rewrite (meld_nodes_Some _ _ _ _ _ Hne Ha Hb), Hc. by destruct r.
Qed.

(** ** top, empty, size and default construction *)

Lemma pq_empty_eq s q o :
  objs s !! q = Some o → pq_empty q s = (Val (bool_decide (root o = None)), s).
Proof.
  intros Hq. unfold pq_empty. by rewrite (bind_Val _ _ _ _ _ (get_root_Some _ _ _ Hq)).
Qed.

Lemma pq_top_empty s q o :
  objs s !! q = Some o → root o = None → pq_top q s = (Exn container_is_empty, s).
Proof.
  intros Hq Hr. unfold pq_top.
  rewrite (bind_Val _ _ _ _ _ (pq_empty_eq _ _ _ Hq)).
  by rewrite bool_decide_eq_true_2.
Qed.

Lemma pq_top_root s q o r n :
  objs s !! q = Some o → root o = Some r → mem s !! r = Some n →
  pq_top q s = (Val (val n), s).
Proof.
  intros Hq Hr Hn. unfold pq_top.
  rewrite (bind_Val _ _ _ _ _ (pq_empty_eq _ _ _ Hq)).
  rewrite bool_decide_eq_false_2 by (by rewrite Hr).
  rewrite (bind_Val _ _ _ _ _ (get_root_Some _ _ _ Hq)). rewrite Hr. cbn [deref_ptr].
  by rewrite (bind_Val _ _ _ _ _ (deref_Some _ _ _ Hn)).
Qed.

Lemma pq_default_fresh s q :
  objs s !! q = None →
  pq_default q s = (Val tt, with_objs (<[q := PriorityQueue None 0]> (objs s)) s).
Proof. intros Hq. unfold pq_default, construct. by rewrite Hq. Qed.

(** C7.  [top] and [pop] on an empty queue throw [container_is_empty] and
    leave the whole state as it was; a default-constructed queue is empty
    and has size 0; [top] on a non-empty queue returns the value at the root
    and leaves the whole state as it was. *)
Theorem empty_queue_errors :
  (∀ s q o, objs s !! q = Some o → root o = None →
     pq_top q s = (Exn container_is_empty, s)) ∧
  (∀ fuel s q o, objs s !! q = Some o → root o = None →
     pq_pop fuel q s = (Exn container_is_empty, s)) ∧
  (∀ s q, objs s !! q = None →
     ∃ s', pq_default q s = (Val tt, s') ∧
           pq_empty q s' = (Val true, s') ∧ pq_size q s' = (Val 0%N, s')) ∧
  (∀ s q o r n, objs s !! q = Some o → root o = Some r → mem s !! r = Some n →
     pq_top q s = (Val (val n), s)).
Proof.
  split_and!.
  - apply pq_top_empty.
  - apply pq_pop_empty.
  - intros s q Hq. eexists. split; [by apply pq_default_fresh|].
    set (s' := with_objs _ s).
    assert (objs s' !! q = Some (PriorityQueue None 0)) as Hq'.
    { simpl. by rewrite lookup_insert_eq. }
    split.
    + by rewrite (pq_empty_eq _ _ _ Hq').
    + unfold pq_size. by rewrite (get_raw_size_Some _ _ _ Hq').
  - apply pq_top_root.
Qed.

(** ** The root of a heap-ordered tree *)

Lemma ho_bounded lessb bound t :
  lt_negtrans lessb → ho lessb t →
  Forall (λ x, lessb bound x = false) (chain_vals t) →
  Forall (λ x, lessb bound x = false) (elems t).
Proof.
  intros Hnt. revert bound. induction t as [|p v c IHc sb IHs]; intros bound; simpl; [done|].
  intros (Fc & Hc & Hs) Hb. apply Forall_cons in Hb as [Hv Hb].
  apply Forall_cons. split; [done|]. apply Forall_app. split; [|by apply IHs].
  eapply Forall_impl; [by apply (IHc v)|]. intros x Hx. simpl in Hx. by eapply Hnt.
Qed.

(** In a heap-ordered rooted tree no element compares above the root. *)
Lemma ho_root_max lessb p v c :
  lt_asym lessb → lt_negtrans lessb → ho lessb (Bin p v c Leaf) →
  Forall (λ x, lessb v x = false) (elems (Bin p v c Leaf)).
Proof.
  intros Ha Hnt (Fc & Hc & _). simpl. rewrite app_nil_r.
  assert (lessb v v = false) as Hirr.
  { destruct (lessb v v) eqn:Hvv; [|done]. by rewrite (Ha _ _ Hvv) in Hvv. }
  apply Forall_cons. split; [done|]. by apply ho_bounded.
Qed.

Lemma pq_top_queue_at s q p v c n :
  queue_at s q (Bin p v c Leaf) n → pq_top q s = (Val v, s).
Proof.
  intros (Hobj & (Hp & _) & _). by rewrite (pq_top_root s q _ p _ Hobj eq_refl Hp).
Qed.

Lemma pq_size_queue_at s q t n : queue_at s q t n → pq_size q s = (Val n, s).
Proof. intros (Hobj & _). unfold pq_size. by rewrite (get_raw_size_Some _ _ _ Hobj). Qed.


(** ** merge *)

(** [pq_merge] on two distinct queues that own disjoint trees. *)
Lemma pq_merge_spec s a b ta tb na nb :
  a ≠ b → queue_at s a ta na → queue_at s b tb nb →
  (∀ p, p ∈ locs ta → p ∉ locs tb) →
  match pq_merge a b s with
  | (Val _, s') =>
      ∃ t', queue_at s' a t' (size_add na nb) ∧ queue_at s' b Leaf 0 ∧
            (∀ q, q ≠ a → q ≠ b → objs s' !! q = objs s !! q) ∧
            locs t' ≡ₚ locs ta ++ locs tb ∧ elems t' ≡ₚ elems ta ++ elems tb ∧
            (∀ lessb, cmp_sound lessb → lt_asym lessb → ho lessb ta → ho lessb tb →
               ho lessb t') ∧
            (∀ p, p ∉ locs ta ++ locs tb → mem s' !! p = mem s !! p) ∧
            dom (mem s') = dom (mem s)
  | (Exn x, s') => x = runtime_error ∧ mem s' = mem s ∧ objs s' = objs s
  | (UB, _) | (OutOfFuel, _) => False
  end.
Proof.
  intros Hab (Hoa & Hra & Hna & Hrta) (Hob & Hrb & Hnb & Hrtb) Hdisj.
  unfold pq_merge.
  rewrite (bind_Val _ _ _ _ _ (get_root_Some _ _ _ Hoa)). cbn [root].
  rewrite (bind_Val _ _ _ _ _ (get_root_Some _ _ _ Hob)). cbn [root].
  assert (NoDup (locs ta ++ locs tb)) as Hnd by (by apply NoDup_app).
  pose proof (meld_nodes_trees s ta tb Hra Hrb Hrta Hrtb Hnd) as Hm.
  destruct (meld_nodes (ptr ta) (ptr tb) s) as [[r|x| |] s1] eqn:Em; [| |done|done].
  2:{ by rewrite (bind_Exn _ _ _ _ _ Em). }
  rewrite (bind_Val _ _ _ _ _ Em).
  destruct Hm as (bb & -> & Hr1 & Hho & (Hfrm & Hdom & Hobjs)).
  set (t' := meld_tree bb ta tb) in *.
  assert (objs s1 !! a = Some (PriorityQueue (ptr ta) na)) as Ha1 by (by rewrite Hobjs).
  rewrite (bind_Val _ _ _ _ _ (set_root_Some _ _ _ _ Ha1)). cbn [raw_size_].
  set (s2 := with_objs _ s1).
  assert (objs s2 !! b = Some (PriorityQueue (ptr tb) nb)) as Hb2.
  { simpl. rewrite lookup_insert_ne by done. by rewrite Hobjs. }
  rewrite (bind_Val _ _ _ _ _ (set_root_Some _ _ _ _ Hb2)). cbn [raw_size_].
  set (s3 := with_objs _ s2).
  assert (objs s3 !! a = Some (PriorityQueue (ptr t') na)) as Ha3.
  { simpl. rewrite lookup_insert_ne by done. by rewrite lookup_insert_eq. }
  assert (objs s3 !! b = Some (PriorityQueue None nb)) as Hb3.
  { simpl. by rewrite lookup_insert_eq. }
  rewrite (bind_Val _ _ _ _ _ (get_raw_size_Some _ _ _ Ha3)). cbn [raw_size_].
  rewrite (bind_Val _ _ _ _ _ (get_raw_size_Some _ _ _ Hb3)). cbn [raw_size_].
  rewrite (bind_Val _ _ _ _ _ (set_raw_size_Some _ _ _ _ Ha3)). cbn [root].
  set (s4 := with_objs _ s3).
  assert (objs s4 !! b = Some (PriorityQueue None nb)) as Hb4.
  { simpl. rewrite lookup_insert_ne by done. done. }
  rewrite (set_raw_size_Some _ _ _ _ Hb4). cbn [root].
  exists t'. split_and!.
  - unfold queue_at. split_and!.
    + simpl. rewrite lookup_insert_ne by done. by rewrite lookup_insert_eq.
    + done.
    + unfold t'. by rewrite locs_meld_tree.
    + by apply rooted_meld_tree.
  - unfold queue_at. split_and!; try done; [|constructor].
    simpl. by rewrite lookup_insert_eq.
  - intros q Hqa Hqb. simpl. rewrite !lookup_insert_ne by done. by rewrite Hobjs.
  - by apply locs_meld_tree.
  - by apply elems_meld_tree.
  - done.
  - done.
  - done.
Qed.

(** ** Frames for whole queues *)

Lemma queue_at_frame s s' q t n :
  queue_at s q t n →
  (∀ p, p ∈ locs t → mem s' !! p = mem s !! p) →
  objs s' !! q = objs s !! q →
  queue_at s' q t n.
Proof.
  intros (Hobj & Hr & Hn & Hroot) Hm Ho. unfold queue_at.
  rewrite Ho. split_and!; try done. by eapply repr_frame.
Qed.

(** A tree without sharing has no more nodes than the store. *)
Lemma nodes_le_size (m : gmap loc pq_node) t :
  repr m t → NoDup (locs t) → nodes t ≤ size m.
Proof.
  intros Hr Hn. rewrite <- length_locs, <- size_dom.
  unfold size, set_size. simpl.
  apply submseteq_length, NoDup_submseteq; [done|].
  intros p Hp. apply elem_of_elements, elem_of_dom. by eapply repr_dom.
Qed.

Lemma queue_at_fuel s q t n fuel :
  queue_at s q t n → size (mem s) ≤ fuel → nodes t ≤ fuel.
Proof.
  intros (_ & Hr & Hn & _) Hf. pose proof (nodes_le_size _ _ Hr Hn). lia.
Qed.

(** ** Copy construction and copy assignment *)

Lemma pq_copy_eq fuel this other s :
  pq_copy fuel this other s = (construct this ;; pq_assign fuel this other) s.
Proof. done. Qed.

Lemma construct_fresh s q :
  objs s !! q = None →
  construct q s = (Val tt, with_objs (<[q := PriorityQueue None 0]> (objs s)) s).
Proof. intros Hq. unfold construct. by rewrite Hq. Qed.

(** The guard: equal roots, nothing happens. *)
Lemma pq_assign_same_root fuel s c a oc oa :
  objs s !! c = Some oc → objs s !! a = Some oa → root oc = root oa →
  pq_assign fuel c a s = (Val tt, s).
Proof.
  intros Hc Ha Heq. unfold pq_assign.
  rewrite (bind_Val _ _ _ _ _ (get_root_Some _ _ _ Hc)).
  rewrite (bind_Val _ _ _ _ _ (get_root_Some _ _ _ Ha)).
  by rewrite decide_True.
Qed.

(** The first half of an assignment: the destination's tree is released. *)
Lemma release_tree fuel s t :
  repr (mem s) t → NoDup (locs t) → rooted t → nodes t ≤ fuel →
  ∃ s',
    (match ptr t with
     | Some rp => (recursive_del fuel rp ;; delete_node rp)
     | None => ret tt
     end) s = (Val tt, s') ∧
    del_post (locs t) s s'.
Proof.
  intros Hr Hn _ Hf. apply del_subtree; [apply recursive_del_ok|done..].
Qed.

(** Assignment from a non-empty source onto a distinct destination: the
    destination's old tree is released and it receives a copy of the
    source's tree on addresses of its own. *)
Lemma pq_assign_spec fuel s c a tc ta nc na :
  c ≠ a → queue_at s c tc nc → queue_at s a ta na →
  (∀ p, p ∈ locs tc → p ∉ locs ta) →
  ptr ta ≠ None → nodes tc ≤ fuel → nodes ta ≤ fuel →
  ∃ s' t',
    pq_assign fuel c a s = (Val tt, s') ∧
    queue_at s' c t' na ∧ queue_at s' a ta na ∧
    same_shape ta t' ∧
    (∀ p, p ∈ locs t' → p ∉ locs ta) ∧
    (∀ p, p ∈ locs t' → p ∈ locs tc ∨ mem s !! p = None) ∧
    (∀ q, q ≠ c → objs s' !! q = objs s !! q) ∧
    (∀ p, p ∉ locs tc → p ∉ locs t' → mem s' !! p = mem s !! p) ∧
    cst s' = cst s ∧ calls s' = calls s.
Proof.
  intros Hca (Hoc & Hrc & Hnc & Hrtc) (Hoa & Hra & Hna & Hrta) Hdisj Hne Hfc Hfa.
  destruct (ptr ta) as [op|] eqn:Hpa; [|done].
  assert (ptr tc ≠ Some op) as Hroots.
  { intros Heq. destruct tc as [|pc vc cc sc]; [done|]. injection Heq as ->.
    destruct ta as [|pa' va ca sa]; [done|]. injection Hpa as ->.
    apply (Hdisj op); simpl; set_solver. }
  unfold pq_assign.
  rewrite (bind_Val _ _ _ _ _ (get_root_Some _ _ _ Hoc)). cbn [root].
  rewrite (bind_Val _ _ _ _ _ (get_root_Some _ _ _ Hoa)). cbn [root].
  rewrite decide_False by done.
  rewrite (bind_Val _ _ _ _ _ (get_root_Some _ _ _ Hoc)). cbn [root].
  destruct (release_tree fuel s tc Hrc Hnc Hrtc Hfc)
    as (s1 & Hrel & Hgone & Hold & Ho1 & Hc1 & Hcl1).
  rewrite (bind_Val _ _ _ _ _ Hrel).
  assert (objs s1 !! a = Some (PriorityQueue (Some op) na)) as Hoa1 by (by rewrite Ho1).
  rewrite (bind_Val _ _ _ _ _ (get_root_Some _ _ _ Hoa1)). cbn [root].
  assert (repr (mem s1) ta) as Hra1.
  { eapply repr_frame; [done|]. intros p Hp. apply Hold. intros Hin. by apply (Hdisj p). }
  destruct (recursive_dup_ok fuel ta s1 op Hpa Hra1 Hfa)
    as (d & s2 & Hdup & t' & Hpt' & Hshape & Hr2 & Hnd2 & Hfresh & Hold2 & Ho2 & Hc2 & Hcl2).
  rewrite (bind_Val _ _ _ _ _ Hdup).
  assert (objs s2 !! c = Some (PriorityQueue (ptr tc) nc)) as Hoc2 by (by rewrite Ho2, Ho1).
  rewrite (bind_Val _ _ _ _ _ (set_root_Some _ _ _ _ Hoc2)). cbn [raw_size_].
  set (s3 := with_objs _ s2).
  assert (objs s3 !! a = Some (PriorityQueue (Some op) na)) as Hoa3.
  { simpl. rewrite lookup_insert_ne by done. by rewrite Ho2. }
  rewrite (bind_Val _ _ _ _ _ (get_raw_size_Some _ _ _ Hoa3)). cbn [raw_size_].
  assert (objs s3 !! c = Some (PriorityQueue (Some d) nc)) as Hoc3.
  { simpl. by rewrite lookup_insert_eq. }
  rewrite (set_raw_size_Some _ _ _ _ Hoc3). cbn [root].
  assert (∀ p, p ∈ locs t' → p ∉ locs ta) as Hdisj2.
  { intros p Hp Hin. apply Hfresh in Hp.
    destruct (repr_dom _ _ _ Hra1 Hin) as [? ?]. congruence. }
  eexists _, t'. split; [done|]. split_and!.
  - unfold queue_at. split_and!; [|done|done|].
    + simpl. rewrite lookup_insert_eq. by rewrite Hpt'.
    + destruct ta as [|? ? ? sa]; [done|]. unfold rooted in Hrta. simpl in Hrta. subst sa.
      destruct t' as [|? ? ? sb']; [done|]. simpl in Hshape.
      destruct Hshape as (_ & _ & Hs). by destruct sb'.
  - unfold queue_at. split_and!; [|by eapply repr_frame; [done|]; intros p Hp;
                                     apply Hold2; intros Hin; apply (Hdisj2 p)|done|done].
    simpl. rewrite !lookup_insert_ne by done. by rewrite Ho2, Ho1, Hpa.
  - done.
  - done.
  - intros p Hp. destruct (decide (p ∈ locs tc)) as [|Hn]; [by left|right].
    rewrite <- Hold by done. by apply Hfresh.
  - intros q Hq. simpl. rewrite !lookup_insert_ne by done. by rewrite Ho2, Ho1.
  - intros p Hp1 Hp2. simpl. by rewrite Hold2, Hold.
  - simpl. by rewrite Hc2, Hc1.
  - simpl. by rewrite Hcl2, Hcl1.
Qed.

(** Assignment from an empty source onto a non-empty destination: the
    destination's tree is released, then the null root is dereferenced. *)
Lemma pq_assign_null_source fuel s c a tc nc oa :
  queue_at s c tc nc → ptr tc ≠ None →
  objs s !! a = Some oa → root oa = None → nodes tc ≤ fuel →
  (pq_assign fuel c a s).1 = UB.
Proof.
  intros (Hoc & Hrc & Hnc & Hrtc) Hne Hoa Hra Hf.
  unfold pq_assign.
  rewrite (bind_Val _ _ _ _ _ (get_root_Some _ _ _ Hoc)). cbn [root].
  rewrite (bind_Val _ _ _ _ _ (get_root_Some _ _ _ Hoa)). rewrite Hra.
  rewrite decide_False by done.
  rewrite (bind_Val _ _ _ _ _ (get_root_Some _ _ _ Hoc)). cbn [root].
  destruct (release_tree fuel s tc Hrc Hnc Hrtc Hf)
    as (s1 & Hrel & Hgone & Hold & Ho1 & Hc1 & Hcl1).
  rewrite (bind_Val _ _ _ _ _ Hrel).
  assert (objs s1 !! a = Some oa) as Hoa1 by (by rewrite Ho1).
  rewrite (bind_Val _ _ _ _ _ (get_root_Some _ _ _ Hoa1)). by rewrite Hra.
Qed.

(** Copy construction from a non-empty source. *)
Lemma pq_copy_spec fuel s c a ta na :
  objs s !! c = None → queue_at s a ta na → ptr ta ≠ None → nodes ta ≤ fuel →
  ∃ s' t',
    pq_copy fuel c a s = (Val tt, s') ∧
    c ≠ a ∧ queue_at s' c t' na ∧ queue_at s' a ta na ∧
    same_shape ta t' ∧
    (∀ p, p ∈ locs t' → p ∉ locs ta) ∧
    (∀ p, p ∈ locs t' → mem s !! p = None) ∧
    (∀ q, q ≠ c → objs s' !! q = objs s !! q) ∧
    (∀ p, p ∉ locs t' → mem s' !! p = mem s !! p) ∧
    cst s' = cst s ∧ calls s' = calls s.
Proof.
  intros Hc Ha Hne Hf.
  assert (c ≠ a) as Hca.
  { intros ->. destruct Ha as (Ha & _). congruence. }
  rewrite pq_copy_eq, (bind_Val _ _ _ _ _ (construct_fresh _ _ Hc)).
  set (s1 := with_objs _ s).
  assert (queue_at s1 c Leaf 0) as Hc1.
  { unfold queue_at. split_and!; try done; [|constructor]. simpl. by rewrite lookup_insert_eq. }
  assert (queue_at s1 a ta na) as Ha1.
  { eapply queue_at_frame; [done|done|]. simpl. by rewrite lookup_insert_ne. }
  destruct (pq_assign_spec fuel s1 c a Leaf ta 0 na Hca Hc1 Ha1)
    as (s' & t' & Hrun & Hqc & Hqa & Hsh & Hd & Hfr & Ho & Hm & Hcs & Hcl);
    [by intros p ?%elem_of_nil|done|simpl; lia|done|].
  exists s', t'. split_and!; try done.
  - intros p Hp. destruct (Hfr p Hp) as [Hin|Hn]; [by apply elem_of_nil in Hin|done].
  - intros q Hq. rewrite Ho by done. simpl. by rewrite lookup_insert_ne.
  - intros p Hp. rewrite Hm; [done| |done]. by intros ?%elem_of_nil.
Qed.

(** ** Mutating one queue next to another *)

Lemma pq_push_other s q t n e q' t' n' :
  q ≠ q' → queue_at s q t n → queue_at s q' t' n' →
  (∀ p, p ∈ locs t → p ∉ locs t') →
  queue_at (pq_push q e s).2 q' t' n' ∧
  ∃ t1 n1, queue_at (pq_push q e s).2 q t1 n1 ∧ (∀ p, p ∈ locs t1 → p ∉ locs t').
Proof.
  intros Hqq Hq Hq' Hdisj.
  pose proof (pq_push_spec s q t n e Hq) as H.
  assert (fresh (dom (mem s)) ∉ locs t') as Hfr.
  { intros Hin. destruct Hq' as (_ & Hr' & _).
    destruct (repr_dom _ _ _ Hr' Hin) as [x Hx]. by rewrite fresh_unallocated in Hx. }
  destruct (pq_push q e s) as [[[]|x| |] s1]; [| |done..]; simpl.
  - destruct H as (t1 & Hq1 & Ho & Hl & _ & _ & Hfrm).
    assert (∀ p, p ∈ locs t1 → p ∉ locs t') as Hd1.
    { intros p Hp. rewrite Hl in Hp. apply elem_of_app in Hp as [Hp|Hp]; [by apply Hdisj|].
      apply list_elem_of_singleton in Hp as ->. done. }
    split; [|by eauto].
    eapply queue_at_frame; [done| |].
    + intros p Hp. apply Hfrm. intros Hin. rewrite <- Hl in Hin. by apply (Hd1 p).
    + rewrite Ho. by rewrite lookup_insert_ne.
  - destruct H as (_ & Hm & Ho). split.
    + eapply queue_at_frame; [done| |]; by rewrite ?Hm, ?Ho.
    + exists t, n. split; [|done]. eapply queue_at_frame; [done| |]; by rewrite ?Hm, ?Ho.
Qed.

Lemma pq_pop_other fuel s q t n q' t' n' :
  q ≠ q' → queue_at s q t n → queue_at s q' t' n' →
  (∀ p, p ∈ locs t → p ∉ locs t') → size (mem s) ≤ fuel →
  queue_at (pq_pop fuel q s).2 q' t' n' ∧
  ∃ t1 n1, queue_at (pq_pop fuel q s).2 q t1 n1 ∧ (∀ p, p ∈ locs t1 → p ∉ locs t').
Proof.
  intros Hqq Hq Hq' Hdisj Hf.
  pose proof (pq_pop_spec fuel s q t n Hq (queue_at_fuel _ _ _ _ _ Hq Hf)) as H.
  destruct (pq_pop fuel q s) as [[[]|x| |] s1]; [| |done..]; simpl.
  - destruct H as (rp & v & c & t1 & -> & Hq1 & Ho & Hl & _ & _ & _ & Hfrm).
    assert (∀ p, p ∈ locs t1 → p ∉ locs t') as Hd1.
    { intros p Hp. rewrite Hl in Hp. apply Hdisj. simpl. set_solver. }
    split; [|by eauto].
    eapply queue_at_frame; [done| |].
    + intros p Hp. apply Hfrm. intros Hin. by apply (Hdisj p).
    + rewrite Ho. by rewrite lookup_insert_ne.
  - destruct H as [(_ & _ & ->)|(_ & _ & t1 & Hq1 & _ & Hl & (Hfrm & _ & Ho))].
    + split; [done|]. by eauto.
    + split.
      * eapply queue_at_frame; [done| |by rewrite Ho].
        intros p Hp. apply Hfrm. intros Hin. by apply (Hdisj p).
      * exists t1, n. split; [done|]. intros p Hp. apply Hdisj. by apply Hl.
Qed.

Lemma mutated_other q q' s s' t n t' n' :
  mutated q s s' → q ≠ q' → queue_at s q t n → queue_at s q' t' n' →
  (∀ p, p ∈ locs t → p ∉ locs t') →
  queue_at s' q' t' n' ∧
  ∃ t1 n1, queue_at s' q t1 n1 ∧ (∀ p, p ∈ locs t1 → p ∉ locs t').
Proof.
  intros Hmut Hqq Hq Hq' Hdisj.
  induction Hmut as [s|s s' e Hmut IH|s s' fuel Hmut IH Hf].
  - split; [done|]. by eauto.
  - destruct (IH Hq Hq') as (Hq1' & t1 & n1 & Hq1 & Hd1). by eapply pq_push_other.
  - destruct (IH Hq Hq') as (Hq1' & t1 & n1 & Hq1 & Hd1). by eapply pq_pop_other.
Qed.

Lemma observe_queue_at s s' q t n :
  queue_at s q t n → queue_at s' q t n → observe q s' = observe q s.
Proof.
  intros H H'. unfold observe.
  rewrite (pq_size_queue_at _ _ _ _ H), (pq_size_queue_at _ _ _ _ H'). f_equal.
  destruct H as (Ho & Hr & _), H' as (Ho' & Hr' & _).
  destruct t as [|p v c sb].
  - by rewrite (pq_top_empty _ _ _ Ho), (pq_top_empty _ _ _ Ho').
  - destruct Hr as (Hp & _), Hr' as (Hp' & _).
    by rewrite (pq_top_root _ _ _ p _ Ho eq_refl Hp), (pq_top_root _ _ _ p _ Ho' eq_refl Hp').
Qed.

(** ** Programs over several queues *)

Lemma bind_Val_inv {A B} (m : M A) (k : A → M B) s b s' :
  bind m k s = (Val b, s') → ∃ a s1, m s = (Val a, s1) ∧ k a s1 = (Val b, s').
Proof.
  unfold bind. destruct (m s) as [[a|x| |] s1]; try done. eauto.
Qed.

Lemma ho_parent_child lessb t :
  ho lessb t ↔ Forall (λ vx, lessb vx.1 vx.2 = false) (parent_child t).
Proof.
  induction t as [|p v c IHc sb IHs]; simpl; [by split; [constructor|]|].
  rewrite !Forall_app, Forall_fmap, <- IHc, <- IHs. done.
Qed.

Lemma same_shape_ho lessb t u : same_shape t u → ho lessb t → ho lessb u.
Proof.
  revert u. induction t as [|p v c IHc sb IHs]; intros [|q w d r]; simpl; try done.
  intros (-> & Hc & Hs) (F & Hhc & Hhs). split_and!; eauto.
  clear -F Hc. revert d Hc F. induction c as [|? ? ? _ ? IH]; intros [|? ? ? ?]; simpl; try done.
  intros (-> & _ & Hs) [? ?]%Forall_cons. constructor; eauto.
Qed.

Lemma pq_top_state q s : (pq_top q s).2 = s.
Proof.
  unfold pq_top, pq_empty, get_root, this_obj, bind, ret, throw, deref_ptr, deref, undefined.
  repeat (case_match; simplify_eq/=); done.
Qed.

Lemma pq_size_state q s : (pq_size q s).2 = s.
Proof.
  unfold pq_size, get_raw_size, this_obj, bind, ret.
  by destruct (objs s !! q).
Qed.

Lemma pq_empty_state q s : (pq_empty q s).2 = s.
Proof.
  unfold pq_empty, get_root, this_obj, bind, ret.
  by destruct (objs s !! q).
Qed.

(** One queue gets a new tree made of nodes of the footprint [F] and of
    fresh nodes; nothing allocated outside [F] changes. *)
Lemma owns_ok_update lessb s s' owns q t' (F : list loc) :
  owns_ok lessb s owns →
  (∀ q' t'', q' ≠ q → owns !! q' = Some t'' → ∀ p, p ∈ locs t'' → p ∉ F) →
  queue_ok s' q t' → ho lessb t' →
  (∀ p, p ∈ locs t' → p ∈ F ∨ mem s !! p = None) →
  (∀ p, p ∉ F → is_Some (mem s !! p) → mem s' !! p = mem s !! p) →
  (∀ q', q' ≠ q → objs s' !! q' = objs s !! q') →
  owns_ok lessb s' (<[q := t']> owns).
Proof.
  intros (Hdom & Hq & Hdisj) HF Hq' Hho Hfoot Hframe Hobjs.
  assert (∀ q0 t0 p, owns !! q0 = Some t0 → p ∈ locs t0 → is_Some (mem s !! p)) as Halloc.
  { intros q0 t0 p H0 Hp. destruct (Hq _ _ H0) as [(_ & Hr & _) _]. by eapply repr_dom. }
  assert (∀ q0 t0 p, q0 ≠ q → owns !! q0 = Some t0 → p ∈ locs t' → p ∉ locs t0) as Hnew.
  { intros q0 t0 p Hne H0 Hp Hp0. destruct (Hfoot p Hp) as [HpF|Hnone].
    - by apply (HF q0 t0 Hne H0 p Hp0).
    - destruct (Halloc _ _ _ H0 Hp0) as [? ?]. congruence. }
  split_and!.
  - intros q0. destruct (decide (q0 = q)) as [->|Hne].
    + rewrite lookup_insert_eq. destruct Hq' as (-> & _). split; eauto.
    + rewrite lookup_insert_ne, Hobjs by done. apply Hdom.
  - intros q0 t0. destruct (decide (q0 = q)) as [->|Hne].
    + rewrite lookup_insert_eq. by intros [= <-].
    + rewrite lookup_insert_ne by done. intros H0.
      destruct (Hq _ _ H0) as [Hok Hh]. split; [|done].
      eapply queue_at_frame; [done| |by apply Hobjs].
      intros p Hp. apply Hframe; [by eapply HF|by eapply Halloc].
  - intros q1 q2 t1 t2 Hne H1 H2 p Hp1 Hp2.
    destruct (decide (q1 = q)) as [->|Hn1], (decide (q2 = q)) as [->|Hn2]; [done|..].
    + rewrite lookup_insert_eq in H1. rewrite lookup_insert_ne in H2 by done.
      injection H1 as <-. by apply (Hnew q2 t2 p).
    + rewrite lookup_insert_eq in H2. rewrite lookup_insert_ne in H1 by done.
      injection H2 as <-. by apply (Hnew q1 t1 p).
    + rewrite lookup_insert_ne in H1, H2 by done. by apply (Hdisj q1 q2 t1 t2 Hne H1 H2 p).
Qed.

(** One queue goes away with its tree. *)
Lemma owns_ok_delete lessb s s' owns q t :
  owns_ok lessb s owns → owns !! q = Some t →
  (∀ p, p ∉ locs t → mem s' !! p = mem s !! p) →
  objs s' = delete q (objs s) →
  owns_ok lessb s' (delete q owns).
Proof.
  intros (Hdom & Hq & Hdisj) Hqt Hframe Hobjs. split_and!.
  - intros q0. rewrite Hobjs. destruct (decide (q0 = q)) as [->|Hne].
    + rewrite !lookup_delete_eq. split; by intros [? ?].
    + rewrite !lookup_delete_ne by done. apply Hdom.
  - intros q0 t0. destruct (decide (q0 = q)) as [->|Hne].
    + by rewrite lookup_delete_eq.
    + rewrite lookup_delete_ne by done. intros H0.
      destruct (Hq _ _ H0) as [Hok Hh]. split; [|done].
      eapply queue_at_frame; [done| |].
      * intros p Hp. apply Hframe. intros Hin. by apply (Hdisj q0 q t0 t Hne H0 Hqt p).
      * rewrite Hobjs. by rewrite lookup_delete_ne.
  - intros q1 q2 t1 t2 Hne H1 H2.
    apply lookup_delete_Some in H1 as [_ H1]. apply lookup_delete_Some in H2 as [_ H2].
    by apply (Hdisj q1 q2).
Qed.

(** Calls on an object that is not alive are undefined. *)
Lemma get_root_None s q : objs s !! q = None → get_root q s = (UB, s).
Proof. intros H. unfold get_root, this_obj, bind. by rewrite H. Qed.

Lemma pq_push_dead s q e : objs s !! q = None → (pq_push q e s).1 = UB.
Proof.
  intros H. unfold pq_push.
  rewrite (bind_Val _ _ _ _ _ (new_node_eq _ _ _ _)). unfold try_catch_runtime_error.
  by erewrite bind_UB; [|by apply get_root_None].
Qed.

Lemma pq_pop_dead fuel s q : objs s !! q = None → (pq_pop fuel q s).1 = UB.
Proof.
  intros H. unfold pq_pop. by rewrite (bind_UB _ _ _ _ (get_root_None _ _ H)).
Qed.

Lemma pq_merge_dead_l s a b : objs s !! a = None → (pq_merge a b s).1 = UB.
Proof.
  intros H. unfold pq_merge. by rewrite (bind_UB _ _ _ _ (get_root_None _ _ H)).
Qed.

Lemma pq_merge_dead_r s a b oa :
  objs s !! a = Some oa → objs s !! b = None → (pq_merge a b s).1 = UB.
Proof.
  intros Ha H. unfold pq_merge.
  rewrite (bind_Val _ _ _ _ _ (get_root_Some _ _ _ Ha)).
  by rewrite (bind_UB _ _ _ _ (get_root_None _ _ H)).
Qed.

Lemma pq_assign_dead_l fuel s c a : objs s !! c = None → (pq_assign fuel c a s).1 = UB.
Proof.
  intros H. unfold pq_assign. by rewrite (bind_UB _ _ _ _ (get_root_None _ _ H)).
Qed.

Lemma pq_assign_dead_r fuel s c a oc :
  objs s !! c = Some oc → objs s !! a = None → (pq_assign fuel c a s).1 = UB.
Proof.
  intros Hc H. unfold pq_assign.
  rewrite (bind_Val _ _ _ _ _ (get_root_Some _ _ _ Hc)).
  by rewrite (bind_UB _ _ _ _ (get_root_None _ _ H)).
Qed.

Lemma pq_destroy_dead fuel s q : objs s !! q = None → (pq_destroy fuel q s).1 = UB.
Proof.
  intros H. unfold pq_destroy. by rewrite (bind_UB _ _ _ _ (get_root_None _ _ H)).
Qed.

Lemma construct_live s q o : objs s !! q = Some o → construct q s = (UB, s).
Proof. intros H. unfold construct. by rewrite H. Qed.

(** The destructor releases the whole tree and ends the object's life. *)
Lemma pq_destroy_spec fuel s q t n :
  queue_at s q t n → nodes t ≤ fuel →
  ∃ s', pq_destroy fuel q s = (Val tt, s') ∧
        (∀ p, p ∈ locs t → mem s' !! p = None) ∧
        (∀ p, p ∉ locs t → mem s' !! p = mem s !! p) ∧
        objs s' = delete q (objs s).
Proof.
  intros (Hobj & Hr & Hn & Hroot) Hf. unfold pq_destroy.
  rewrite (bind_Val _ _ _ _ _ (get_root_Some _ _ _ Hobj)). cbn [root].
  destruct (release_tree fuel s t Hr Hn Hroot Hf) as (s1 & Hrel & Hgone & Hold & Ho & _).
  rewrite (bind_Val _ _ _ _ _ Hrel).
  eexists. split; [done|]. simpl. split_and!; [done|done|by rewrite Ho].
Qed.

(** ** Every call that returns keeps the world in order *)

Lemma owns_lookup lessb s owns q o :
  owns_ok lessb s owns → objs s !! q = Some o →
  ∃ t, owns !! q = Some t ∧ queue_ok s q t ∧ ho lessb t.
Proof.
  intros (Hdom & Hq & _) Ho.
  destruct (proj2 (Hdom q) (mk_is_Some _ _ Ho)) as [t Ht].
  exists t. split; [done|]. by apply Hq.
Qed.

Lemma owns_others lessb s owns q t :
  owns_ok lessb s owns → owns !! q = Some t →
  ∀ q' t'', q' ≠ q → owns !! q' = Some t'' → ∀ p, p ∈ locs t'' → p ∉ locs t.
Proof. intros (_ & _ & Hdisj) Hq q' t'' Hne Hq'. by apply (Hdisj q' q). Qed.

Lemma world_default lessb s q s' :
  world_ok lessb s → pq_default q s = (Val tt, s') → world_ok lessb s'.
Proof.
  intros [owns Hw] Hrun. unfold pq_default in Hrun.
  destruct (objs s !! q) as [o|] eqn:Hq.
  { by rewrite (construct_live _ _ _ Hq) in Hrun. }
  rewrite (construct_fresh _ _ Hq) in Hrun. injection Hrun as <-.
  exists (<[q := Leaf]> owns).
  apply (owns_ok_update lessb s _ owns q Leaf []); try done.
  - intros q' t'' _ _ p _. by intros ?%elem_of_nil.
  - unfold queue_ok, queue_at. split_and!; try done; [|constructor].
    simpl. by rewrite lookup_insert_eq.
  - by intros p ?%elem_of_nil.
  - intros q' Hne. simpl. by rewrite lookup_insert_ne.
Qed.

Lemma world_assign lessb fuel s c a s' :
  world_ok lessb s → size (mem s) ≤ fuel →
  pq_assign fuel c a s = (Val tt, s') → world_ok lessb s'.
Proof.
  intros [owns Hw] Hf Hrun.
  destruct (objs s !! c) as [oc|] eqn:Hoc.
  2:{ pose proof (pq_assign_dead_l fuel s c a Hoc) as H. by rewrite Hrun in H. }
  destruct (objs s !! a) as [oa|] eqn:Hoa.
  2:{ pose proof (pq_assign_dead_r fuel s c a oc Hoc Hoa) as H. by rewrite Hrun in H. }
  destruct (owns_lookup _ _ _ _ _ Hw Hoc) as (tc & Htc & Hqc & Hhc).
  destruct (owns_lookup _ _ _ _ _ Hw Hoa) as (ta & Hta & Hqa & Hha).
  destruct (decide (root oc = root oa)) as [Heq|Hne].
  { rewrite (pq_assign_same_root fuel s c a oc oa Hoc Hoa Heq) in Hrun.
    injection Hrun as <-. by exists owns. }
  assert (c ≠ a) as Hca by (intros ->; congruence).
  pose proof Hqc as (Hoc' & _). pose proof Hqa as (Hoa' & _).
  rewrite Hoc in Hoc'. rewrite Hoa in Hoa'. injection Hoc' as ->. injection Hoa' as ->.
  cbn [root] in Hne.
  destruct (ptr ta) as [op|] eqn:Hpa.
  2:{ pose proof (pq_assign_null_source fuel s c a tc _ _ Hqc Hne Hoa eq_refl
                    (queue_at_fuel _ _ _ _ _ Hqc Hf)) as H.
      by rewrite Hrun in H. }
  assert (∀ p, p ∈ locs tc → p ∉ locs ta) as Hdisj.
  { destruct Hw as (_ & _ & Hd). by apply (Hd c a). }
  destruct (pq_assign_spec fuel s c a tc ta _ _ Hca Hqc Hqa Hdisj)
    as (s1 & t' & Hrun1 & Hqc1 & Hqa1 & Hsh & Hd1 & Hfoot & Hobjs & Hframe & _);
    [by rewrite Hpa|by eapply queue_at_fuel|by eapply queue_at_fuel|].
  rewrite Hrun1 in Hrun. injection Hrun as <-.
  exists (<[c := t']> owns).
  apply (owns_ok_update lessb s s1 owns c t' (locs tc)); try done.
  - by eapply owns_others.
  - unfold queue_ok. by rewrite <- (same_shape_nodes _ _ Hsh).
  - by eapply same_shape_ho.
  - intros p Hp Hal. destruct (decide (p ∈ locs t')) as [Hin|Hn]; [|by apply Hframe].
    destruct (Hfoot p Hin) as [?|Hnone]; [done|]. destruct Hal as [? ?]. congruence.
Qed.

Lemma world_copy lessb fuel s c a s' :
  world_ok lessb s → size (mem s) ≤ fuel →
  pq_copy fuel c a s = (Val tt, s') → world_ok lessb s'.
Proof.
  intros Hw Hf Hrun. rewrite pq_copy_eq in Hrun.
  apply bind_Val_inv in Hrun as ([] & s1 & Hc & Hrun).
  assert (mem s1 = mem s) as Hm.
  { unfold construct in Hc. destruct (objs s !! c); [done|]. by injection Hc as <-. }
  eapply world_assign; [|by rewrite Hm|done].
  by eapply world_default.
Qed.

Lemma world_destroy lessb fuel s q s' :
  world_ok lessb s → size (mem s) ≤ fuel →
  pq_destroy fuel q s = (Val tt, s') → world_ok lessb s'.
Proof.
  intros [owns Hw] Hf Hrun.
  destruct (objs s !! q) as [o|] eqn:Hq.
  2:{ pose proof (pq_destroy_dead fuel s q Hq) as H. by rewrite Hrun in H. }
  destruct (owns_lookup _ _ _ _ _ Hw Hq) as (t & Ht & Hqt & Hh).
  destruct (pq_destroy_spec fuel s q t _ Hqt (queue_at_fuel _ _ _ _ _ Hqt Hf))
    as (s1 & Hrun1 & _ & Hframe & Hobjs).
  rewrite Hrun1 in Hrun. injection Hrun as <-.
  exists (delete q owns). by eapply owns_ok_delete.
Qed.

Lemma world_push lessb s q e s' :
  cmp_sound lessb → lt_asym lessb →
  world_ok lessb s → pq_push q e s = (Val tt, s') → world_ok lessb s'.
Proof.
  intros Hs Ha [owns Hw] Hrun.
  destruct (objs s !! q) as [o|] eqn:Hq.
  2:{ pose proof (pq_push_dead s q e Hq) as H. by rewrite Hrun in H. }
  destruct (owns_lookup _ _ _ _ _ Hw Hq) as (t & Ht & Hqt & Hh).
  pose proof (pq_push_spec s q t _ e Hqt) as H. rewrite Hrun in H.
  destruct H as (t' & Hq' & Hobjs & Hl & He & Hho & Hframe).
  exists (<[q := t']> owns).
  apply (owns_ok_update lessb s s' owns q t' (locs t)); try done.
  - by eapply owns_others.
  - unfold queue_ok. rewrite size_incr_wrap in Hq'.
    replace (nodes t') with (S (nodes t)); [done|].
    rewrite <- !length_locs, Hl, length_app. simpl. lia.
  - by apply Hho.
  - intros p Hp. rewrite Hl in Hp. apply elem_of_app in Hp as [?|Hp]; [by left|right].
    apply list_elem_of_singleton in Hp as ->. apply fresh_unallocated.
  - intros p Hp Hal. apply Hframe. intros [?|Hin]%elem_of_app; [done|].
    apply list_elem_of_singleton in Hin as ->.
    destruct Hal as [x Hx]. by rewrite fresh_unallocated in Hx.
  - intros q' Hne. rewrite Hobjs. by rewrite lookup_insert_ne.
Qed.

Lemma world_pop lessb fuel s q s' :
  cmp_sound lessb → lt_asym lessb →
  world_ok lessb s → size (mem s) ≤ fuel →
  pq_pop fuel q s = (Val tt, s') → world_ok lessb s'.
Proof.
  intros Hs Ha [owns Hw] Hf Hrun.
  destruct (objs s !! q) as [o|] eqn:Hq.
  2:{ pose proof (pq_pop_dead fuel s q Hq) as H. by rewrite Hrun in H. }
  destruct (owns_lookup _ _ _ _ _ Hw Hq) as (t & Ht & Hqt & Hh).
  pose proof (pq_pop_spec fuel s q t _ Hqt (queue_at_fuel _ _ _ _ _ Hqt Hf)) as H.
  rewrite Hrun in H.
  destruct H as (rp & v & c & t' & -> & Hq' & Hobjs & Hl & He & Hho & Hgone & Hframe).
  exists (<[q := t']> owns).
  apply (owns_ok_update lessb s s' owns q t' (locs (Bin rp v c Leaf))); try done.
  - by eapply owns_others.
  - unfold queue_ok. simpl in Hq'. rewrite Nat.add_0_r, size_decr_wrap in Hq'.
    replace (nodes t') with (nodes c); [done|]. by rewrite <- !length_locs, Hl.
  - by apply Hho.
  - intros p Hp. left. rewrite Hl in Hp. simpl. set_solver.
  - intros p Hp _. by apply Hframe.
  - intros q' Hne. rewrite Hobjs. by rewrite lookup_insert_ne.
Qed.

(** The tail of [pq_merge] once the meld has returned [r], written for one
    object that plays both parts. *)
Lemma pq_merge_self_tail s a o r :
  objs s !! a = Some o →
  (set_root a r ;;
   set_root a None ;;
   n <- get_raw_size a ;;
   k <- get_raw_size a ;;
   set_raw_size a (size_add n k) ;;
   set_raw_size a 0%N) s
  = (Val tt, with_objs (<[a := PriorityQueue None 0]> (objs s)) s).
Proof.
  intros Ho.
  rewrite (bind_Val _ _ _ _ _ (set_root_Some _ _ _ _ Ho)).
  set (s1 := with_objs _ s).
  assert (objs s1 !! a = Some (PriorityQueue r (raw_size_ o))) as H1.
  { simpl. by rewrite lookup_insert_eq. }
  rewrite (bind_Val _ _ _ _ _ (set_root_Some _ _ _ _ H1)). cbn [raw_size_].
  set (s2 := with_objs _ s1).
  assert (objs s2 !! a = Some (PriorityQueue None (raw_size_ o))) as H2.
  { simpl. by rewrite lookup_insert_eq. }
  rewrite (bind_Val _ _ _ _ _ (get_raw_size_Some _ _ _ H2)).
  rewrite (bind_Val _ _ _ _ _ (get_raw_size_Some _ _ _ H2)). cbn [raw_size_].
  rewrite (bind_Val _ _ _ _ _ (set_raw_size_Some _ _ _ _ H2)). cbn [root].
  set (s3 := with_objs _ s2).
  assert (objs s3 !! a = Some (PriorityQueue None (size_add (raw_size_ o) (raw_size_ o))))
    as H3.
  { simpl. by rewrite lookup_insert_eq. }
  rewrite (set_raw_size_Some _ _ _ _ H3). cbn [root].
  simpl. by rewrite !insert_insert_eq.
Qed.

(** A queue merged into itself ends up empty; its nodes stay allocated. *)
Lemma pq_merge_self s a t n s' :
  queue_at s a t n → pq_merge a a s = (Val tt, s') →
  objs s' = <[a := PriorityQueue None 0]> (objs s) ∧
  (∀ p, p ∉ locs t → mem s' !! p = mem s !! p).
Proof.
  intros (Ho & Hr & _ & Hroot) Hrun. unfold pq_merge in Hrun.
  rewrite (bind_Val _ _ _ _ _ (get_root_Some _ _ _ Ho)) in Hrun.
  rewrite (bind_Val _ _ _ _ _ (get_root_Some _ _ _ Ho)) in Hrun. cbn [root] in Hrun.
  destruct t as [|rp v c sb].
  - cbn [ptr] in Hrun. rewrite (bind_Val _ _ _ _ _ (meld_nodes_None_l _ _)) in Hrun.
    rewrite (pq_merge_self_tail s a _ None Ho) in Hrun. by injection Hrun as <-.
  - cbn [ptr] in Hrun. pose proof Hr as (Hrp & _).
    destruct (Compare (cst s) v v) as [[e|r] c'] eqn:Hc.
    + by rewrite (bind_Exn _ _ _ _ _ (meld_nodes_throw _ _ _ _ _ _ _ Hrp Hrp Hc)) in Hrun.
    + rewrite (bind_Val _ _ _ _ _ (meld_nodes_self _ _ _ _ _ Hrp Hc)) in Hrun.
      erewrite pq_merge_self_tail in Hrun by done.
      injection Hrun as <-. split; [done|].
      intros p Hp. simpl. rewrite lookup_insert_ne; [done|]. intros ->. simpl in Hp. set_solver.
Qed.

Lemma world_merge lessb s a b s' :
  cmp_sound lessb → lt_asym lessb →
  world_ok lessb s → pq_merge a b s = (Val tt, s') → world_ok lessb s'.
Proof.
  intros Hs Hasym [owns Hw] Hrun.
  destruct (objs s !! a) as [oa|] eqn:Hoa.
  2:{ pose proof (pq_merge_dead_l s a b Hoa) as H. by rewrite Hrun in H. }
  destruct (objs s !! b) as [ob|] eqn:Hob.
  2:{ pose proof (pq_merge_dead_r s a b oa Hoa Hob) as H. by rewrite Hrun in H. }
  destruct (owns_lookup _ _ _ _ _ Hw Hoa) as (ta & Hta & Hqa & Hha).
  destruct (owns_lookup _ _ _ _ _ Hw Hob) as (tb & Htb & Hqb & Hhb).
  destruct (decide (a = b)) as [->|Hab].
  - destruct (pq_merge_self s b ta _ s' Hqa Hrun) as (Hobjs & Hframe).
    exists (<[b := Leaf]> owns).
    apply (owns_ok_update lessb s s' owns b Leaf (locs ta)); try done.
    + by eapply owns_others.
    + unfold queue_ok, queue_at. rewrite Hobjs, lookup_insert_eq.
      split_and!; try done. constructor.
    + by intros p ?%elem_of_nil.
    + intros p Hp _. by apply Hframe.
    + intros q' Hne. rewrite Hobjs. by rewrite lookup_insert_ne.
  - assert (∀ p, p ∈ locs ta → p ∉ locs tb) as Hdisj.
    { destruct Hw as (_ & _ & Hd). by apply (Hd a b). }
    pose proof (pq_merge_spec s a b ta tb _ _ Hab Hqa Hqb Hdisj) as H.
    rewrite Hrun in H.
    destruct H as (t' & Hqa' & Hqb' & Hobjs & Hl & He & Hho & Hframe & _).
    set (smid := with_objs (<[b := PriorityQueue None 0]> (objs s)) s).
    assert (owns_ok lessb smid (<[b := Leaf]> owns)) as Hmid.
    { apply (owns_ok_update lessb s smid owns b Leaf (locs tb)); try done.
      - by eapply owns_others.
      - unfold queue_ok, queue_at. split_and!; try done; [|constructor].
        simpl. by rewrite lookup_insert_eq.
      - by intros p ?%elem_of_nil.
      - intros q' Hne. simpl. by rewrite lookup_insert_ne. }
    exists (<[a := t']> (<[b := Leaf]> owns)).
    apply (owns_ok_update lessb smid s' _ a t' (locs ta ++ locs tb)); try done.
    + intros q' t'' Hne Hq' p Hp Hin.
      destruct (decide (q' = b)) as [->|Hnb].
      * rewrite lookup_insert_eq in Hq'. injection Hq' as <-. by apply elem_of_nil in Hp.
      * rewrite lookup_insert_ne in Hq' by done.
        apply elem_of_app in Hin as [Hin|Hin].
        -- by apply (owns_others _ _ _ _ _ Hw Hta q' t'' Hne Hq' p).
        -- by apply (owns_others _ _ _ _ _ Hw Htb q' t'' Hnb Hq' p).
    + unfold queue_ok. unfold queue_ok in Hqa, Hqb.
      rewrite size_add_wrap in Hqa'.
      replace (nodes t') with (nodes ta + nodes tb); [done|].
      by rewrite <- !length_locs, Hl, length_app.
    + by apply Hho.
    + intros p Hp. left. by rewrite <- Hl.
    + intros p Hp _. by apply Hframe.
    + intros q' Hne. destruct (decide (q' = b)) as [->|Hnb].
      * destruct Hqb' as (-> & _). simpl. by rewrite lookup_insert_eq.
      * rewrite Hobjs by done. simpl. by rewrite lookup_insert_ne.
Qed.

(** Every call that returns keeps every live queue in order. *)
Lemma exec_preserves lessb fuel o s a s' :
  cmp_sound lessb → lt_asym lessb →
  world_ok lessb s → size (mem s) ≤ fuel →
  exec fuel o s = (Val a, s') → world_ok lessb s'.
Proof.
  intros Hs Hasym Hw Hf Hrun.
  destruct o; cbn [exec] in Hrun;
    apply bind_Val_inv in Hrun as (r & s1 & Hrun & Hret);
    injection Hret as _ <-.
  - destruct r. by eapply world_default.
  - destruct r. by eapply world_copy.
  - destruct r. by eapply world_assign.
  - destruct r. by eapply world_destroy.
  - pose proof (pq_top_state q s) as H. rewrite Hrun in H. simpl in H. by subst.
  - destruct r. by eapply world_push.
  - destruct r. by eapply world_pop.
  - pose proof (pq_size_state q s) as H. rewrite Hrun in H. simpl in H. by subst.
  - pose proof (pq_empty_state q s) as H. rewrite Hrun in H. simpl in H. by subst.
  - destruct r. by eapply world_merge.
Qed.

Lemma reachable_world_ok lessb s :
  cmp_sound lessb → lt_asym lessb → reachable s → world_ok lessb s.
Proof.
  intros Hs Hasym Hreach. induction Hreach as [c|s fuel o a s' _ IH Hf Hrun].
  - exists ∅. split_and!.
    + intros q. simpl. rewrite !lookup_empty. done.
    + intros q t. by rewrite lookup_empty.
    + intros q1 q2 t1 t2 _. by rewrite lookup_empty.
  - by eapply exec_preserves.
Qed.

(** C2.  [meld_nodes] returns the other input when one is absent.  On two
    distinct nodes it calls the comparator once, on the two values in this
    order; the node the comparator puts below (the first one when it answers
    true) gets the winner's former first child as its sibling and becomes
    the winner's first child; the winner is returned.  Nothing else in the
    store changes. *)
Theorem meld_nodes_correct :
  (∀ b s, meld_nodes None b s = (Val b, s)) ∧
  (∀ a s, meld_nodes a None s = (Val a, s)) ∧
  (∀ s a b na nb r c',
     a ≠ b → mem s !! a = Some na → mem s !! b = Some nb →
     Compare (cst s) (val na) (val nb) = (inr r, c') →
     let w := if r then b else a in
     let l := if r then a else b in
     let nw := if r then nb else na in
     let nl := if r then na else nb in
     ∃ s', meld_nodes (Some a) (Some b) s = (Val (Some w), s') ∧
           calls s' = (val na, val nb) :: calls s ∧ cst s' = c' ∧
           objs s' = objs s ∧
           mem s' !! l = Some (PqNode (val nl) (child nl) (child nw)) ∧
           mem s' !! w = Some (PqNode (val nw) (Some l) (sibling nw)) ∧
           (∀ p, p ≠ a → p ≠ b → mem s' !! p = mem s !! p)).
Proof.
  split_and!.
  - apply meld_nodes_None_l.
  - apply meld_nodes_None_r.
  - intros s a b na nb r c' Hne Ha Hb Hc. cbv zeta.
    rewrite (meld_nodes_Some _ _ _ _ _ Hne Ha Hb), Hc.
    destruct r; eexists; (split; [reflexivity|]); simpl; split_and!; try done.
    + rewrite lookup_insert_ne, lookup_insert_eq; done.
    + by rewrite lookup_insert_eq.
    + intros p Hpa Hpb. by rewrite !lookup_insert_ne.
    + rewrite lookup_insert_ne, lookup_insert_eq; done.
    + by rewrite lookup_insert_eq.
    + intros p Hpa Hpb. by rewrite !lookup_insert_ne.
Qed.


(** ** push, case by case *)

Lemma try_bind_Val {A B} (m : M A) (k : A → M B) h s a s' :
  m s = (Val a, s') →
  try_catch_runtime_error (bind m k) h s = try_catch_runtime_error (k a) h s'.
Proof. intros H. unfold try_catch_runtime_error, bind. by rewrite H. Qed.

Lemma try_bind_Exn {A B} (m : M A) (k : A → M B) h s s' :
  m s = (Exn runtime_error, s') →
  try_catch_runtime_error (bind m k) h s = h s'.
Proof. intros H. unfold try_catch_runtime_error, bind. by rewrite H. Qed.

(** The end of [push] once the meld has returned [w]. *)
Lemma pq_push_tail s q o w h :
  objs s !! q = Some o →
  try_catch_runtime_error
    (set_root q w ;;
     k <- get_raw_size q ;;
     set_raw_size q (size_incr k)) h s
  = (Val tt, with_objs (<[q := PriorityQueue w (size_incr (raw_size_ o))]> (objs s)) s).
Proof.
  intros Ho.
  rewrite (try_bind_Val _ _ _ _ _ _ (set_root_Some _ _ _ _ Ho)).
  set (s1 := with_objs _ s).
  assert (objs s1 !! q = Some (PriorityQueue w (raw_size_ o))) as H1.
  { simpl. by rewrite lookup_insert_eq. }
  rewrite (try_bind_Val _ _ _ _ _ _ (get_raw_size_Some _ _ _ H1)).
  unfold try_catch_runtime_error.
  rewrite (set_raw_size_Some _ _ _ _ H1). cbn [root raw_size_].
  simpl. by rewrite insert_insert_eq.
Qed.

(** What [push] does, told by what the comparator does on the top and the
    new element. *)
Lemma pq_push_outcome s q t n e :
  queue_at s q t n →
  (ptr t = None →
   ∃ s', pq_push q e s = (Val tt, s') ∧
         calls s' = calls s ∧ cst s' = cst s ∧ pq_top q s' = (Val e, s')) ∧
  (∀ p v c sb r c', t = Bin p v c sb → Compare (cst s) v e = (inr r, c') →
   ∃ s', pq_push q e s = (Val tt, s') ∧
         calls s' = (v, e) :: calls s ∧ cst s' = c' ∧
         pq_top q s' = (Val (if r then e else v), s')) ∧
  (∀ p v c sb x c', t = Bin p v c sb → Compare (cst s) v e = (inl x, c') →
   ∃ s', pq_push q e s = (Exn runtime_error, s') ∧
         calls s' = (v, e) :: calls s ∧ cst s' = c').
Proof.
  intros (Hobj & Hr & _). unfold pq_push.
  rewrite (bind_Val _ _ _ _ _ (new_node_eq _ _ _ _)).
  set (p' := fresh (dom (mem s))).
  set (s1 := with_mem (<[p' := PqNode e None None]> (mem s)) s).
  assert (mem s !! p' = None) as Hfr by apply fresh_unallocated.
  assert (objs s1 !! q = Some (PriorityQueue (ptr t) n)) as Hobj1 by done.
  assert (mem s1 !! p' = Some (PqNode e None None)) as Hp'.
  { simpl. by rewrite lookup_insert_eq. }
  rewrite (try_bind_Val _ _ _ _ _ _ (get_root_Some _ _ _ Hobj1)). cbn [root].
  split_and!.
  - intros ->. rewrite (try_bind_Val _ _ _ _ _ _ (meld_nodes_None_l _ _)).
    erewrite pq_push_tail by done. eexists. split; [done|]. split_and!; [done..|].
    apply (pq_top_root _ q (PriorityQueue (Some p') (size_incr n)) p' (PqNode e None None));
      [|done|done].
    simpl. by rewrite lookup_insert_eq.
  - intros p v c sb r c' -> Hc. cbn [ptr]. destruct Hr as (Hrp & _).
    assert (p ≠ p') as Hne by (intros <-; congruence).
    assert (mem s1 !! p = Some (PqNode v (ptr c) (ptr sb))) as Hrp1.
    { simpl. by rewrite lookup_insert_ne. }
    pose proof (meld_nodes_Some s1 p p' _ _ Hne Hrp1 Hp') as Hm.
    cbn [val child sibling] in Hm. change (cst s1) with (cst s) in Hm. rewrite Hc in Hm.
    destruct r; rewrite (try_bind_Val _ _ _ _ _ _ Hm);
      (erewrite pq_push_tail by done); (eexists; split; [done|]);
      (split_and!; [done..|]).
    + apply (pq_top_root _ q (PriorityQueue (Some p') (size_incr n)) p'
               (PqNode e (Some p) None)); [|done|].
      * simpl. by rewrite lookup_insert_eq.
      * simpl. by rewrite lookup_insert_eq.
    + apply (pq_top_root _ q (PriorityQueue (Some p) (size_incr n)) p
               (PqNode v (Some p') (ptr sb))); [|done|].
      * simpl. by rewrite lookup_insert_eq.
      * simpl. by rewrite lookup_insert_eq.
  - intros p v c sb x c' -> Hc. cbn [ptr]. destruct Hr as (Hrp & _).
    assert (p ≠ p') as Hne by (intros <-; congruence).
    assert (mem s1 !! p = Some (PqNode v (ptr c) (ptr sb))) as Hrp1.
    { simpl. by rewrite lookup_insert_ne. }
    pose proof (meld_nodes_Some s1 p p' _ _ Hne Hrp1 Hp') as Hm.
    cbn [val child sibling] in Hm. change (cst s1) with (cst s) in Hm. rewrite Hc in Hm.
    rewrite (try_bind_Exn _ _ _ _ _ Hm).
    assert (mem (after_call s1 v e c') !! p' = Some (PqNode e None None)) as Hp2 by done.
    rewrite (bind_Val _ _ _ _ _ (delete_node_Some _ _ _ Hp2)).
    by eexists.
Qed.

(** C6.  [push e] on a queue that owns a tree.  On success the queue owns a
    tree whose elements are the old ones and [e], and the count is
    incremented.  When the meld throws, [runtime_error] is thrown again, the
    new node is released, and the nodes and the queue objects (root and
    count) are exactly those from before the call.  Which of the two
    happens is decided by the meld of the root with the new node: on an
    empty queue nothing is compared and [push] returns with [e] on top;
    otherwise the comparator is called once, on the top and [e]; if it
    answers, [push] returns and [top] shows [e] or the old top according
    to the answer; if it throws, [push] throws. *)
Theorem push_correct s q t n e :
  queue_at s q t n →
  match pq_push q e s with
  | (Val _, s') =>
      ∃ t', queue_at s' q t' (size_incr n) ∧
            elems t' ≡ₚ e :: elems t ∧ nodes t' = S (nodes t)
  | (Exn x, s') =>
      x = runtime_error ∧ mem s' = mem s ∧ objs s' = objs s ∧
      mem s' !! fresh (dom (mem s)) = None
  | (UB, _) | (OutOfFuel, _) => False
  end ∧
  (ptr t = None →
   ∃ s', pq_push q e s = (Val tt, s') ∧
         calls s' = calls s ∧ cst s' = cst s ∧ pq_top q s' = (Val e, s')) ∧
  (∀ p v c sb r c', t = Bin p v c sb → Compare (cst s) v e = (inr r, c') →
   ∃ s', pq_push q e s = (Val tt, s') ∧
         calls s' = (v, e) :: calls s ∧ cst s' = c' ∧
         pq_top q s' = (Val (if r then e else v), s')) ∧
  (∀ p v c sb x c', t = Bin p v c sb → Compare (cst s) v e = (inl x, c') →
   ∃ s', pq_push q e s = (Exn runtime_error, s') ∧
         calls s' = (v, e) :: calls s ∧ cst s' = c').
Proof.
  intros Hq. split; [|by apply (pq_push_outcome s q t n e)].
  pose proof (pq_push_spec s q t n e Hq) as H.
  destruct (pq_push q e s) as [[[]|x| |] s']; [| |done..].
  - destruct H as (t' & Hq' & _ & Hl & He & _).
    exists t'. split_and!; [done| |].
    + by rewrite He, <- Permutation_cons_append.
    + rewrite <- !length_locs, Hl, length_app. simpl. lia.
  - destruct H as (-> & Hm & Ho). split_and!; [done..|].
    rewrite Hm. apply fresh_unallocated.
Qed.


(** C8.  Copy construction and copy assignment from a non-empty queue give
    the destination a tree with the same values and shape that shares no
    node with the source's tree, and leave the source as it was.  After
    that, whatever pushes and pops are made on one of the two queues,
    whether they return or throw, [top] and [size] of the other one answer
    as before. *)
Theorem copy_independence :
  (∀ fuel s c a ta na,
     objs s !! c = None → queue_at s a ta na → ptr ta ≠ None → nodes ta ≤ fuel →
     ∃ s' t', pq_copy fuel c a s = (Val tt, s') ∧ copied s' c a ta t' na) ∧
  (∀ fuel s c a tc ta nc na,
     c ≠ a → queue_at s c tc nc → queue_at s a ta na →
     (∀ p, p ∈ locs tc → p ∉ locs ta) →
     ptr ta ≠ None → nodes tc ≤ fuel → nodes ta ≤ fuel →
     ∃ s' t', pq_assign fuel c a s = (Val tt, s') ∧ copied s' c a ta t' na) ∧
  (∀ s c a ta t' n s'',
     copied s c a ta t' n →
     (mutated c s s'' → observe a s'' = observe a s) ∧
     (mutated a s s'' → observe c s'' = observe c s)).
Proof.
  split_and!.
  - intros fuel s c a ta na Hc Ha Hne Hf.
    destruct (pq_copy_spec fuel s c a ta na Hc Ha Hne Hf)
      as (s' & t' & Hrun & Hca & Hqc & Hqa & Hsh & Hd & _).
    exists s', t'. split; [done|]. unfold copied. by split_and!.
  - intros fuel s c a tc ta nc na Hca Hc Ha Hdisj Hne Hfc Hfa.
    destruct (pq_assign_spec fuel s c a tc ta nc na Hca Hc Ha Hdisj Hne Hfc Hfa)
      as (s' & t' & Hrun & Hqc & Hqa & Hsh & Hd & _).
    exists s', t'. split; [done|]. unfold copied. by split_and!.
  - intros s c a ta t' n s'' (Hca & Hqc & Hqa & Hsh & Hd). split; intros Hmut.
    + destruct (mutated_other c a s s'' t' n ta n Hmut Hca Hqc Hqa Hd) as (Hqa' & _).
      by eapply observe_queue_at.
    + assert (∀ p, p ∈ locs ta → p ∉ locs t') as Hd' by (intros p Hp Hin; by apply (Hd p)).
      destruct (mutated_other a c s s'' ta n t' n Hmut (not_eq_sym Hca) Hqa Hqc Hd')
        as (Hqc' & _).
      by eapply observe_queue_at.
Qed.

(** C10.  The copy operations dereference the source's root once the
    same-root guard has been passed.  With a non-empty source they return
    and the destination owns a copy of its own; with equal roots the guard
    returns at once, which is what makes copy construction from an empty
    source safe; assignment from an empty source onto a non-empty
    destination runs into the null dereference. *)
Theorem copy_source_precondition :
  (∀ fuel s c a ta na,
     objs s !! c = None → queue_at s a ta na → ptr ta ≠ None → nodes ta ≤ fuel →
     ∃ s' t', pq_copy fuel c a s = (Val tt, s') ∧ copied s' c a ta t' na) ∧
  (∀ fuel s c a tc ta nc na,
     c ≠ a → queue_at s c tc nc → queue_at s a ta na →
     (∀ p, p ∈ locs tc → p ∉ locs ta) →
     ptr ta ≠ None → nodes tc ≤ fuel → nodes ta ≤ fuel →
     ∃ s' t', pq_assign fuel c a s = (Val tt, s') ∧ copied s' c a ta t' na) ∧
  (∀ fuel s c a oc oa,
     objs s !! c = Some oc → objs s !! a = Some oa → root oc = root oa →
     pq_assign fuel c a s = (Val tt, s)) ∧
  (∀ fuel s c a oa,
     objs s !! c = None → objs s !! a = Some oa → root oa = None →
     pq_copy fuel c a s
       = (Val tt, with_objs (<[c := PriorityQueue None 0]> (objs s)) s)) ∧
  (∀ fuel s c a tc nc oa,
     queue_at s c tc nc → ptr tc ≠ None →
     objs s !! a = Some oa → root oa = None → nodes tc ≤ fuel →
     (pq_assign fuel c a s).1 = UB).
Proof.
  split_and!.
  - intros fuel s c a ta na Hc Ha Hne Hf.
    destruct (pq_copy_spec fuel s c a ta na Hc Ha Hne Hf)
      as (s' & t' & Hrun & Hca & Hqc & Hqa & Hsh & Hd & _).
    exists s', t'. split; [done|]. unfold copied. by split_and!.
  - intros fuel s c a tc ta nc na Hca Hc Ha Hdisj Hne Hfc Hfa.
    destruct (pq_assign_spec fuel s c a tc ta nc na Hca Hc Ha Hdisj Hne Hfc Hfa)
      as (s' & t' & Hrun & Hqc & Hqa & Hsh & Hd & _).
    exists s', t'. split; [done|]. unfold copied. by split_and!.
  - apply pq_assign_same_root.
  - intros fuel s c a oa Hc Ha Hr.
    assert (c ≠ a) as Hca by (intros ->; congruence).
    rewrite pq_copy_eq, (bind_Val _ _ _ _ _ (construct_fresh _ _ Hc)).
    eapply pq_assign_same_root.
    + simpl. by rewrite lookup_insert_eq.
    + simpl. by rewrite lookup_insert_ne.
    + by rewrite Hr.
  - apply pq_assign_null_source.
Qed.

(** C4.  Let the comparator answer, whenever it answers, as a strict weak
    order [lessb] does.  In every state reached through calls of the public
    interface that returned, every live queue owns a tree in which no node
    compares below one of its children; and if the queue is not empty,
    [top] returns an element of the queue that compares below none of the
    elements of the queue. *)
Theorem heap_order_invariant lessb s q o :
  cmp_sound lessb → lt_asym lessb → lt_negtrans lessb →
  reachable s → objs s !! q = Some o →
  ∃ t, queue_ok s q t ∧
       elems t = values_reachable (S (nodes t)) (mem s) (root o) ∧
       (∀ v x, (v, x) ∈ parent_child t →
          lessb v x = false ∧ ∀ c0 c1, Compare c0 v x ≠ (inr true, c1)) ∧
       (root o = None ∨
        ∃ v, pq_top q s = (Val v, s) ∧ v ∈ elems t ∧
             ∀ x, x ∈ elems t →
               lessb v x = false ∧ ∀ c0 c1, Compare c0 v x ≠ (inr true, c1)).
Proof.
  intros Hs Hasym Hnt Hreach Ho.
  destruct (reachable_world_ok lessb s Hs Hasym Hreach) as [owns Hw].
  destruct (owns_lookup _ _ _ _ _ Hw Ho) as (t & _ & Hq & Hh).
  assert (∀ v x, lessb v x = false → ∀ c0 c1, Compare c0 v x ≠ (inr true, c1)) as Hcmp.
  { intros v x Hvx c0 c1 Hc. apply Hs in Hc. congruence. }
  pose proof Hq as (Ho' & Hr & Hn & Hroot). rewrite Ho in Ho'. injection Ho' as ->.
  exists t. split_and!; [done| | |].
  - cbn [root]. symmetry. apply values_reachable_repr; [done|lia].
  - intros v x Hin. apply ho_parent_child in Hh.
    rewrite Forall_forall in Hh. specialize (Hh _ Hin). simpl in Hh. split; [done|by apply Hcmp].
  - destruct t as [|p v c sb]; [by left|right].
    unfold rooted in Hroot. simpl in Hroot. subst sb.
    exists v. split_and!.
    + by eapply pq_top_queue_at.
    + simpl. set_solver.
    + intros x Hx. pose proof (ho_root_max lessb p v c Hasym Hnt Hh) as Hmax.
      rewrite Forall_forall in Hmax. specialize (Hmax _ Hx). split; [done|by apply Hcmp].
Qed.

(** The count of every live queue of a reachable state, too, is what the
    size invariant asks for: the number of nodes under the root, modulo
    the range of [size_t]. *)
Lemma size_invariant_reachable lessb s q o :
  cmp_sound lessb → lt_asym lessb → reachable s → objs s !! q = Some o →
  ∃ t, queue_ok s q t ∧
       raw_size_ o = wrap (N.of_nat (count_reachable (S (nodes t)) (mem s) (root o))) ∧
       (root o = None → raw_size_ o = 0%N).
Proof.
  intros Hs Hasym Hreach Ho.
  destruct (reachable_world_ok lessb s Hs Hasym Hreach) as [owns Hw].
  destruct (owns_lookup _ _ _ _ _ Hw Ho) as (t & _ & Hq & _).
  pose proof Hq as (Ho' & Hr & _). rewrite Ho in Ho'. injection Ho' as ->.
  exists t. cbn [root raw_size_]. split_and!; [done| |].
  - by rewrite count_reachable_repr by (done || lia).
  - by intros ->%ptr_None_inv.
Qed.

(** ** Further properties of the code *)

(** X1.  [recursive_del], on a node of a tree without sharing and with fuel
    for its nodes, returns after releasing exactly the nodes below the node
    and to its right: the node itself stays allocated and unchanged, every
    other node of the store is left as it was, and the comparator is not
    called. *)
Theorem recursive_del_releases fuel p v c sb s :
  repr (mem s) (Bin p v c sb) → NoDup (locs (Bin p v c sb)) →
  nodes (Bin p v c sb) ≤ fuel →
  ∃ s', recursive_del fuel p s = (Val tt, s') ∧
        (∀ q, q ∈ locs c ++ locs sb → mem s' !! q = None) ∧
        mem s' !! p = mem s !! p ∧
        (∀ q, q ∉ locs c ++ locs sb → mem s' !! q = mem s !! q) ∧
        objs s' = objs s ∧ calls s' = calls s.
Proof.
  intros Hr Hn Hf.
  destruct (recursive_del_ok fuel p v c sb s Hr Hn Hf) as (s' & Hrun & Hgone & Hold & Ho & _ & Hcl).
  exists s'. split_and!; try done.
  apply Hold. simpl in Hn. by apply NoDup_cons in Hn as [? _].
Qed.

(** X2.  The destructor of a queue that owns a tree, with fuel for its
    nodes, returns after releasing every node of the tree and nothing else;
    the object is gone and no other queue object is touched. *)
Theorem destructor_releases_all fuel s q t n :
  queue_at s q t n → nodes t ≤ fuel →
  ∃ s', pq_destroy fuel q s = (Val tt, s') ∧
        (∀ p, p ∈ locs t → mem s' !! p = None) ∧
        (∀ p, p ∉ locs t → mem s' !! p = mem s !! p) ∧
        objs s' !! q = None ∧
        (∀ q', q' ≠ q → objs s' !! q' = objs s !! q').
Proof.
  intros Hq Hf.
  destruct (pq_destroy_spec fuel s q t n Hq Hf) as (s' & Hrun & Hgone & Hold & Ho).
  exists s'. split_and!; try done.
  - rewrite Ho. apply lookup_delete_eq.
  - intros q' Hne. rewrite Ho. by apply lookup_delete_ne.
Qed.

(** X3.  [pop] on a queue that owns a tree, with fuel for its nodes.  When
    it returns, the element it removed is the one [top] showed, the queue
    owns the other elements, the count is decremented and the old root node
    is released.  It throws [container_is_empty] exactly on the empty
    queue, which it leaves alone.  It never runs into undefined behaviour. *)
Theorem pop_removes_top fuel s q t n :
  queue_at s q t n → nodes t ≤ fuel →
  match pq_pop fuel q s with
  | (Val _, s') =>
      ∃ p v t', ptr t = Some p ∧ pq_top q s = (Val v, s) ∧
                queue_at s' q t' (size_decr n) ∧
                elems t ≡ₚ v :: elems t' ∧ nodes t = S (nodes t') ∧
                mem s' !! p = None
  | (Exn x, s') =>
      (x = container_is_empty ∧ ptr t = None ∧ s' = s) ∨
      (x = runtime_error ∧ ptr t ≠ None)
  | (UB, _) | (OutOfFuel, _) => False
  end.
Proof.
  intros Hq Hf. pose proof (pq_pop_spec fuel s q t n Hq Hf) as H.
  destruct (pq_pop fuel q s) as [[[]|x| |] s']; [| |done..].
  - destruct H as (rp & v & c & t' & -> & Hq' & _ & Hl & He & _ & Hgone & _).
    exists rp, v, t'. split_and!; try done.
    + by eapply pq_top_queue_at.
    + simpl. by rewrite app_nil_r, He.
    + simpl. rewrite Nat.add_0_r. f_equal. by rewrite <- !length_locs, Hl.
  - destruct H as [(-> & -> & ->)|(-> & Hne & _)]; [by left|right].
    split; [done|]. by destruct t.
Qed.

(** X4.  When the validation pass of [pop] throws, [pop] throws
    [runtime_error] and no node and no queue object has changed: the failure
    is caught before the first write. *)
Theorem pop_validation_throw_unchanged fuel s q o rp nr x s1 :
  objs s !! q = Some o → root o = Some rp → mem s !! rp = Some nr →
  compare_siblings fuel (child nr) s = (Exn x, s1) →
  pq_pop fuel q s = (Exn runtime_error, s1) ∧ mem s1 = mem s ∧ objs s1 = objs s.
Proof.
  intros Ho Hr Hrp Hcs. unfold pq_pop.
  rewrite (bind_Val _ _ _ _ _ (get_root_Some _ _ _ Ho)), Hr.
  rewrite (bind_Val _ _ _ _ _ (get_child_Some _ _ _ Hrp)).
  rewrite (bind_Exn _ _ _ _ _ Hcs).
  pose proof (compare_siblings_pure fuel (child nr) s) as [Hm Hob].
  rewrite Hcs in Hm, Hob.
  by rewrite (compare_siblings_exn _ _ _ _ _ Hcs).
Qed.

(** ** Programs that never throw *)

Lemma no_exn_ret {A} (a : A) : no_exn (ret a).
Proof. by intros s x s'. Qed.

Lemma no_exn_val {A} (a : A) (f : state → state) : no_exn (λ s, (Val a, f s)).
Proof. by intros s x s'. Qed.

Lemma no_exn_undefined {A} : no_exn (@undefined A).
Proof. by intros s x s'. Qed.

Lemma no_exn_out_of_fuel {A} : no_exn (@out_of_fuel A).
Proof. by intros s x s'. Qed.

Lemma no_exn_bind {A B} (m : M A) (k : A → M B) :
  no_exn m → (∀ a, no_exn (k a)) → no_exn (bind m k).
Proof.
  intros Hm Hk s x s'. unfold bind.
  destruct (m s) as [[a|y| |] s1] eqn:Em; [apply Hk| |done..].
  by apply Hm in Em.
Qed.

Lemma no_exn_try_catch_all {A} (m h : M A) : no_exn m → no_exn (try_catch_all m h).
Proof.
  intros Hm s x s'. unfold try_catch_all.
  destruct (m s) as [[a|y| |] s1] eqn:Em; [done| |done..].
  by apply Hm in Em.
Qed.

Lemma no_exn_try_catch_runtime_error {A} (m h : M A) :
  no_exn m → no_exn (try_catch_runtime_error m h).
Proof.
  intros Hm s x s'. unfold try_catch_runtime_error.
  destruct (m s) as [[a|y| |] s1] eqn:Em; [done| |done..].
  by apply Hm in Em.
Qed.

Lemma no_exn_deref p : no_exn (deref p).
Proof. intros s x s'. unfold deref. by destruct (mem s !! p). Qed.

Lemma no_exn_this_obj q : no_exn (this_obj q).
Proof. intros s x s'. unfold this_obj. by destruct (objs s !! q). Qed.

Lemma no_exn_new_node v c sb : no_exn (new_node v c sb).
Proof. by intros s x s'. Qed.

Lemma no_exn_construct q : no_exn (construct q).
Proof. intros s x s'. unfold construct. by destruct (objs s !! q). Qed.

Lemma no_exn_call_compare x y : cmp_total → no_exn (call_compare x y).
Proof.
  intros Ht s e s'. rewrite call_compare_eq.
  destruct (Ht (cst s) x y) as (b & c' & ->). done.
Qed.

(** Peels a program apart down to the primitive accesses. *)
Ltac no_exn_step :=
  first
    [ apply no_exn_bind; [|intros ?]
    | apply no_exn_ret
    | apply no_exn_val
    | apply no_exn_undefined
    | apply no_exn_out_of_fuel
    | apply no_exn_deref
    | apply no_exn_this_obj
    | apply no_exn_new_node
    | apply no_exn_construct
    | apply no_exn_try_catch_all
    | apply no_exn_try_catch_runtime_error
    | match goal with
      | |- no_exn (match ?x with _ => _ end) => destruct x
      end ].

Lemma no_exn_get_val p : no_exn (get_val p).
Proof. unfold get_val. repeat no_exn_step. Qed.

Lemma no_exn_get_child p : no_exn (get_child p).
Proof. unfold get_child. repeat no_exn_step. Qed.

Lemma no_exn_get_sibling p : no_exn (get_sibling p).
Proof. unfold get_sibling. repeat no_exn_step. Qed.

Lemma no_exn_set_child p c : no_exn (set_child p c).
Proof. unfold set_child. repeat no_exn_step. Qed.

Lemma no_exn_set_sibling p c : no_exn (set_sibling p c).
Proof. unfold set_sibling. repeat no_exn_step. Qed.

Lemma no_exn_delete_node p : no_exn (delete_node p).
Proof. unfold delete_node. repeat no_exn_step. Qed.

Lemma no_exn_delete_ptr p : no_exn (delete_ptr p).
Proof. unfold delete_ptr. destruct p; [apply no_exn_delete_node|apply no_exn_ret]. Qed.

Lemma no_exn_get_root q : no_exn (get_root q).
Proof. unfold get_root. repeat no_exn_step. Qed.

Lemma no_exn_get_raw_size q : no_exn (get_raw_size q).
Proof. unfold get_raw_size. repeat no_exn_step. Qed.

Lemma no_exn_set_root q r : no_exn (set_root q r).
Proof. unfold set_root. repeat no_exn_step. Qed.

Lemma no_exn_set_raw_size q n : no_exn (set_raw_size q n).
Proof. unfold set_raw_size. repeat no_exn_step. Qed.

Ltac no_exn_solve1 :=
  first
    [ no_exn_step
    | apply no_exn_get_val | apply no_exn_get_child | apply no_exn_get_sibling
    | apply no_exn_set_child | apply no_exn_set_sibling | apply no_exn_delete_node
    | apply no_exn_delete_ptr
    | apply no_exn_get_root | apply no_exn_get_raw_size
    | apply no_exn_set_root | apply no_exn_set_raw_size
    | by apply no_exn_call_compare
    | done ].

Ltac no_exn_solve := repeat no_exn_solve1.

Lemma no_exn_recursive_dup fuel p : no_exn (recursive_dup fuel p).
Proof.
  revert p. induction fuel as [|fuel IH]; intros p; cbn [recursive_dup]; no_exn_solve.
Qed.

Lemma no_exn_recursive_del fuel p : no_exn (recursive_del fuel p).
Proof.
  revert p. induction fuel as [|fuel IH]; intros p; cbn [recursive_del]; no_exn_solve.
Qed.

Lemma no_exn_meld_nodes a b : cmp_total → no_exn (meld_nodes a b).
Proof. intros Ht. unfold meld_nodes. no_exn_solve. Qed.

Lemma no_exn_compare_siblings_loop fuel b :
  cmp_total → no_exn (compare_siblings_loop fuel b).
Proof.
  intros Ht. revert b. induction fuel as [|fuel IH]; intros b;
    cbn [compare_siblings_loop]; no_exn_solve.
Qed.

Lemma no_exn_compare_siblings fuel b : cmp_total → no_exn (compare_siblings fuel b).
Proof.
  intros Ht. unfold compare_siblings. no_exn_solve.
  by apply no_exn_compare_siblings_loop.
Qed.

Lemma no_exn_merge_siblings fuel b : cmp_total → no_exn (merge_siblings fuel b).
Proof.
  intros Ht. revert b. induction fuel as [|fuel IH]; intros b;
    cbn [merge_siblings]; no_exn_solve; by apply no_exn_meld_nodes.
Qed.

Lemma no_exn_pq_push q e : cmp_total → no_exn (pq_push q e).
Proof. intros Ht. unfold pq_push. no_exn_solve. by apply no_exn_meld_nodes. Qed.

Lemma no_exn_pq_merge a b : cmp_total → no_exn (pq_merge a b).
Proof. intros Ht. unfold pq_merge. no_exn_solve. by apply no_exn_meld_nodes. Qed.

Lemma pq_pop_exn_total fuel q s x s' :
  cmp_total → pq_pop fuel q s = (Exn x, s') →
  x = container_is_empty ∧ s' = s ∧ ∃ o, objs s !! q = Some o ∧ root o = None.
Proof.
  intros Ht. unfold pq_pop.
  destruct (objs s !! q) as [o|] eqn:Ho.
  2:{ by rewrite (bind_UB _ _ _ _ (get_root_None _ _ Ho)). }
  rewrite (bind_Val _ _ _ _ _ (get_root_Some _ _ _ Ho)).
  destruct (root o) as [rp|] eqn:Hr.
  - intros Hrun. exfalso. revert Hrun.
    match goal with |- ?m s = _ → _ => assert (no_exn m) as Hn end.
    { repeat first [ by apply no_exn_compare_siblings
                   | by apply no_exn_merge_siblings
                   | no_exn_solve1 ]. }
    apply Hn.
  - unfold throw. intros [= <- <-]. eauto.
Qed.

(** X5.  With a comparator that never throws, [push] and [merge] never
    throw, and [pop] throws only [container_is_empty], on an empty queue and
    without changing anything: [runtime_error] comes from the comparator
    alone. *)
Theorem total_comparator_no_runtime_error :
  cmp_total →
  (∀ q e s x s', pq_push q e s ≠ (Exn x, s')) ∧
  (∀ a b s x s', pq_merge a b s ≠ (Exn x, s')) ∧
  (∀ fuel q s x s', pq_pop fuel q s = (Exn x, s') →
     x = container_is_empty ∧ s' = s ∧ ∃ o, objs s !! q = Some o ∧ root o = None).
Proof.
  intros Ht. split_and!.
  - intros q e. by apply no_exn_pq_push.
  - intros a b. by apply no_exn_pq_merge.
  - intros fuel q s x s'. by apply pq_pop_exn_total.
Qed.

(** Popping a heap-ordered queue to the end. *)
Lemma pop_all_spec lessb fuel k s q t n :
  cmp_total → cmp_sound lessb → lt_asym lessb → lt_negtrans lessb →
  queue_at s q t n → ho lessb t → nodes t ≤ fuel → nodes t ≤ k →
  pop_all k fuel q s ≡ₚ elems t ∧
  StronglySorted (λ a b, lessb a b = false) (pop_all k fuel q s).
Proof.
  intros Ht Hs Hasym Hnt. revert s t n.
  induction k as [|k IH]; intros s t n Hq Hh Hf Hk.
  { destruct t; simpl in *; [|lia]. split; [done|constructor]. }
  destruct t as [|p v c sb].
  { cbn [pop_all]. destruct Hq as (Ho & _).
    rewrite (pq_top_empty _ _ _ Ho eq_refl). split; [done|constructor]. }
  pose proof Hq as (_ & _ & _ & Hroot). unfold rooted in Hroot. simpl in Hroot. subst sb.
  cbn [pop_all]. rewrite (pq_top_queue_at _ _ _ _ _ _ Hq).
  pose proof (pq_pop_spec fuel s q _ n Hq Hf) as Hpop.
  destruct (pq_pop fuel q s) as [[[]|x| |] s'] eqn:Erun; [| |done..].
  2:{ destruct (pq_pop_exn_total _ _ _ _ _ Ht Erun) as (_ & _ & o & Ho & Hr).
      destruct Hq as (Ho' & _). rewrite Ho in Ho'. injection Ho' as ->. done. }
  destruct Hpop as (rp & v' & c' & t' & [= <- <- <-] & Hq' & _ & Hl & He & Hho & _).
  assert (nodes t' = nodes c) as Hnodes by (by rewrite <- !length_locs, Hl).
  simpl in Hf, Hk.
  destruct (IH s' t' _ Hq') as (Hperm & Hsorted); [by apply Hho|lia..|].
  pose proof (ho_root_max lessb p v c Hasym Hnt Hh) as Hmax.
  simpl in Hmax. rewrite app_nil_r in Hmax. apply Forall_cons in Hmax as [_ Hmax].
  split.
  - simpl. rewrite app_nil_r. by rewrite Hperm, He.
  - constructor; [done|]. by rewrite Hperm, He.
Qed.

(** X6.  Heap sort.  Let the comparator never throw and answer as a strict
    weak order.  Taking the elements off a heap-ordered queue with [top] and
    [pop] until it is empty gives every element of the queue exactly once,
    and no element comes before one it compares below. *)
Theorem pop_all_sorted lessb fuel k s q t n :
  cmp_total → cmp_sound lessb → lt_asym lessb → lt_negtrans lessb →
  queue_at s q t n → ho lessb t → nodes t ≤ fuel → nodes t ≤ k →
  pop_all k fuel q s ≡ₚ elems t ∧
  StronglySorted (λ a b, lessb a b = false) (pop_all k fuel q s).
Proof. apply pop_all_spec. Qed.

(** ** Programs that never call the comparator *)

Lemma quiet_ret {A} (a : A) : quiet (ret a).
Proof. by intros s. Qed.

Lemma quiet_throw {A} (x : exn E) : quiet (@throw A x).
Proof. by intros s. Qed.

Lemma quiet_undefined {A} : quiet (@undefined A).
Proof. by intros s. Qed.

Lemma quiet_out_of_fuel {A} : quiet (@out_of_fuel A).
Proof. by intros s. Qed.

Lemma quiet_mem {A} (a : A) (f : state → gmap loc pq_node) :
  quiet (λ s, (Val a, with_mem (f s) s)).
Proof. by intros s. Qed.

Lemma quiet_objs {A} (a : A) (f : state → gmap qid priority_queue) :
  quiet (λ s, (Val a, with_objs (f s) s)).
Proof. by intros s. Qed.

Lemma quiet_bind {A B} (m : M A) (k : A → M B) :
  quiet m → (∀ a, quiet (k a)) → quiet (bind m k).
Proof.
  intros Hm Hk s. unfold bind. specialize (Hm s).
  destruct (m s) as [[a|y| |] s1]; [|done..].
  simpl in Hm. destruct (Hk a s1) as [-> ->]. done.
Qed.

Lemma quiet_deref p : quiet (deref p).
Proof. intros s. unfold deref. by destruct (mem s !! p). Qed.

Lemma quiet_this_obj q : quiet (this_obj q).
Proof. intros s. unfold this_obj. by destruct (objs s !! q). Qed.

Lemma quiet_new_node v c sb : quiet (new_node v c sb).
Proof. by intros s. Qed.

Lemma quiet_construct q : quiet (construct q).
Proof. intros s. unfold construct. by destruct (objs s !! q). Qed.

Ltac quiet_step :=
  first
    [ apply quiet_bind; [|intros ?]
    | apply quiet_ret
    | apply quiet_throw
    | apply quiet_undefined
    | apply quiet_out_of_fuel
    | apply quiet_mem
    | apply quiet_objs
    | apply quiet_deref
    | apply quiet_this_obj
    | apply quiet_new_node
    | apply quiet_construct
    | match goal with
      | |- quiet (match ?x with _ => _ end) => destruct x
      end
    | done ].

Lemma quiet_get_val p : quiet (get_val p).
Proof. unfold get_val. repeat quiet_step. Qed.

Lemma quiet_get_child p : quiet (get_child p).
Proof. unfold get_child. repeat quiet_step. Qed.

Lemma quiet_get_sibling p : quiet (get_sibling p).
Proof. unfold get_sibling. repeat quiet_step. Qed.

Lemma quiet_set_child p c : quiet (set_child p c).
Proof. unfold set_child. repeat quiet_step. Qed.

Lemma quiet_set_sibling p c : quiet (set_sibling p c).
Proof. unfold set_sibling. repeat quiet_step. Qed.

Lemma quiet_delete_node p : quiet (delete_node p).
Proof. unfold delete_node. repeat quiet_step. Qed.

Lemma quiet_delete_ptr p : quiet (delete_ptr p).
Proof. unfold delete_ptr. destruct p; [apply quiet_delete_node|apply quiet_ret]. Qed.

Lemma quiet_get_root q : quiet (get_root q).
Proof. unfold get_root. repeat quiet_step. Qed.

Lemma quiet_get_raw_size q : quiet (get_raw_size q).
Proof. unfold get_raw_size. repeat quiet_step. Qed.

Lemma quiet_set_root q r : quiet (set_root q r).
Proof. unfold set_root. repeat quiet_step. Qed.

Lemma quiet_set_raw_size q n : quiet (set_raw_size q n).
Proof. unfold set_raw_size. repeat quiet_step. Qed.

Ltac quiet_solve1 :=
  first
    [ apply quiet_get_val | apply quiet_get_child | apply quiet_get_sibling
    | apply quiet_set_child | apply quiet_set_sibling | apply quiet_delete_node
    | apply quiet_delete_ptr
    | apply quiet_get_root | apply quiet_get_raw_size
    | apply quiet_set_root | apply quiet_set_raw_size
    | quiet_step ].

Ltac quiet_solve := repeat quiet_solve1.

Lemma quiet_recursive_dup fuel p : quiet (recursive_dup fuel p).
Proof.
  revert p. induction fuel as [|fuel IH]; intros p; cbn [recursive_dup]; quiet_solve.
Qed.

Lemma quiet_recursive_del fuel p : quiet (recursive_del fuel p).
Proof.
  revert p. induction fuel as [|fuel IH]; intros p; cbn [recursive_del]; quiet_solve.
Qed.

Lemma quiet_pq_assign fuel c a : quiet (pq_assign fuel c a).
Proof.
  unfold pq_assign.
  repeat first [ apply quiet_recursive_dup | apply quiet_recursive_del | quiet_solve1 ].
Qed.

Lemma quiet_pq_copy fuel c a : quiet (pq_copy fuel c a).
Proof.
  unfold pq_copy.
  repeat first [ apply quiet_recursive_dup | apply quiet_recursive_del | quiet_solve1 ].
Qed.

Lemma quiet_pq_destroy fuel q : quiet (pq_destroy fuel q).
Proof.
  unfold pq_destroy.
  repeat first [ apply quiet_recursive_del | quiet_solve1 ].
Qed.

Lemma quiet_pq_top q : quiet (pq_top q).
Proof. unfold pq_top, pq_empty, deref_ptr. quiet_solve. Qed.

(** X7.  Copy construction, copy assignment, the destructor and default
    construction never call the comparator, whatever the state, the fuel
    and the outcome: the comparator's call log and its own state are the
    same after the call as before. *)
Theorem copying_never_compares :
  (∀ fuel c a, quiet (pq_copy fuel c a)) ∧
  (∀ fuel c a, quiet (pq_assign fuel c a)) ∧
  (∀ fuel q, quiet (pq_destroy fuel q)) ∧
  (∀ q, quiet (pq_default q)).
Proof.
  split_and!.
  - apply quiet_pq_copy.
  - apply quiet_pq_assign.
  - apply quiet_pq_destroy.
  - intros q. apply quiet_construct.
Qed.

(** ** Counting comparator calls *)

Lemma quiet_calls {A} (m : M A) s : quiet m → calls (m s).2 = calls s.
Proof. intros H. by destruct (H s). Qed.

Lemma length_adjacent l : length (adjacent l) = pred (length l).
Proof.
  induction l as [|x [|y l] IH]; [done..|].
  change (adjacent (x :: y :: l)) with ((x, y) :: adjacent (y :: l)).
  simpl in *. by rewrite IH.
Qed.

(** [meld_nodes] calls the comparator once when both nodes are there, on
    their values in the order of the arguments, and not at all otherwise. *)
Lemma meld_nodes_calls a b s :
  calls (meld_nodes a b s).2 =
    match a, b with
    | Some pa, Some pb =>
        match mem s !! pa, mem s !! pb with
        | Some na, Some nb => (val na, val nb) :: calls s
        | _, _ => calls s
        end
    | _, _ => calls s
    end.
Proof.
  destruct a as [a|]; [|by rewrite meld_nodes_None_l].
  destruct b as [b|]; [|by rewrite meld_nodes_None_r].
  destruct (mem s !! a) as [na|] eqn:Ha.
  2:{ rewrite meld_nodes_dangling_l by done. by destruct (mem s !! b). }
  destruct (mem s !! b) as [nb|] eqn:Hb; [|by erewrite meld_nodes_dangling_r].
  destruct (Compare (cst s) (val na) (val nb)) as [[e|r] c'] eqn:Hc.
  - by rewrite (meld_nodes_throw _ _ _ _ _ _ _ Ha Hb Hc).
  - destruct (decide (a = b)) as [->|Hne].
    + assert (na = nb) as -> by congruence.
      by rewrite (meld_nodes_self _ _ _ _ _ Ha Hc).
    + rewrite (meld_nodes_Some _ _ _ _ _ Hne Ha Hb), Hc. by destruct r.
Qed.

Lemma compare_siblings_loop_calls fuel p v c sb s :
  cmp_total → repr (mem s) (Bin p v c sb) → nodes (Bin p v c sb) ≤ fuel →
  ∃ s', compare_siblings_loop fuel p s = (Val tt, s') ∧
        calls s' = rev (adjacent (chain_vals (Bin p v c sb))) ++ calls s ∧
        mem s' = mem s ∧ objs s' = objs s.
Proof.
  intros Ht. revert p v c sb s. induction fuel as [|fuel IH]; intros p v c sb s Hr Hf.
  { simpl in Hf. lia. }
  rewrite compare_siblings_loop_S.
  destruct Hr as (Hp & Hc & Hs). rewrite Hp. cbn [sibling val].
  destruct sb as [|p1 v1 c1 s1]; [by exists s|]. cbn [ptr].
  pose proof Hs as (Hp1 & _). rewrite Hp1. cbn [val].
  destruct (Ht (cst s) v v1) as (r & c' & ->).
  destruct (IH p1 v1 c1 s1 (after_call s v v1 c')) as (s' & Hrun & Hcalls & Hm & Ho);
    [done|simpl in *; lia|].
  exists s'. split_and!; [done| |done..].
  rewrite Hcalls. cbn [chain_vals].
  change (adjacent (v :: v1 :: chain_vals s1))
    with ((v, v1) :: adjacent (v1 :: chain_vals s1)).
  simpl. by rewrite <- app_assoc.
Qed.

Lemma validation_pass_calls_lemma fuel t s :
  cmp_total → repr (mem s) t → nodes t ≤ fuel →
  ∃ s', compare_siblings fuel (ptr t) s = (Val tt, s') ∧
        calls s' = rev (adjacent (chain_vals t)) ++ calls s ∧
        mem s' = mem s ∧ objs s' = objs s.
Proof.
  intros Ht Hr Hf. unfold compare_siblings, try_catch_all.
  destruct t as [|p v c sb]; [by exists s|]. cbn [ptr].
  destruct (compare_siblings_loop_calls fuel p v c sb s Ht Hr Hf)
    as (s' & -> & Hcalls & Hm & Ho).
  by exists s'.
Qed.

(** X8.  With a comparator that never throws and fuel for the chain, the
    validation pass returns after comparing every node of the chain with
    its right neighbour, from left to right, once each; it writes
    nothing. *)
Theorem validation_pass_calls fuel t s :
  cmp_total → repr (mem s) t → nodes t ≤ fuel →
  ∃ s', compare_siblings fuel (ptr t) s = (Val tt, s') ∧
        calls s' = rev (adjacent (chain_vals t)) ++ calls s ∧
        mem s' = mem s ∧ objs s' = objs s.
Proof. apply validation_pass_calls_lemma. Qed.

(** The state in which the first meld of the merge pass runs. *)
Lemma detach_facts p0 v0 c0 p1 v1 c1 rest s :
  repr (mem s) (Bin p0 v0 c0 (Bin p1 v1 c1 rest)) →
  NoDup (locs (Bin p0 v0 c0 (Bin p1 v1 c1 rest))) →
  let s2 := with_mem (<[p1 := PqNode v1 (ptr c1) None]>
                        (<[p0 := PqNode v0 (ptr c0) None]> (mem s))) s in
  repr (mem s2) (Bin p0 v0 c0 Leaf) ∧ repr (mem s2) (Bin p1 v1 c1 Leaf) ∧
  repr (mem s2) rest ∧
  NoDup (locs (Bin p0 v0 c0 Leaf) ++ locs (Bin p1 v1 c1 Leaf)) ∧
  NoDup (locs rest) ∧
  (∀ p, p ∈ locs rest → p ∉ locs (Bin p0 v0 c0 Leaf) ++ locs (Bin p1 v1 c1 Leaf)).
Proof.
  intros Hr Hn s2.
  pose proof (NoDup_chain_split _ _ _ _ _ _ _ Hn) as (Hn01 & Hnr & Hdisj).
  pose proof (NoDup_pair_roots _ _ _ _ _ _ Hn01) as (H00 & H01 & H10 & H11 & Hne).
  pose proof Hr as (Hp0 & Hc0 & Hp1 & Hc1 & Hrest).
  assert (touches [p0; p1] s s2) as T02 by (by eapply touches_detach).
  split_and!; try done.
  - simpl. split_and!; [| |done].
    + rewrite lookup_insert_ne, lookup_insert_eq; done.
    + by apply repr_insert_fresh; [apply repr_insert_fresh|].
  - simpl. split_and!; [| |done].
    + by rewrite lookup_insert_eq.
    + by apply repr_insert_fresh; [apply repr_insert_fresh|].
  - eapply touches_repr; [exact T02|done|]. intros p Hp Hin. apply (Hdisj p Hp).
    simpl. set_solver.
Qed.

(** With a comparator that never throws, the merge pass on a chain of [k]
    trees returns after [k - 1] comparator calls. *)
Lemma merge_siblings_calls fuel t s :
  cmp_total → repr (mem s) t → NoDup (locs t) → nodes t ≤ fuel →
  ∃ r s', merge_siblings (S fuel) (ptr t) s = (Val r, s') ∧
          length (calls s') = length (calls s) + pred (length (chain_vals t)).
Proof.
  intros Ht. revert t s. induction fuel as [|fuel IH]; intros t s Hr Hn Hf.
  { destruct t; simpl in Hf; [|lia]. by exists None, s. }
  destruct t as [|p0 v0 c0 [|p1 v1 c1 rest]].
  - exists None, s. split; [done|simpl; lia].
  - exists (Some p0), s. pose proof Hr as (Hp0 & _). cbn [ptr merge_siblings].
    rewrite (bind_Val _ _ _ _ _ (get_sibling_Some _ _ _ Hp0)). split; [done|simpl; lia].
  - destruct (detach_facts _ _ _ _ _ _ _ _ Hr Hn) as (Hra & Hrb & Hrr & Hn01 & Hnr & Hdisj).
    pose proof (NoDup_pair_roots _ _ _ _ _ _ Hn01) as (_ & _ & _ & _ & Hne).
    cbn [ptr]. rewrite (merge_siblings_detach _ _ _ _ _ _ _ _ _ Hr Hne).
    set (s2 := with_mem _ s) in *.
    set (ta := Bin p0 v0 c0 Leaf) in *. set (tb := Bin p1 v1 c1 Leaf) in *.
    (* the first meld *)
    pose proof (meld_nodes_trees s2 ta tb Hra Hrb eq_refl eq_refl Hn01) as Hm.
    pose proof (meld_nodes_calls (Some p0) (Some p1) s2) as Hc1.
    pose proof Hra as (Hp0 & _). pose proof Hrb as (Hp1 & _).
    cbv beta iota in Hc1. rewrite Hp0, Hp1 in Hc1. cbn [val] in Hc1. cbn [ptr ta tb] in Hm.
    destruct (meld_nodes (Some p0) (Some p1) s2) as [[r3|e| |] s3] eqn:Em;
      [|by apply (no_exn_meld_nodes _ _ Ht) in Em|done..].
    rewrite (bind_Val _ _ _ _ _ Em). simpl in Hc1.
    destruct Hm as (b & -> & Hr3 & _ & T23).
    set (tab := meld_tree b ta tb) in *.
    assert (locs tab ≡ₚ locs ta ++ locs tb) as Hltab by (by apply locs_meld_tree).
    assert (repr (mem s3) rest) as Hrr3.
    { eapply touches_repr; [exact T23|done|]. intros p Hp Hin. by apply (Hdisj p Hp). }
    (* the rest of the chain *)
    destruct (IH rest s3 Hrr3 Hnr) as (r6 & s6 & Er & Hc6); [simpl in Hf; lia|].
    pose proof (merge_siblings_spec (S fuel) rest s3 Hrr3 Hnr) as Hrec.
    rewrite Er in Hrec. rewrite (bind_Val _ _ _ _ _ Er).
    destruct Hrec as (tr & <- & Hr6 & Hroot6 & Hl6 & _ & _ & T36).
    assert (repr (mem s6) tab) as Hrab6.
    { eapply touches_repr; [exact T36|done|]. intros p Hp Hin. apply (Hdisj p Hin).
      by rewrite <- Hltab. }
    assert (NoDup (locs tab ++ locs tr)) as Hn6.
    { rewrite Hltab, Hl6. apply NoDup_app. split_and!; [done| |done].
      intros p Hp Hin. by apply (Hdisj p Hin). }
    (* the second meld *)
    pose proof (meld_nodes_trees s6 tab tr Hrab6 Hr6
                  (rooted_meld_tree b ta tb eq_refl eq_refl) Hroot6 Hn6) as Hm2.
    pose proof (meld_nodes_calls (ptr tab) (ptr tr) s6) as Hc2.
    destruct (meld_nodes (ptr tab) (ptr tr) s6) as [[r7|e| |] s7] eqn:Em2;
      [|by apply (no_exn_meld_nodes _ _ Ht) in Em2|done..].
    exists r7, s7. split; [done|]. simpl in Hc2. rewrite Hc2.
    assert (nodes tr = nodes rest) as Hlen.
    { apply Permutation_length in Hl6. by rewrite !length_locs in Hl6. }
    destruct tab as [|pt vt ct st] eqn:Etab; [by destruct b|].
    pose proof Hrab6 as (Hpt & _). cbn [ptr]. rewrite Hpt.
    destruct tr as [|pr vr cr sr].
    + destruct rest; [|simpl in Hlen; lia]. simpl. simpl in Hc6. rewrite Hc6, Hc1. simpl. lia.
    + pose proof Hr6 as (Hpr & _). cbn [ptr]. rewrite Hpr.
      simpl. rewrite Hc6, Hc1. simpl. destruct rest; simpl in *; lia.
Qed.

(** X9.  With a comparator that never throws, [pop] on a queue whose root
    has [k] children returns after exactly [2 * (k - 1)] comparator calls:
    [k - 1] in the validation pass and [k - 1] in the merge pass. *)
Theorem pop_comparator_calls fuel s q rp v c n :
  cmp_total → queue_at s q (Bin rp v c Leaf) n → nodes (Bin rp v c Leaf) ≤ fuel →
  ∃ s', pq_pop fuel q s = (Val tt, s') ∧
        length (calls s') = length (calls s) + 2 * pred (length (chain_vals c)).
Proof.
  intros Ht Hq Hf.
  pose proof (pq_pop_spec fuel s q _ n Hq Hf) as Hspec.
  destruct (pq_pop fuel q s) as [[[]|x| |] s'] eqn:Erun; [| |done..].
  2:{ destruct (pq_pop_exn_total _ _ _ _ _ Ht Erun) as (_ & _ & o & Ho & Hr).
      destruct Hq as (Ho' & _). rewrite Ho in Ho'. by injection Ho' as ->. }
  clear Hspec. exists s'. split; [done|].
  pose proof Hq as (Hobj & Hr & Hn & _). pose proof Hr as (Hrp & Hc & _).
  simpl in Hn. rewrite app_nil_r in Hn. apply NoDup_cons in Hn as [_ Hnc].
  destruct fuel as [|fuel]; [simpl in Hf; lia|]. simpl in Hf.
  destruct (validation_pass_calls_lemma (S fuel) c s Ht Hc) as (s1 & Hval & Hc1 & Hm1 & Ho1);
    [lia|].
  assert (repr (mem s1) c) as Hc' by (by rewrite Hm1).
  destruct (merge_siblings_calls fuel c s1 Ht Hc' Hnc) as (r & s2 & Hmerge & Hc2); [lia|].
  unfold pq_pop in Erun.
  rewrite (bind_Val _ _ _ _ _ (get_root_Some _ _ _ Hobj)) in Erun. cbn [root ptr] in Erun.
  rewrite (bind_Val _ _ _ _ _ (get_child_Some _ _ _ Hrp)) in Erun. cbn [child] in Erun.
  rewrite (bind_Val _ _ _ _ _ Hval) in Erun.
  assert (mem s1 !! rp = Some (PqNode v (ptr c) None)) as Hrp1 by (by rewrite Hm1).
  rewrite (bind_Val _ _ _ _ _ (get_child_Some _ _ _ Hrp1)) in Erun. cbn [child] in Erun.
  rewrite (bind_Val _ _ _ _ _ Hmerge) in Erun.
  match type of Erun with ?m s2 = _ => assert (quiet m) as Hquiet by quiet_solve end.
  pose proof (quiet_calls _ s2 Hquiet) as Hc3. rewrite Erun in Hc3. simpl in Hc3.
  rewrite Hc3, Hc2, Hc1, length_app, length_rev, length_adjacent. lia.
Qed.

(** ** push and the comparator *)

Lemma quiet_try_catch_runtime_error {A} (m h : M A) :
  quiet m → quiet h → quiet (try_catch_runtime_error m h).
Proof.
  intros Hm Hh s. unfold try_catch_runtime_error. specialize (Hm s).
  destruct (m s) as [[a|[| |y]| |] s1]; try done.
  simpl in Hm. destruct (Hh s1) as [-> ->]. done.
Qed.

(** X10.  [push] calls the comparator once when the queue is not empty, on
    the value at the root and the new element in this order, and not at all
    on an empty queue, whether it returns or throws. *)
Theorem push_comparator_calls s q t n e :
  queue_at s q t n →
  calls (pq_push q e s).2 =
    match t with
    | Leaf => calls s
    | Bin _ v _ _ => (v, e) :: calls s
    end.
Proof.
  intros (Hobj & Hr & _). unfold pq_push.
  rewrite (bind_Val _ _ _ _ _ (new_node_eq _ _ _ _)).
  set (p' := fresh (dom (mem s))).
  set (s1 := with_mem (<[p' := PqNode e None None]> (mem s)) s).
  assert (mem s !! p' = None) as Hfr by apply fresh_unallocated.
  assert (objs s1 !! q = Some (PriorityQueue (ptr t) n)) as Hobj1 by done.
  rewrite (try_bind_Val _ _ _ _ _ _ (get_root_Some _ _ _ Hobj1)). cbn [root].
  pose proof (meld_nodes_calls (ptr t) (Some p') s1) as Hc.
  assert (mem s1 !! p' = Some (PqNode e None None)) as Hp'.
  { simpl. by rewrite lookup_insert_eq. }
  assert (calls (meld_nodes (ptr t) (Some p') s1).2
          = match t with Leaf => calls s | Bin _ v _ _ => (v, e) :: calls s end) as Hc'.
  { rewrite Hc. destruct t as [|rp v c sb]; [done|]. cbn [ptr].
    destruct Hr as (Hrp & _).
    assert (mem s1 !! rp = Some (PqNode v (ptr c) (ptr sb))) as ->.
    { simpl. rewrite lookup_insert_ne; [done|]. intros <-. congruence. }
    by rewrite Hp'. }
  clear Hc. rewrite <- Hc'.
  destruct (meld_nodes (ptr t) (Some p') s1) as [[r|x| |] s2] eqn:Em.
  - rewrite (try_bind_Val _ _ _ _ _ _ Em).
    apply quiet_calls, quiet_try_catch_runtime_error; quiet_solve.
  - destruct (meld_nodes_exn _ _ _ _ _ Em) as (-> & _).
    rewrite (try_bind_Exn _ _ _ _ _ Em).
    apply quiet_calls. quiet_solve.
  - unfold try_catch_runtime_error. by rewrite (bind_UB _ _ _ _ Em).
  - unfold try_catch_runtime_error. by rewrite (bind_OutOfFuel _ _ _ _ Em).
Qed.

(** X11.  What [top] shows after a [push] that returned: the new element on
    an empty queue; otherwise the new element if the comparator put the old
    top below it, and the old top if not. *)
Theorem push_then_top s q t n e s' :
  queue_at s q t n → pq_push q e s = (Val tt, s') →
  match t with
  | Leaf => pq_top q s' = (Val e, s')
  | Bin _ v _ _ =>
      ∃ r c', Compare (cst s) v e = (inr r, c') ∧
              pq_top q s' = (Val (if r then e else v), s')
  end.
Proof.
  intros (Hobj & Hr & _) Hrun. unfold pq_push in Hrun.
  rewrite (bind_Val _ _ _ _ _ (new_node_eq _ _ _ _)) in Hrun.
  set (p' := fresh (dom (mem s))) in *.
  set (s1 := with_mem (<[p' := PqNode e None None]> (mem s)) s) in *.
  assert (mem s !! p' = None) as Hfr by apply fresh_unallocated.
  assert (objs s1 !! q = Some (PriorityQueue (ptr t) n)) as Hobj1 by done.
  assert (mem s1 !! p' = Some (PqNode e None None)) as Hp'.
  { simpl. by rewrite lookup_insert_eq. }
  rewrite (try_bind_Val _ _ _ _ _ _ (get_root_Some _ _ _ Hobj1)) in Hrun.
  cbn [root] in Hrun.
  assert (∀ s2 w nw h,
            objs s2 = objs s → mem s2 !! w = Some nw →
            try_catch_runtime_error
              (set_root q (Some w) ;;
               k <- get_raw_size q ;;
               set_raw_size q (size_incr k)) h s2 = (Val tt, s') →
            pq_top q s' = (Val (val nw), s')) as Hfinish.
  { intros s2 w nw h Ho2 Hw Hrest.
    assert (objs s2 !! q = Some (PriorityQueue (ptr t) n)) as Hq2 by (by rewrite Ho2).
    rewrite (try_bind_Val _ _ _ _ _ _ (set_root_Some _ _ _ _ Hq2)) in Hrest.
    cbn [raw_size_] in Hrest.
    set (s3 := with_objs _ s2) in *.
    assert (objs s3 !! q = Some (PriorityQueue (Some w) n)) as Hq3.
    { simpl. by rewrite lookup_insert_eq. }
    rewrite (try_bind_Val _ _ _ _ _ _ (get_raw_size_Some _ _ _ Hq3)) in Hrest.
    unfold try_catch_runtime_error in Hrest.
    rewrite (set_raw_size_Some _ _ _ _ Hq3) in Hrest. injection Hrest as <-.
    apply (pq_top_root _ q (PriorityQueue (Some w) (size_incr n)) w nw); [|done|done].
    simpl. by rewrite lookup_insert_eq. }
  destruct t as [|rp v c sb].
  - cbn [ptr] in Hrun. rewrite (try_bind_Val _ _ _ _ _ _ (meld_nodes_None_l _ _)) in Hrun.
    by eapply (Hfinish s1 p' (PqNode e None None)).
  - cbn [ptr] in Hrun. destruct Hr as (Hrp & _).
    assert (rp ≠ p') as Hne by (intros <-; congruence).
    assert (mem s1 !! rp = Some (PqNode v (ptr c) (ptr sb))) as Hrp1.
    { simpl. by rewrite lookup_insert_ne. }
    pose proof (meld_nodes_Some s1 rp p' _ _ Hne Hrp1 Hp') as Hm.
    cbn [val child sibling] in Hm.
    change (cst s1) with (cst s) in Hm.
    destruct (Compare (cst s) v e) as [[x|r] c'] eqn:Hc.
    + rewrite (try_bind_Exn _ _ _ _ _ Hm) in Hrun.
      unfold delete_node, throw, bind in Hrun. by repeat case_match.
    + exists r, c'. split; [done|].
      destruct r; rewrite (try_bind_Val _ _ _ _ _ _ Hm) in Hrun.
      * eapply (Hfinish _ p' (PqNode e (Some rp) None)); [| |done]; [done|].
        simpl. by rewrite lookup_insert_eq.
      * eapply (Hfinish _ rp (PqNode v (Some p') (ptr sb))); [| |done]; [done|].
        simpl. by rewrite lookup_insert_eq.
Qed.

(** ** Merging a queue into itself *)

(** X12.  A queue merged into itself: if the comparator answers on the top
    value and itself, the call returns, the queue is empty with count 0,
    and no node has been released; the old root is now its own child and
    its sibling link holds its old first child, so the whole tree stays
    allocated with no queue pointing to it. *)
Theorem merge_self_empties s a rp v c sb n r c' :
  queue_at s a (Bin rp v c sb) n → Compare (cst s) v v = (inr r, c') →
  ∃ s', pq_merge a a s = (Val tt, s') ∧
        objs s' = <[a := PriorityQueue None 0]> (objs s) ∧
        mem s' = <[rp := PqNode v (Some rp) (ptr c)]> (mem s) ∧
        pq_empty a s' = (Val true, s') ∧ pq_size a s' = (Val 0%N, s') ∧
        (∀ p, p ∈ locs (Bin rp v c sb) → is_Some (mem s' !! p)).
Proof.
  intros (Ho & Hr & _) Hc. pose proof Hr as (Hrp & _).
  unfold pq_merge.
  rewrite (bind_Val _ _ _ _ _ (get_root_Some _ _ _ Ho)).
  rewrite (bind_Val _ _ _ _ _ (get_root_Some _ _ _ Ho)). cbn [root ptr].
  rewrite (bind_Val _ _ _ _ _ (meld_nodes_self _ _ _ _ _ Hrp Hc)).
  erewrite pq_merge_self_tail by done.
  eexists. split; [done|]. cbn [val child].
  split_and!; [done|done| | |].
  - erewrite pq_empty_eq by (simpl; apply lookup_insert_eq). done.
  - unfold pq_size. erewrite get_raw_size_Some by (simpl; apply lookup_insert_eq). done.
  - intros p Hp. simpl. destruct (decide (p = rp)) as [->|Hne].
    + rewrite lookup_insert_eq. eauto.
    + rewrite lookup_insert_ne by done. by apply (repr_dom _ _ _ Hr).
Qed.

(** ** Sorting with a queue *)

Lemma push_all_spec lessb l s q t n :
  cmp_total → cmp_sound lessb → lt_asym lessb →
  queue_at s q t n → ho lessb t →
  ∃ t' n', queue_at (push_all l q s) q t' n' ∧ elems t' ≡ₚ elems t ++ l ∧ ho lessb t'.
Proof.
  intros Ht Hs Hasym. revert s t n.
  induction l as [|e l IH]; intros s t n Hq Hh.
  { exists t, n. by rewrite app_nil_r. }
  cbn [push_all].
  pose proof (pq_push_spec s q t n e Hq) as Hspec.
  destruct (pq_push q e s) as [[[]|x| |] s1] eqn:Erun; [| |done..].
  2:{ by destruct (no_exn_pq_push q e Ht s x s1). }
  destruct Hspec as (t1 & Hq1 & _ & _ & He1 & Hh1 & _). cbn [snd].
  destruct (IH s1 t1 _ Hq1 (Hh1 lessb Hs Hasym Hh)) as (t' & n' & Hq' & He' & Hh').
  exists t', n'. split_and!; [done| |done].
  rewrite He', He1, <- app_assoc. done.
Qed.

(** X13.  Heap sort: with a comparator that never throws and answers as a
    strict weak order, pushing the elements of a list on an empty queue
    and then taking [top] and [pop] as many times gives the elements of
    the list back, each as often as it occurs, none of them below a later
    one. *)
Theorem push_all_pop_all_sorts lessb fuel l s q n :
  cmp_total → cmp_sound lessb → lt_asym lessb → lt_negtrans lessb →
  queue_at s q Leaf n → length l ≤ fuel →
  pop_all (length l) fuel q (push_all l q s) ≡ₚ l ∧
  StronglySorted (λ a b, lessb a b = false) (pop_all (length l) fuel q (push_all l q s)).
Proof.
  intros Ht Hs Hasym Hnt Hq Hf.
  destruct (push_all_spec lessb l s q Leaf n Ht Hs Hasym Hq) as (t' & n' & Hq' & He & Hh);
    [done|].
  simpl in He.
  assert (nodes t' = length l) as Hlen by (by rewrite <- length_elems, He).
  destruct (pop_all_spec lessb fuel (length l) _ q t' n' Ht Hs Hasym Hnt Hq' Hh) as [Hp Hsort];
    [lia..|].
  split; [by rewrite Hp|done].
Qed.

(** ** A push undone by a pop *)

Lemma size_decr_incr n : (n < size_t_mod)%N → size_decr (size_incr n) = n.
Proof.
  intros Hlt. unfold size_decr, size_incr, wrap.
  assert (0 < size_t_mod)%N as Hpos by done.
  remember size_t_mod as m eqn:Hm. clear Hm.
  replace ((n + 1) mod m + m - 1)%N with ((n + 1) mod m + (m - 1))%N
    by (generalize ((n + 1) mod m)%N; lia).
  rewrite N.Div0.add_mod_idemp_l.
  replace (n + 1 + (m - 1))%N with (n + 1 * m)%N by lia.
  rewrite N.Div0.mod_add. by apply N.mod_small.
Qed.

(** A [push] whose element becomes the new top: the new node is the root
    and the old root is its only child. *)
Lemma pq_push_new_top s q t n e :
  queue_at s q t n →
  match t with
  | Leaf => True
  | Bin _ v _ _ => ∃ c', Compare (cst s) v e = (inr true, c')
  end →
  ∃ s', pq_push q e s = (Val tt, s') ∧
        mem s' = <[fresh (dom (mem s)) := PqNode e (ptr t) None]> (mem s) ∧
        objs s' = <[q := PriorityQueue (Some (fresh (dom (mem s)))) (size_incr n)]> (objs s).
Proof.
  intros (Hobj & Hr & _ & Hroot) Hcmp. unfold pq_push.
  rewrite (bind_Val _ _ _ _ _ (new_node_eq _ _ _ _)).
  set (p' := fresh (dom (mem s))).
  set (s1 := with_mem (<[p' := PqNode e None None]> (mem s)) s).
  assert (mem s !! p' = None) as Hfr by apply fresh_unallocated.
  assert (objs s1 !! q = Some (PriorityQueue (ptr t) n)) as Hobj1 by done.
  assert (mem s1 !! p' = Some (PqNode e None None)) as Hp'.
  { simpl. by rewrite lookup_insert_eq. }
  rewrite (try_bind_Val _ _ _ _ _ _ (get_root_Some _ _ _ Hobj1)). cbn [root].
  destruct t as [|rp v c sb].
  - cbn [ptr]. rewrite (try_bind_Val _ _ _ _ _ _ (meld_nodes_None_l _ _)).
    erewrite pq_push_tail by done. by eexists.
  - cbn [ptr]. destruct Hr as (Hrp & _). destruct Hcmp as [c' Hc].
    unfold rooted in Hroot. simpl in Hroot. subst sb.
    assert (rp ≠ p') as Hne by (intros <-; congruence).
    assert (mem s1 !! rp = Some (PqNode v (ptr c) None)) as Hrp1.
    { simpl. by rewrite lookup_insert_ne. }
    pose proof (meld_nodes_Some s1 rp p' _ _ Hne Hrp1 Hp') as Hm.
    cbn [val child sibling] in Hm. change (cst s1) with (cst s) in Hm.
    rewrite Hc in Hm.
    rewrite (try_bind_Val _ _ _ _ _ _ Hm).
    erewrite pq_push_tail by done. eexists. split; [done|].
    split; [|done]. simpl. apply map_eq. intros p.
    destruct (decide (p = p')) as [->|Hp].
    + by rewrite !lookup_insert_eq.
    + rewrite !(lookup_insert_ne _ p') by done.
      destruct (decide (p = rp)) as [->|Hp2].
      * by rewrite lookup_insert_eq.
      * rewrite lookup_insert_ne by done. simpl. by rewrite lookup_insert_ne.
Qed.

(** [pop] on a root with at most one child: nothing to compare, nothing
    to meld. *)
Lemma pq_pop_short fuel s q rp nr n :
  objs s !! q = Some (PriorityQueue (Some rp) n) → mem s !! rp = Some nr →
  match child nr with
  | None => True
  | Some c => ∃ nc, mem s !! c = Some nc ∧ sibling nc = None
  end →
  pq_pop (S fuel) q s =
    (Val tt, State (delete rp (mem s))
                   (<[q := PriorityQueue (child nr) (size_decr n)]> (objs s))
                   (cst s) (calls s)).
Proof.
  intros Ho Hrp Hch. unfold pq_pop.
  rewrite (bind_Val _ _ _ _ _ (get_root_Some _ _ _ Ho)). cbn [root].
  rewrite (bind_Val _ _ _ _ _ (get_child_Some _ _ _ Hrp)).
  assert (compare_siblings (S fuel) (child nr) s = (Val tt, s)) as Hcs.
  { unfold compare_siblings, try_catch_all. destruct (child nr) as [c|]; [|done].
    destruct Hch as (nc & Hc & Hsb). by rewrite compare_siblings_loop_S, Hc, Hsb. }
  rewrite (bind_Val _ _ _ _ _ Hcs).
  rewrite (bind_Val _ _ _ _ _ (get_child_Some _ _ _ Hrp)).
  assert (merge_siblings (S fuel) (child nr) s = (Val (child nr), s)) as Hms.
  { cbn [merge_siblings]. destruct (child nr) as [c|]; [|done].
    destruct Hch as (nc & Hc & Hsb).
    by rewrite (bind_Val _ _ _ _ _ (get_sibling_Some _ _ _ Hc)), Hsb. }
  rewrite (bind_Val _ _ _ _ _ Hms).
  rewrite (bind_Val _ _ _ _ _ (get_root_Some _ _ _ Ho)). cbn [root delete_ptr].
  rewrite (bind_Val _ _ _ _ _ (delete_node_Some _ _ _ Hrp)).
  set (s1 := with_mem _ s).
  assert (objs s1 !! q = Some (PriorityQueue (Some rp) n)) as Ho1 by done.
  rewrite (bind_Val _ _ _ _ _ (set_root_Some _ _ _ _ Ho1)). cbn [raw_size_].
  set (s2 := with_objs _ s1).
  assert (objs s2 !! q = Some (PriorityQueue (child nr) n)) as Ho2.
  { simpl. by rewrite lookup_insert_eq. }
  rewrite (bind_Val _ _ _ _ _ (get_raw_size_Some _ _ _ Ho2)).
  rewrite (set_raw_size_Some _ _ _ _ Ho2). cbn [root raw_size_].
  simpl. by rewrite insert_insert_eq.
Qed.

(** X14.  A [push] whose element becomes the new top, followed by [pop],
    is a round trip: when the queue was empty, or the comparator puts its
    top below the new element, [pop] returns and the store and the queue
    objects are exactly what they were before the [push].  The count is
    assumed to be in the range of [size_t]. *)
Theorem push_new_top_then_pop fuel s q t n e :
  queue_at s q t n → (n < size_t_mod)%N →
  match t with
  | Leaf => True
  | Bin _ v _ _ => ∃ c', Compare (cst s) v e = (inr true, c')
  end →
  ∃ s', pq_pop (S fuel) q (pq_push q e s).2 = (Val tt, s') ∧
        mem s' = mem s ∧ objs s' = objs s.
Proof.
  intros Hq Hlt Hcmp.
  destruct (pq_push_new_top s q t n e Hq Hcmp) as (s1 & -> & Hm1 & Ho1). cbn [snd].
  destruct Hq as (Hobj & Hr & _ & Hroot).
  set (p' := fresh (dom (mem s))) in *.
  assert (mem s !! p' = None) as Hfr by apply fresh_unallocated.
  assert (objs s1 !! q = Some (PriorityQueue (Some p') (size_incr n))) as Hq1.
  { by rewrite Ho1, lookup_insert_eq. }
  assert (mem s1 !! p' = Some (PqNode e (ptr t) None)) as Hp1.
  { by rewrite Hm1, lookup_insert_eq. }
  rewrite (pq_pop_short fuel s1 q p' _ _ Hq1 Hp1).
  - eexists. split; [done|]. cbn [mem objs child]. split.
    + rewrite Hm1. by apply delete_insert_id.
    + rewrite Ho1, insert_insert_eq, size_decr_incr by done. by apply insert_id.
  - cbn [child]. destruct t as [|rp v c sb]; [done|]. cbn [ptr].
    unfold rooted in Hroot. simpl in Hroot. subst sb. destruct Hr as (Hrp & _).
    exists (PqNode v (ptr c) None). split; [|done].
    rewrite Hm1, lookup_insert_ne; [done|]. intros <-. congruence.
Qed.


(** ** The size invariant without any assumption on the comparator *)

(** The order in which nothing is below anything: every tree is in heap
    order for it, so that [world_ok no_order] only speaks of ownership and
    counts. *)
Lemma ho_no_order t : ho no_order t.
Proof.
  induction t as [|p v c IHc sb IHs]; [done|]. simpl. split_and!; [|done..].
  by apply Forall_forall.
Qed.

Lemma sizes_push s q e s' :
  world_ok no_order s → pq_push q e s = (Val tt, s') → world_ok no_order s'.
Proof.
  intros [owns Hw] Hrun.
  destruct (objs s !! q) as [o|] eqn:Hq.
  2:{ pose proof (pq_push_dead s q e Hq) as H. by rewrite Hrun in H. }
  destruct (owns_lookup _ _ _ _ _ Hw Hq) as (t & Ht & Hqt & Hh).
  pose proof (pq_push_spec s q t _ e Hqt) as H. rewrite Hrun in H.
  destruct H as (t' & Hq' & Hobjs & Hl & He & Hho & Hframe).
  exists (<[q := t']> owns).
  apply (owns_ok_update no_order s s' owns q t' (locs t)); try done.
  - by eapply owns_others.
  - unfold queue_ok. rewrite size_incr_wrap in Hq'.
    replace (nodes t') with (S (nodes t)); [done|].
    rewrite <- !length_locs, Hl, length_app. simpl. lia.
  - apply ho_no_order.
  - intros p Hp. rewrite Hl in Hp. apply elem_of_app in Hp as [?|Hp]; [by left|right].
    apply list_elem_of_singleton in Hp as ->. apply fresh_unallocated.
  - intros p Hp Hal. apply Hframe. intros [?|Hin]%elem_of_app; [done|].
    apply list_elem_of_singleton in Hin as ->.
    destruct Hal as [x Hx]. by rewrite fresh_unallocated in Hx.
  - intros q' Hne. rewrite Hobjs. by rewrite lookup_insert_ne.
Qed.

Lemma sizes_pop fuel s q s' :
  world_ok no_order s → size (mem s) ≤ fuel →
  pq_pop fuel q s = (Val tt, s') → world_ok no_order s'.
Proof.
  intros [owns Hw] Hf Hrun.
  destruct (objs s !! q) as [o|] eqn:Hq.
  2:{ pose proof (pq_pop_dead fuel s q Hq) as H. by rewrite Hrun in H. }
  destruct (owns_lookup _ _ _ _ _ Hw Hq) as (t & Ht & Hqt & Hh).
  pose proof (pq_pop_spec fuel s q t _ Hqt (queue_at_fuel _ _ _ _ _ Hqt Hf)) as H.
  rewrite Hrun in H.
  destruct H as (rp & v & c & t' & -> & Hq' & Hobjs & Hl & He & Hho & Hgone & Hframe).
  exists (<[q := t']> owns).
  apply (owns_ok_update no_order s s' owns q t' (locs (Bin rp v c Leaf))); try done.
  - by eapply owns_others.
  - unfold queue_ok. simpl in Hq'. rewrite Nat.add_0_r, size_decr_wrap in Hq'.
    replace (nodes t') with (nodes c); [done|]. by rewrite <- !length_locs, Hl.
  - apply ho_no_order.
  - intros p Hp. left. rewrite Hl in Hp. simpl. set_solver.
  - intros p Hp _. by apply Hframe.
  - intros q' Hne. rewrite Hobjs. by rewrite lookup_insert_ne.
Qed.

Lemma sizes_merge s a b s' :
  world_ok no_order s → pq_merge a b s = (Val tt, s') → world_ok no_order s'.
Proof.
  intros [owns Hw] Hrun.
  destruct (objs s !! a) as [oa|] eqn:Hoa.
  2:{ pose proof (pq_merge_dead_l s a b Hoa) as H. by rewrite Hrun in H. }
  destruct (objs s !! b) as [ob|] eqn:Hob.
  2:{ pose proof (pq_merge_dead_r s a b oa Hoa Hob) as H. by rewrite Hrun in H. }
  destruct (owns_lookup _ _ _ _ _ Hw Hoa) as (ta & Hta & Hqa & Hha).
  destruct (owns_lookup _ _ _ _ _ Hw Hob) as (tb & Htb & Hqb & Hhb).
  destruct (decide (a = b)) as [->|Hab].
  - destruct (pq_merge_self s b ta _ s' Hqa Hrun) as (Hobjs & Hframe).
    exists (<[b := Leaf]> owns).
    apply (owns_ok_update no_order s s' owns b Leaf (locs ta)); try done.
    + by eapply owns_others.
    + unfold queue_ok, queue_at. rewrite Hobjs, lookup_insert_eq.
      split_and!; try done. constructor.
    + by intros p ?%elem_of_nil.
    + intros p Hp _. by apply Hframe.
    + intros q' Hne. rewrite Hobjs. by rewrite lookup_insert_ne.
  - assert (∀ p, p ∈ locs ta → p ∉ locs tb) as Hdisj.
    { destruct Hw as (_ & _ & Hd). by apply (Hd a b). }
    pose proof (pq_merge_spec s a b ta tb _ _ Hab Hqa Hqb Hdisj) as H.
    rewrite Hrun in H.
    destruct H as (t' & Hqa' & Hqb' & Hobjs & Hl & He & Hho & Hframe & _).
    set (smid := with_objs (<[b := PriorityQueue None 0]> (objs s)) s).
    assert (owns_ok no_order smid (<[b := Leaf]> owns)) as Hmid.
    { apply (owns_ok_update no_order s smid owns b Leaf (locs tb)); try done.
      - by eapply owns_others.
      - unfold queue_ok, queue_at. split_and!; try done; [|constructor].
        simpl. by rewrite lookup_insert_eq.
      - by intros p ?%elem_of_nil.
      - intros q' Hne. simpl. by rewrite lookup_insert_ne. }
    exists (<[a := t']> (<[b := Leaf]> owns)).
    apply (owns_ok_update no_order smid s' _ a t' (locs ta ++ locs tb)); try done.
    + intros q' t'' Hne Hq' p Hp Hin.
      destruct (decide (q' = b)) as [->|Hnb].
      * rewrite lookup_insert_eq in Hq'. injection Hq' as <-. by apply elem_of_nil in Hp.
      * rewrite lookup_insert_ne in Hq' by done.
        apply elem_of_app in Hin as [Hin|Hin].
        -- by apply (owns_others _ _ _ _ _ Hw Hta q' t'' Hne Hq' p).
        -- by apply (owns_others _ _ _ _ _ Hw Htb q' t'' Hnb Hq' p).
    + unfold queue_ok. unfold queue_ok in Hqa, Hqb.
      rewrite size_add_wrap in Hqa'.
      replace (nodes t') with (nodes ta + nodes tb); [done|].
      by rewrite <- !length_locs, Hl, length_app.
    + apply ho_no_order.
    + intros p Hp. left. by rewrite <- Hl.
    + intros p Hp _. by apply Hframe.
    + intros q' Hne. destruct (decide (q' = b)) as [->|Hnb].
      * destruct Hqb' as (-> & _). simpl. by rewrite lookup_insert_eq.
      * rewrite Hobjs by done. simpl. by rewrite lookup_insert_ne.
Qed.

Lemma sizes_exec fuel o s a s' :
  world_ok no_order s → size (mem s) ≤ fuel →
  exec fuel o s = (Val a, s') → world_ok no_order s'.
Proof.
  intros Hw Hf Hrun.
  destruct o; cbn [exec] in Hrun;
    apply bind_Val_inv in Hrun as (r & s1 & Hrun & Hret);
    injection Hret as _ <-.
  - destruct r. by eapply world_default.
  - destruct r. by eapply world_copy.
  - destruct r. by eapply world_assign.
  - destruct r. by eapply world_destroy.
  - pose proof (pq_top_state q s) as H. rewrite Hrun in H. simpl in H. by subst.
  - destruct r. by eapply sizes_push.
  - destruct r. by eapply sizes_pop.
  - pose proof (pq_size_state q s) as H. rewrite Hrun in H. simpl in H. by subst.
  - pose proof (pq_empty_state q s) as H. rewrite Hrun in H. simpl in H. by subst.
  - destruct r. by eapply sizes_merge.
Qed.

Lemma reachable_sizes s :
  reachable s → world_ok no_order s.
Proof.
  intros Hreach. induction Hreach as [c|s fuel o a s' _ IH Hf Hrun].
  - exists ∅. split_and!.
    + intros q. simpl. rewrite !lookup_empty. done.
    + intros q t. by rewrite lookup_empty.
    + intros q1 q2 t1 t2 _. by rewrite lookup_empty.
  - by eapply sizes_exec.
Qed.

(** X15.  The size invariant needs no assumption on the comparator, which
    need not be an order nor answer the same way twice: in every state
    reached through calls of the public interface that returned, the
    count of every live queue is the number of nodes reachable from its
    root (modulo the range of [size_t]), an empty queue has count 0, and
    two live queues have no node in common. *)
Theorem size_invariant_any_comparator s q o :
  reachable s → objs s !! q = Some o →
  ∃ t, queue_at s q t (raw_size_ o) ∧
       raw_size_ o
         = wrap (N.of_nat (count_reachable (S (size (mem s))) (mem s) (root o))) ∧
       (root o = None → raw_size_ o = 0%N) ∧
       (∀ q' t' n', q' ≠ q → queue_at s q' t' n' → ∀ p, p ∈ locs t → p ∉ locs t').
Proof.
  intros Hreach Ho.
  destruct (reachable_sizes s Hreach) as [owns Hw].
  destruct (owns_lookup _ _ _ _ _ Hw Ho) as (t & Ht & Hq & _).
  pose proof Hq as (Ho' & Hr & Hn & _). rewrite Ho in Ho'. injection Ho' as ->.
  exists t. cbn [root raw_size_]. split_and!; [done| | |].
  - rewrite count_reachable_repr; [done..|].
    pose proof (nodes_le_size _ _ Hr Hn). lia.
  - by intros ->%ptr_None_inv.
  - intros q' t' n' Hne Hq' p Hp Hp'.
    pose proof Hq' as (Hoq' & Hr' & _).
    destruct (owns_lookup _ _ _ _ _ Hw Hoq') as (t0 & Ht0 & (Ho0 & Hr0 & _) & _).
    rewrite Hoq' in Ho0. injection Ho0 as Hptr _.
    assert (t' = t0) as -> by (by eapply repr_inj).
    destruct Hw as (_ & _ & Hd). by apply (Hd q q' t t0 (not_eq_sym Hne) Ht Ht0 p).
Qed.


(** ** Copies and the merge pass, in full *)

(** What copy assignment leaves allocated. *)
Lemma pq_assign_domain fuel s c a tc ta nc na :
  c ≠ a → queue_at s c tc nc → queue_at s a ta na →
  (∀ p, p ∈ locs tc → p ∉ locs ta) →
  ptr ta ≠ None → nodes tc ≤ fuel → nodes ta ≤ fuel →
  ∃ s' t',
    pq_assign fuel c a s = (Val tt, s') ∧ queue_at s' c t' na ∧
    nodes t' = nodes ta ∧
    (∀ p, is_Some (mem s' !! p) ↔
          p ∈ locs t' ∨ (is_Some (mem s !! p) ∧ p ∉ locs tc)).
Proof.
  intros Hca Hqc Hqa Hdisj Hne Hfc Hfa.
  destruct (pq_assign_spec fuel s c a tc ta nc na Hca Hqc Hqa Hdisj Hne Hfc Hfa)
    as (s' & t' & Hrun & Hqc' & _ & Hsh & _ & Hfoot & _ & Hframe & _).
  exists s', t'. split_and!; [done|done|by rewrite (same_shape_nodes _ _ Hsh)|].
  destruct Hqc as (Hoc & Hrc & Hnc & Hrtc). destruct Hqa as (Hoa & Hra & Hna & Hrta).
  destruct (ptr ta) as [op|] eqn:Hpa; [|done].
  assert (ptr tc ≠ Some op) as Hroots.
  { intros Heq. destruct tc as [|pc vc cc sc]; [done|]. injection Heq as ->.
    destruct ta as [|pa' va ca sa]; [done|]. injection Hpa as ->.
    apply (Hdisj op); simpl; set_solver. }
  unfold pq_assign in Hrun.
  rewrite (bind_Val _ _ _ _ _ (get_root_Some _ _ _ Hoc)) in Hrun. cbn [root] in Hrun.
  rewrite (bind_Val _ _ _ _ _ (get_root_Some _ _ _ Hoa)) in Hrun. cbn [root] in Hrun.
  rewrite decide_False in Hrun by done.
  rewrite (bind_Val _ _ _ _ _ (get_root_Some _ _ _ Hoc)) in Hrun. cbn [root] in Hrun.
  destruct (release_tree fuel s tc Hrc Hnc Hrtc Hfc)
    as (s1 & Hrel & Hgone & Hold & Ho1 & _).
  rewrite (bind_Val _ _ _ _ _ Hrel) in Hrun.
  assert (objs s1 !! a = Some (PriorityQueue (Some op) na)) as Hoa1 by (by rewrite Ho1).
  rewrite (bind_Val _ _ _ _ _ (get_root_Some _ _ _ Hoa1)) in Hrun. cbn [root] in Hrun.
  assert (repr (mem s1) ta) as Hra1.
  { eapply repr_frame; [done|]. intros p Hp. apply Hold. intros Hin. by apply (Hdisj p). }
  destruct (recursive_dup_ok fuel ta s1 op Hpa Hra1 Hfa)
    as (d & s2 & Hdup & t2 & Hpt2 & _ & Hr2 & _ & Hfresh & Hold2 & Ho2 & _).
  rewrite (bind_Val _ _ _ _ _ Hdup) in Hrun.
  assert (mem s' = mem s2 ∧ objs s' !! c = Some (PriorityQueue (Some d) na)) as [Hmem Hocd].
  { assert (objs s2 !! c = Some (PriorityQueue (ptr tc) nc)) as Hoc2 by (by rewrite Ho2, Ho1).
    rewrite (bind_Val _ _ _ _ _ (set_root_Some _ _ _ _ Hoc2)) in Hrun.
    cbn [raw_size_] in Hrun. set (s3 := with_objs _ s2) in Hrun.
    assert (objs s3 !! a = Some (PriorityQueue (Some op) na)) as Hoa3.
    { simpl. rewrite lookup_insert_ne by done. by rewrite Ho2. }
    rewrite (bind_Val _ _ _ _ _ (get_raw_size_Some _ _ _ Hoa3)) in Hrun.
    assert (objs s3 !! c = Some (PriorityQueue (Some d) nc)) as Hoc3.
    { simpl. by rewrite lookup_insert_eq. }
    rewrite (set_raw_size_Some _ _ _ _ Hoc3) in Hrun. injection Hrun as <-.
    split; [done|]. simpl. by rewrite lookup_insert_eq. }
  assert (t2 = t') as ->.
  { destruct Hqc' as (Hoc' & Hr' & _).
    apply (repr_inj (mem s2)); [done|by rewrite <- Hmem|]. congruence. }
  intros p. rewrite Hmem. split.
  - intros Hal. destruct (decide (p ∈ locs t')) as [|Hn]; [by left|right].
    rewrite Hold2 in Hal by done.
    assert (p ∉ locs tc) as Hntc.
    { intros Hin. rewrite (Hgone p Hin) in Hal. by destruct Hal. }
    split; [|done]. by rewrite <- Hold.
  - intros [Hin|[Hal Hntc]]; [by eapply repr_dom|].
    destruct (decide (p ∈ locs t')) as [Hin|Hn]; [by eapply repr_dom|].
    by rewrite Hold2, Hold.
Qed.

(** X16.  Copy assignment onto a distinct destination leaks nothing and
    frees nothing it should keep: once it has returned, a store address
    holds a node exactly when it belongs to the destination's new tree, or
    held a node before and did not belong to the destination's old
    tree. *)
Theorem assign_releases_old_tree fuel s c a tc ta nc na :
  c ≠ a → queue_at s c tc nc → queue_at s a ta na →
  (∀ p, p ∈ locs tc → p ∉ locs ta) →
  ptr ta ≠ None → nodes tc ≤ fuel → nodes ta ≤ fuel →
  ∃ s' t',
    pq_assign fuel c a s = (Val tt, s') ∧ queue_at s' c t' na ∧
    nodes t' = nodes ta ∧
    (∀ p, is_Some (mem s' !! p) ↔
          p ∈ locs t' ∨ (is_Some (mem s !! p) ∧ p ∉ locs tc)).
Proof. apply pq_assign_domain. Qed.


(** X17.  [recursive_dup] on a node copies the node, everything below it
    and everything to its right: with fuel for these nodes it returns the
    address of a copy with the same values and shape, laid out without
    sharing on addresses that were free (also where the source shares
    nodes); it writes to no existing node, releases nothing, touches no
    queue object and does not call the comparator. *)
Theorem recursive_dup_copies fuel t s p :
  ptr t = Some p → repr (mem s) t → nodes t ≤ fuel →
  ∃ r s' t',
    recursive_dup fuel p s = (Val r, s') ∧
    ptr t' = Some r ∧ same_shape t t' ∧ elems t' = elems t ∧
    repr (mem s') t' ∧ NoDup (locs t') ∧
    (∀ q, q ∈ locs t' → mem s !! q = None) ∧
    (∀ q, q ∉ locs t' → mem s' !! q = mem s !! q) ∧
    objs s' = objs s ∧ calls s' = calls s.
Proof.
  intros Hp Hr Hf.
  destruct (recursive_dup_ok fuel t s p Hp Hr Hf)
    as (r & s' & Hrun & t' & Hpt & Hsh & Hr' & Hn & Hfresh & Hold & Ho & _ & Hc).
  exists r, s', t'. split_and!; try done. symmetry. by apply same_shape_elems.
Qed.

(** X18.  The merge pass of [pop] with a comparator that never throws: on
    a sibling chain without sharing and with fuel for it, [merge_siblings]
    returns the root of one tree without siblings that is made of exactly
    the nodes of the chain, with their values, in heap order if the chain
    was; it allocates and releases nothing, leaves every other node and
    every queue object as they were, and calls the comparator once less
    than the chain has nodes. *)
Theorem merge_pass_builds_one_tree fuel t s :
  cmp_total → repr (mem s) t → NoDup (locs t) → nodes t ≤ fuel →
  ∃ r s' t',
    merge_siblings (S fuel) (ptr t) s = (Val r, s') ∧
    ptr t' = r ∧ repr (mem s') t' ∧ rooted t' ∧
    locs t' ≡ₚ locs t ∧ elems t' ≡ₚ elems t ∧
    (∀ lessb, cmp_sound lessb → lt_asym lessb → ho lessb t → ho lessb t') ∧
    touches (locs t) s s' ∧
    length (calls s') = length (calls s) + pred (length (chain_vals t)).
Proof.
  intros Ht Hr Hn Hf.
  destruct (merge_siblings_calls fuel t s Ht Hr Hn Hf) as (r & s' & Hrun & Hc).
  pose proof (merge_siblings_spec (S fuel) t s Hr Hn) as Hspec. rewrite Hrun in Hspec.
  destruct Hspec as (t' & Hp & Hr' & Hroot & Hl & He & Hho & Htch).
  exists r, s', t'. by split_and!.
Qed.


(** ** Memory safety across calls that throw *)

Lemma owns_safe_update s s' owns q t' n' (F : list loc) :
  owns_safe s owns →
  (∀ q' t'', q' ≠ q → owns !! q' = Some t'' → ∀ p, p ∈ locs t'' → p ∉ F) →
  queue_at s' q t' n' →
  (∀ p, p ∈ locs t' → p ∈ F ∨ mem s !! p = None) →
  (∀ p, p ∉ F → is_Some (mem s !! p) → mem s' !! p = mem s !! p) →
  (∀ q', q' ≠ q → objs s' !! q' = objs s !! q') →
  owns_safe s' (<[q := t']> owns).
Proof.
  intros (Hdom & Hq & Hdisj) HF Hq' Hfoot Hframe Hobjs.
  assert (∀ q0 t0 p, owns !! q0 = Some t0 → p ∈ locs t0 → is_Some (mem s !! p)) as Halloc.
  { intros q0 t0 p H0 Hp. destruct (Hq _ _ H0) as [n0 (_ & Hr & _)]. by eapply repr_dom. }
  assert (∀ q0 t0 p, q0 ≠ q → owns !! q0 = Some t0 → p ∈ locs t' → p ∉ locs t0) as Hnew.
  { intros q0 t0 p Hne H0 Hp Hp0. destruct (Hfoot p Hp) as [HpF|Hnone].
    - by apply (HF q0 t0 Hne H0 p Hp0).
    - destruct (Halloc _ _ _ H0 Hp0) as [? ?]. congruence. }
  split_and!.
  - intros q0. destruct (decide (q0 = q)) as [->|Hne].
    + rewrite lookup_insert_eq. destruct Hq' as (-> & _). split; eauto.
    + rewrite lookup_insert_ne, Hobjs by done. apply Hdom.
  - intros q0 t0. destruct (decide (q0 = q)) as [->|Hne].
    + rewrite lookup_insert_eq. intros [= <-]. by exists n'.
    + rewrite lookup_insert_ne by done. intros H0.
      destruct (Hq _ _ H0) as [n0 Hok]. exists n0.
      eapply queue_at_frame; [done| |by apply Hobjs].
      intros p Hp. apply Hframe; [by eapply HF|by eapply Halloc].
  - intros q1 q2 t1 t2 Hne H1 H2 p Hp1 Hp2.
    destruct (decide (q1 = q)) as [->|Hn1], (decide (q2 = q)) as [->|Hn2]; [done|..].
    + rewrite lookup_insert_eq in H1. rewrite lookup_insert_ne in H2 by done.
      injection H1 as <-. by apply (Hnew q2 t2 p).
    + rewrite lookup_insert_eq in H2. rewrite lookup_insert_ne in H1 by done.
      injection H2 as <-. by apply (Hnew q1 t1 p).
    + rewrite lookup_insert_ne in H1, H2 by done. by apply (Hdisj q1 q2 t1 t2 Hne H1 H2 p).
Qed.

Lemma owns_safe_delete s s' owns q t :
  owns_safe s owns → owns !! q = Some t →
  (∀ p, p ∉ locs t → mem s' !! p = mem s !! p) →
  objs s' = delete q (objs s) →
  owns_safe s' (delete q owns).
Proof.
  intros (Hdom & Hq & Hdisj) Hqt Hframe Hobjs. split_and!.
  - intros q0. rewrite Hobjs. destruct (decide (q0 = q)) as [->|Hne].
    + rewrite !lookup_delete_eq. split; by intros [? ?].
    + rewrite !lookup_delete_ne by done. apply Hdom.
  - intros q0 t0. destruct (decide (q0 = q)) as [->|Hne].
    + by rewrite lookup_delete_eq.
    + rewrite lookup_delete_ne by done. intros H0.
      destruct (Hq _ _ H0) as [n0 Hok]. exists n0.
      eapply queue_at_frame; [done| |].
      * intros p Hp. apply Hframe. intros Hin. by apply (Hdisj q0 q t0 t Hne H0 Hqt p).
      * rewrite Hobjs. by rewrite lookup_delete_ne.
  - intros q1 q2 t1 t2 Hne H1 H2.
    apply lookup_delete_Some in H1 as [_ H1]. apply lookup_delete_Some in H2 as [_ H2].
    by apply (Hdisj q1 q2).
Qed.

Lemma owns_safe_lookup s owns q o :
  owns_safe s owns → objs s !! q = Some o →
  ∃ t, owns !! q = Some t ∧ queue_at s q t (raw_size_ o).
Proof.
  intros (Hdom & Hq & _) Ho.
  destruct (proj2 (Hdom q) (mk_is_Some _ _ Ho)) as [t Ht].
  exists t. split; [done|]. destruct (Hq _ _ Ht) as [n Hn].
  pose proof Hn as (Ho' & _). rewrite Ho in Ho'. by injection Ho' as ->.
Qed.

Lemma owns_safe_others s owns q t :
  owns_safe s owns → owns !! q = Some t →
  ∀ q' t'', q' ≠ q → owns !! q' = Some t'' → ∀ p, p ∈ locs t'' → p ∉ locs t.
Proof. intros (_ & _ & Hdisj) Hq q' t'' Hne Hq'. by apply (Hdisj q' q). Qed.

(** The invariant only looks at the nodes and the queue objects. *)
Lemma world_safe_same s s' :
  mem s' = mem s → objs s' = objs s → world_safe s → world_safe s'.
Proof.
  intros Hm Ho [owns (Hdom & Hq & Hdisj)]. exists owns. split_and!; [ | |done].
  - intros q. by rewrite Ho.
  - intros q t Ht. destruct (Hq q t Ht) as [n Hn]. exists n.
    eapply queue_at_frame; [done| |by rewrite Ho]. intros p _. by rewrite Hm.
Qed.

Lemma safe_default s q :
  world_safe s → finished (pq_default q s).1 → world_safe (pq_default q s).2.
Proof.
  intros [owns Hw] Hfin. unfold pq_default in *.
  destruct (objs s !! q) as [o|] eqn:Hq.
  { by rewrite (construct_live _ _ _ Hq) in Hfin. }
  rewrite (construct_fresh _ _ Hq). cbn [snd].
  exists (<[q := Leaf]> owns).
  apply (owns_safe_update s _ owns q Leaf 0 []); try done.
  - intros q' t'' _ _ p _. by intros ?%elem_of_nil.
  - unfold queue_at. split_and!; try done; [|constructor].
    simpl. by rewrite lookup_insert_eq.
  - by intros p ?%elem_of_nil.
  - intros q' Hne. simpl. by rewrite lookup_insert_ne.
Qed.

Lemma safe_assign fuel s c a :
  world_safe s → size (mem s) ≤ fuel →
  finished (pq_assign fuel c a s).1 → world_safe (pq_assign fuel c a s).2.
Proof.
  intros [owns Hw] Hf Hfin.
  destruct (objs s !! c) as [oc|] eqn:Hoc.
  2:{ by rewrite (pq_assign_dead_l fuel s c a Hoc) in Hfin. }
  destruct (objs s !! a) as [oa|] eqn:Hoa.
  2:{ by rewrite (pq_assign_dead_r fuel s c a oc Hoc Hoa) in Hfin. }
  destruct (owns_safe_lookup _ _ _ _ Hw Hoc) as (tc & Htc & Hqc).
  destruct (owns_safe_lookup _ _ _ _ Hw Hoa) as (ta & Hta & Hqa).
  destruct (decide (root oc = root oa)) as [Heq|Hne].
  { rewrite (pq_assign_same_root fuel s c a oc oa Hoc Hoa Heq). by exists owns. }
  assert (c ≠ a) as Hca by (intros ->; congruence).
  pose proof Hqc as (Hoc' & _). pose proof Hqa as (Hoa' & _).
  rewrite Hoc in Hoc'. rewrite Hoa in Hoa'.
  destruct oc as [rc nc], oa as [ra na]. cbn [root raw_size_] in *.
  injection Hoc' as ->. injection Hoa' as ->.
  destruct (ptr ta) as [op|] eqn:Hpa.
  2:{ by rewrite (pq_assign_null_source fuel s c a tc _ _ Hqc Hne Hoa eq_refl
                    (queue_at_fuel _ _ _ _ _ Hqc Hf)) in Hfin. }
  assert (∀ p, p ∈ locs tc → p ∉ locs ta) as Hdisj.
  { destruct Hw as (_ & _ & Hd). by apply (Hd c a). }
  destruct (pq_assign_spec fuel s c a tc ta _ _ Hca Hqc Hqa Hdisj)
    as (s1 & t' & Hrun1 & Hqc1 & Hqa1 & Hsh & Hd1 & Hfoot & Hobjs & Hframe & _);
    [by rewrite Hpa|by eapply queue_at_fuel|by eapply queue_at_fuel|].
  rewrite Hrun1. cbn [snd].
  exists (<[c := t']> owns).
  eapply (owns_safe_update s s1 owns c t' _ (locs tc)); try done.
  - by eapply owns_safe_others.
  - intros p Hp Hal. destruct (decide (p ∈ locs t')) as [Hin|Hn]; [|by apply Hframe].
    destruct (Hfoot p Hin) as [?|Hnone]; [done|]. destruct Hal as [? ?]. congruence.
Qed.

Lemma safe_copy fuel s c a :
  world_safe s → size (mem s) ≤ fuel →
  finished (pq_copy fuel c a s).1 → world_safe (pq_copy fuel c a s).2.
Proof.
  intros Hw Hf Hfin. rewrite pq_copy_eq in Hfin |- *.
  destruct (objs s !! c) as [oc|] eqn:Hoc.
  { by rewrite (bind_UB _ _ _ _ (construct_live _ _ _ Hoc)) in Hfin. }
  pose proof (safe_default s c Hw) as Hd. unfold pq_default in Hd.
  rewrite (construct_fresh _ _ Hoc) in Hd. cbn [fst snd] in Hd.
  rewrite (bind_Val _ _ _ _ _ (construct_fresh _ _ Hoc)) in Hfin |- *.
  by apply safe_assign; [apply Hd| |].
Qed.

Lemma safe_destroy fuel s q :
  world_safe s → size (mem s) ≤ fuel →
  finished (pq_destroy fuel q s).1 → world_safe (pq_destroy fuel q s).2.
Proof.
  intros [owns Hw] Hf Hfin.
  destruct (objs s !! q) as [o|] eqn:Hq.
  2:{ by rewrite (pq_destroy_dead fuel s q Hq) in Hfin. }
  destruct (owns_safe_lookup _ _ _ _ Hw Hq) as (t & Ht & Hqt).
  destruct (pq_destroy_spec fuel s q t _ Hqt (queue_at_fuel _ _ _ _ _ Hqt Hf))
    as (s1 & Hrun1 & _ & Hframe & Hobjs).
  rewrite Hrun1. cbn [snd].
  exists (delete q owns). by eapply owns_safe_delete.
Qed.

Lemma safe_push s q e :
  world_safe s → finished (pq_push q e s).1 → world_safe (pq_push q e s).2.
Proof.
  intros Hw0 Hfin. pose proof Hw0 as [owns Hw].
  destruct (objs s !! q) as [o|] eqn:Hq.
  2:{ by rewrite (pq_push_dead s q e Hq) in Hfin. }
  destruct (owns_safe_lookup _ _ _ _ Hw Hq) as (t & Ht & Hqt).
  pose proof (pq_push_spec s q t _ e Hqt) as H.
  destruct (pq_push q e s) as [[[]|x| |] s'] eqn:Hrun; [| |done..]; cbn [snd].
  2:{ destruct H as (_ & Hm & Ho). by apply (world_safe_same s). }
  destruct H as (t' & Hq' & Hobjs & Hl & He & Hho & Hframe).
  exists (<[q := t']> owns).
  eapply (owns_safe_update s s' owns q t' _ (locs t)); try done.
  - by eapply owns_safe_others.
  - intros p Hp. rewrite Hl in Hp. apply elem_of_app in Hp as [?|Hp]; [by left|right].
    apply list_elem_of_singleton in Hp as ->. apply fresh_unallocated.
  - intros p Hp Hal. apply Hframe. intros [?|Hin]%elem_of_app; [done|].
    apply list_elem_of_singleton in Hin as ->.
    destruct Hal as [x Hx]. by rewrite fresh_unallocated in Hx.
  - intros q' Hne. rewrite Hobjs. by rewrite lookup_insert_ne.
Qed.

Lemma safe_pop fuel s q :
  world_safe s → size (mem s) ≤ fuel →
  finished (pq_pop fuel q s).1 → world_safe (pq_pop fuel q s).2.
Proof.
  intros Hw0 Hf Hfin. pose proof Hw0 as [owns Hw].
  destruct (objs s !! q) as [o|] eqn:Hq.
  2:{ by rewrite (pq_pop_dead fuel s q Hq) in Hfin. }
  destruct (owns_safe_lookup _ _ _ _ Hw Hq) as (t & Ht & Hqt).
  pose proof (pq_pop_spec fuel s q t _ Hqt (queue_at_fuel _ _ _ _ _ Hqt Hf)) as H.
  destruct (pq_pop fuel q s) as [[[]|x| |] s'] eqn:Hrun; [| |done..]; cbn [snd].
  - destruct H as (rp & v & c & t' & -> & Hq' & Hobjs & Hl & He & Hho & Hgone & Hframe).
    exists (<[q := t']> owns).
    eapply (owns_safe_update s s' owns q t' _ (locs (Bin rp v c Leaf))); try done.
    + by eapply owns_safe_others.
    + intros p Hp. left. rewrite Hl in Hp. simpl. set_solver.
    + intros p Hp _. by apply Hframe.
    + intros q' Hne. rewrite Hobjs. by rewrite lookup_insert_ne.
  - destruct H as [(_ & _ & ->)|(_ & _ & t' & Hq' & Hp' & Hsub & Hframe & Hdom & Hobjs)];
      [done|].
    exists (<[q := t']> owns).
    eapply (owns_safe_update s s' owns q t' _ (locs t)); try done.
    + by eapply owns_safe_others.
    + intros p Hp. left. by apply Hsub.
    + intros p Hp _. by apply Hframe.
    + intros q' Hne. by rewrite Hobjs.
Qed.

(** A queue merged into itself, whatever the call's outcome. *)
Lemma pq_merge_self_outcome s a t n :
  queue_at s a t n →
  match pq_merge a a s with
  | (Val _, s') =>
      objs s' = <[a := PriorityQueue None 0]> (objs s) ∧
      (∀ p, p ∉ locs t → mem s' !! p = mem s !! p)
  | (Exn _, s') => mem s' = mem s ∧ objs s' = objs s
  | (UB, _) | (OutOfFuel, _) => False
  end.
Proof.
  intros (Ho & Hr & _). unfold pq_merge.
  rewrite (bind_Val _ _ _ _ _ (get_root_Some _ _ _ Ho)).
  rewrite (bind_Val _ _ _ _ _ (get_root_Some _ _ _ Ho)). cbn [root].
  destruct t as [|rp v c sb]; cbn [ptr].
  - rewrite (bind_Val _ _ _ _ _ (meld_nodes_None_l _ _)).
    by rewrite (pq_merge_self_tail s a _ None Ho).
  - destruct Hr as (Hrp & _).
    destruct (Compare (cst s) v v) as [[e|r] c'] eqn:Hc.
    + by rewrite (bind_Exn _ _ _ _ _ (meld_nodes_throw _ _ _ _ _ _ _ Hrp Hrp Hc)).
    + rewrite (bind_Val _ _ _ _ _ (meld_nodes_self _ _ _ _ _ Hrp Hc)).
      erewrite pq_merge_self_tail by done. split; [done|].
      intros p Hp. simpl. rewrite lookup_insert_ne; [done|].
      intros ->. apply Hp. simpl. apply elem_of_cons. by left.
Qed.

Lemma safe_merge s a b :
  world_safe s → finished (pq_merge a b s).1 → world_safe (pq_merge a b s).2.
Proof.
  intros Hw0 Hfin. pose proof Hw0 as [owns Hw].
  destruct (objs s !! a) as [oa|] eqn:Hoa.
  2:{ by rewrite (pq_merge_dead_l s a b Hoa) in Hfin. }
  destruct (objs s !! b) as [ob|] eqn:Hob.
  2:{ by rewrite (pq_merge_dead_r s a b oa Hoa Hob) in Hfin. }
  destruct (owns_safe_lookup _ _ _ _ Hw Hoa) as (ta & Hta & Hqa).
  destruct (owns_safe_lookup _ _ _ _ Hw Hob) as (tb & Htb & Hqb).
  destruct (decide (a = b)) as [->|Hab].
  - pose proof (pq_merge_self_outcome s b ta _ Hqa) as H.
    destruct (pq_merge b b s) as [[[]|x| |] s'] eqn:Hrun; [| |done..]; cbn [snd].
    2:{ destruct H as [Hm Ho]. by apply (world_safe_same s). }
    destruct H as (Hobjs & Hframe).
    exists (<[b := Leaf]> owns).
    apply (owns_safe_update s s' owns b Leaf 0 (locs ta)); try done.
    + by eapply owns_safe_others.
    + unfold queue_at. rewrite Hobjs, lookup_insert_eq.
      split_and!; try done. constructor.
    + by intros p ?%elem_of_nil.
    + intros p Hp _. by apply Hframe.
    + intros q' Hne. rewrite Hobjs. by rewrite lookup_insert_ne.
  - assert (∀ p, p ∈ locs ta → p ∉ locs tb) as Hdisj.
    { destruct Hw as (_ & _ & Hd). by apply (Hd a b). }
    pose proof (pq_merge_spec s a b ta tb _ _ Hab Hqa Hqb Hdisj) as H.
    destruct (pq_merge a b s) as [[[]|x| |] s'] eqn:Hrun; [| |done..]; cbn [snd].
    2:{ destruct H as (_ & Hm & Ho). by apply (world_safe_same s). }
    destruct H as (t' & Hqa' & Hqb' & Hobjs & Hl & He & Hho & Hframe & _).
    set (smid := with_objs (<[b := PriorityQueue None 0]> (objs s)) s).
    assert (owns_safe smid (<[b := Leaf]> owns)) as Hmid.
    { apply (owns_safe_update s smid owns b Leaf 0 (locs tb)); try done.
      - by eapply owns_safe_others.
      - unfold queue_at. split_and!; try done; [|constructor].
        simpl. by rewrite lookup_insert_eq.
      - by intros p ?%elem_of_nil.
      - intros q' Hne. simpl. by rewrite lookup_insert_ne. }
    exists (<[a := t']> (<[b := Leaf]> owns)).
    eapply (owns_safe_update smid s' _ a t' _ (locs ta ++ locs tb)); try done.
    + intros q' t'' Hne Hq' p Hp Hin.
      destruct (decide (q' = b)) as [->|Hnb].
      * rewrite lookup_insert_eq in Hq'. injection Hq' as <-. by apply elem_of_nil in Hp.
      * rewrite lookup_insert_ne in Hq' by done.
        apply elem_of_app in Hin as [Hin|Hin].
        -- by apply (owns_safe_others _ _ _ _ Hw Hta q' t'' Hne Hq' p).
        -- by apply (owns_safe_others _ _ _ _ Hw Htb q' t'' Hnb Hq' p).
    + intros p Hp. left. by rewrite <- Hl.
    + intros p Hp _. by apply Hframe.
    + intros q' Hne. destruct (decide (q' = b)) as [->|Hnb].
      * destruct Hqb' as (-> & _). simpl. by rewrite lookup_insert_eq.
      * rewrite Hobjs by done. simpl. by rewrite lookup_insert_ne.
Qed.

Lemma bind_ret_snd {A B} (m : M A) (f : A → B) s :
  (bind m (λ a, ret (f a)) s).2 = (m s).2.
Proof. unfold bind, ret. by destruct (m s) as [[a|x| |] s1]. Qed.

Lemma bind_ret_finished {A B} (m : M A) (f : A → B) s :
  finished (bind m (λ a, ret (f a)) s).1 ↔ finished (m s).1.
Proof. unfold bind, ret. by destruct (m s) as [[a|x| |] s1]. Qed.

(** Every call that returns or throws keeps every live queue on a tree of
    its own. *)
Lemma safe_exec fuel o s :
  world_safe s → size (mem s) ≤ fuel →
  finished (exec fuel o s).1 → world_safe (exec fuel o s).2.
Proof.
  intros Hw Hf Hfin.
  destruct o; cbn [exec] in *; rewrite bind_ret_snd; apply bind_ret_finished in Hfin.
  - by apply safe_default.
  - by apply safe_copy.
  - by apply safe_assign.
  - by apply safe_destroy.
  - by rewrite pq_top_state.
  - by apply safe_push.
  - by apply safe_pop.
  - by rewrite pq_size_state.
  - by rewrite pq_empty_state.
  - by apply safe_merge.
Qed.

Lemma reachable_any_safe s : reachable_any s → world_safe s.
Proof.
  intros Hreach. induction Hreach as [c|s fuel o _ IH Hf Hfin].
  - exists ∅. split_and!.
    + intros q. simpl. rewrite !lookup_empty. done.
    + intros q t. by rewrite lookup_empty.
    + intros q1 q2 t1 t2 _. by rewrite lookup_empty.
  - by apply safe_exec.
Qed.

(** X19.  A [pop] that fails, on a queue that owns a tree and with fuel
    for its nodes: either the queue is empty, the exception is
    [container_is_empty] and nothing has changed; or the exception is
    [runtime_error], and then no node has been allocated or released, the
    queue object still holds the same root and the same count, only nodes
    of the queue's own tree may have been rewritten, and the root heads a
    tree without sharing made of nodes of the old tree. *)
Theorem failed_pop_keeps_a_tree fuel s q t n x s' :
  queue_at s q t n → nodes t ≤ fuel → pq_pop fuel q s = (Exn x, s') →
  (x = container_is_empty ∧ t = Leaf ∧ s' = s) ∨
  (x = runtime_error ∧ t ≠ Leaf ∧
   ∃ t', queue_at s' q t' n ∧ ptr t' = ptr t ∧ locs t' ⊆ locs t ∧
         (∀ p, p ∉ locs t → mem s' !! p = mem s !! p) ∧
         dom (mem s') = dom (mem s) ∧ objs s' = objs s).
Proof.
  intros Hq Hf Hrun. pose proof (pq_pop_spec fuel s q t n Hq Hf) as H.
  rewrite Hrun in H. destruct H as [H|(Hx & Ht & t' & Hq' & Hp & Hsub & Htch)]; [by left|].
  right. split_and!; [done..|]. exists t'. destruct Htch as (? & ? & ?). by split_and!.
Qed.

(** X20.  Memory safety, for any comparator.  In every state reached
    through calls of the public interface that returned or threw, every
    live queue owns a tree without sharing that has no node in common with
    another live queue's tree.  On such a queue [top] is not undefined,
    [push], [pop] (with fuel for the store) and [merge] with a live queue
    return or throw, and the destructor returns. *)
Theorem memory_safe_after_throws s q o :
  reachable_any s → objs s !! q = Some o →
  ∃ t, queue_at s q t (raw_size_ o) ∧
       (∀ q' t' n', q' ≠ q → queue_at s q' t' n' → ∀ p, p ∈ locs t → p ∉ locs t') ∧
       finished (pq_top q s).1 ∧
       (∀ e, finished (pq_push q e s).1) ∧
       (∀ fuel, size (mem s) ≤ fuel → finished (pq_pop fuel q s).1) ∧
       (∀ q' o', objs s !! q' = Some o' → finished (pq_merge q q' s).1) ∧
       (∀ fuel, size (mem s) ≤ fuel → (pq_destroy fuel q s).1 = Val tt).
Proof.
  intros Hreach Ho.
  destruct (reachable_any_safe s Hreach) as [owns Hw].
  destruct (owns_safe_lookup _ _ _ _ Hw Ho) as (t & Ht & Hq).
  exists t. split_and!; [done|..].
  - intros q' t' n' Hne Hq' p Hp Hp'.
    pose proof Hq' as (Hoq' & Hr' & _).
    destruct (owns_safe_lookup _ _ _ _ Hw Hoq') as (t0 & Ht0 & (Ho0 & Hr0 & _)).
    rewrite Hoq' in Ho0. simpl in Ho0. injection Ho0 as Hptr.
    assert (t' = t0) as -> by (by eapply repr_inj).
    destruct Hw as (_ & _ & Hd). by apply (Hd q q' t t0 (not_eq_sym Hne) Ht Ht0 p).
  - pose proof Hq as (Ho' & _ & _ & Hroot).
    destruct (ptr t) as [p|] eqn:Hp.
    + destruct (rooted_Bin_inv t p Hp Hroot) as (v & c & ->).
      by rewrite (pq_top_queue_at s q p v c _ Hq).
    + by rewrite (pq_top_empty s q _ Ho' eq_refl).
  - intros e. pose proof (pq_push_spec s q t _ e Hq) as H.
    by destruct (pq_push q e s) as [[[]|x| |] s'].
  - intros fuel Hf.
    pose proof (pq_pop_spec fuel s q t _ Hq (queue_at_fuel _ _ _ _ _ Hq Hf)) as H.
    by destruct (pq_pop fuel q s) as [[[]|x| |] s'].
  - intros q' o' Ho'. destruct (decide (q = q')) as [<-|Hne].
    + pose proof (pq_merge_self_outcome s q t _ Hq) as H.
      by destruct (pq_merge q q s) as [[[]|x| |] s'].
    + destruct (owns_safe_lookup _ _ _ _ Hw Ho') as (t' & Ht' & Hq').
      assert (∀ p, p ∈ locs t → p ∉ locs t') as Hdisj.
      { destruct Hw as (_ & _ & Hd). by apply (Hd q q'). }
      pose proof (pq_merge_spec s q q' t t' _ _ Hne Hq Hq' Hdisj) as H.
      by destruct (pq_merge q q' s) as [[[]|x| |] s'].
  - intros fuel Hf.
    destruct (pq_destroy_spec fuel s q t _ Hq (queue_at_fuel _ _ _ _ _ Hq Hf))
      as (s1 & -> & _).
    done.
Qed.


(** ** No leak *)

Lemma queue_at_inj s q t t' n n' : queue_at s q t n → queue_at s q t' n' → t = t'.
Proof.
  intros (Ho & Hr & _) (Ho' & Hr' & _). rewrite Ho in Ho'. injection Ho' as Hp _.
  by eapply repr_inj.
Qed.

Lemma world_safe_queue s q o :
  world_safe s → objs s !! q = Some o → ∃ t, queue_at s q t (raw_size_ o).
Proof.
  intros [owns Hw] Ho. destruct (owns_safe_lookup _ _ _ _ Hw Ho) as (t & _ & Hq). eauto.
Qed.

Lemma world_safe_disjoint s q q' t t' n n' :
  world_safe s → q ≠ q' → queue_at s q t n → queue_at s q' t' n' →
  ∀ p, p ∈ locs t → p ∉ locs t'.
Proof.
  intros [owns Hw] Hne Hq Hq'.
  pose proof Hq as (Ho & _). pose proof Hq' as (Ho' & _).
  destruct (owns_safe_lookup _ _ _ _ Hw Ho) as (t0 & Ht0 & Hq0).
  destruct (owns_safe_lookup _ _ _ _ Hw Ho') as (t1 & Ht1 & Hq1).
  rewrite (queue_at_inj _ _ _ _ _ _ Hq Hq0), (queue_at_inj _ _ _ _ _ _ Hq' Hq1).
  destruct Hw as (_ & _ & Hd). by apply (Hd q q').
Qed.

(** A call on queue [q] that leaves alone what is allocated outside the
    tree of [q] leaves the other queues their trees. *)
Lemma others_keep s s' q t n :
  world_safe s → queue_at s q t n →
  (∀ p, p ∉ locs t → is_Some (mem s !! p) → mem s' !! p = mem s !! p) →
  (∀ q', q' ≠ q → objs s' !! q' = objs s !! q') →
  ∀ q0 t0 n0 p, queue_at s q0 t0 n0 → p ∈ locs t0 → p ∉ locs t →
    queue_at s' q0 t0 n0.
Proof.
  intros Hw Hq Hframe Hobjs q0 t0 n0 p Hq0 Hp0 Hp.
  assert (q0 ≠ q) as Hne.
  { intros ->. by rewrite (queue_at_inj _ _ _ _ _ _ Hq0 Hq) in Hp0. }
  eapply queue_at_frame; [done| |by apply Hobjs].
  intros p' Hp'. apply Hframe.
  - by apply (world_safe_disjoint s q0 q t0 t n0 n).
  - destruct Hq0 as (_ & Hr0 & _). by eapply repr_dom.
Qed.

Lemma leak_free_step s s' (F : list loc) :
  leak_free s →
  (∀ p, is_Some (mem s' !! p) →
     (∃ q t n, queue_at s' q t n ∧ p ∈ locs t) ∨ (is_Some (mem s !! p) ∧ p ∉ F)) →
  (∀ q0 t0 n0 p, queue_at s q0 t0 n0 → p ∈ locs t0 → p ∉ F → queue_at s' q0 t0 n0) →
  leak_free s'.
Proof.
  intros Hl Hdom Hoth p Hal. destruct (Hdom p Hal) as [?|[Hal0 HpF]]; [done|].
  destruct (Hl p Hal0) as (q0 & t0 & n0 & Hq0 & Hp0).
  exists q0, t0, n0. split; [|done]. by eapply Hoth.
Qed.

Lemma leak_free_default s q s' :
  leak_free s → pq_default q s = (Val tt, s') → leak_free s'.
Proof.
  intros Hl Hrun. unfold pq_default in Hrun.
  destruct (objs s !! q) as [o|] eqn:Hq.
  { by rewrite (construct_live _ _ _ Hq) in Hrun. }
  rewrite (construct_fresh _ _ Hq) in Hrun. injection Hrun as <-.
  apply (leak_free_step s _ []); [done| |].
  { intros p Hal. right. split; [done|]. by intros ?%elem_of_nil. }
  intros q0 t0 n0 p Hq0 _ _. eapply queue_at_frame; [done|done|].
  simpl. rewrite lookup_insert_ne; [done|]. intros <-. destruct Hq0 as (? & _). congruence.
Qed.

Lemma leak_free_assign fuel s c a s' :
  world_safe s → leak_free s → size (mem s) ≤ fuel →
  pq_assign fuel c a s = (Val tt, s') → leak_free s'.
Proof.
  intros Hw Hl Hf Hrun.
  destruct (objs s !! c) as [oc|] eqn:Hoc.
  2:{ pose proof (pq_assign_dead_l fuel s c a Hoc) as H. by rewrite Hrun in H. }
  destruct (objs s !! a) as [oa|] eqn:Hoa.
  2:{ pose proof (pq_assign_dead_r fuel s c a oc Hoc Hoa) as H. by rewrite Hrun in H. }
  destruct (decide (root oc = root oa)) as [Heq|Hne].
  { rewrite (pq_assign_same_root fuel s c a oc oa Hoc Hoa Heq) in Hrun. by injection Hrun as <-. }
  assert (c ≠ a) as Hca by (intros ->; congruence).
  destruct (world_safe_queue _ _ _ Hw Hoc) as (tc & Hqc).
  destruct (world_safe_queue _ _ _ Hw Hoa) as (ta & Hqa).
  pose proof Hqc as (Hoc' & _). pose proof Hqa as (Hoa' & _).
  rewrite Hoc in Hoc'. rewrite Hoa in Hoa'.
  destruct oc as [rc nc], oa as [ra na]. cbn [root raw_size_] in *.
  injection Hoc' as ->. injection Hoa' as ->.
  destruct (ptr ta) as [op|] eqn:Hpa.
  2:{ pose proof (pq_assign_null_source fuel s c a tc _ _ Hqc Hne Hoa eq_refl
                    (queue_at_fuel _ _ _ _ _ Hqc Hf)) as H.
      by rewrite Hrun in H. }
  pose proof (world_safe_disjoint s c a tc ta _ _ Hw Hca Hqc Hqa) as Hdisj.
  assert (ptr ta ≠ None) as Hsrc by (by rewrite Hpa).
  pose proof (queue_at_fuel _ _ _ _ _ Hqc Hf) as Hfc.
  pose proof (queue_at_fuel _ _ _ _ _ Hqa Hf) as Hfa.
  destruct (pq_assign_spec fuel s c a tc ta _ _ Hca Hqc Hqa Hdisj Hsrc Hfc Hfa)
    as (s1 & t' & Hrun1 & Hqc1 & _ & _ & _ & Hfoot & Hobjs & Hframe & _).
  destruct (pq_assign_domain fuel s c a tc ta _ _ Hca Hqc Hqa Hdisj Hsrc Hfc Hfa)
    as (s2 & t2 & Hrun2 & Hqc2 & _ & Hdom).
  rewrite Hrun in Hrun1, Hrun2. injection Hrun1 as <-. injection Hrun2 as <-.
  rewrite <- (queue_at_inj _ _ _ _ _ _ Hqc1 Hqc2) in Hdom.
  apply (leak_free_step s s' (locs tc)); [done| |].
  - intros p Hal. apply Hdom in Hal as [Hin|Hold]; [left; by eauto|by right].
  - apply (others_keep s s' c tc _ Hw Hqc); [|done].
    intros p Hp Hal. apply Hframe; [done|]. intros Hin.
    destruct (Hfoot p Hin) as [?|Hnone]; [done|]. destruct Hal as [? ?]. congruence.
Qed.

Lemma leak_free_copy fuel s c a s' :
  world_safe s → leak_free s → size (mem s) ≤ fuel →
  pq_copy fuel c a s = (Val tt, s') → leak_free s'.
Proof.
  intros Hw Hl Hf Hrun. rewrite pq_copy_eq in Hrun.
  apply bind_Val_inv in Hrun as ([] & s1 & Hc & Hrun).
  assert (mem s1 = mem s) as Hm.
  { unfold construct in Hc. destruct (objs s !! c); [done|]. by injection Hc as <-. }
  apply (leak_free_assign fuel s1 c a s'); [|by eapply leak_free_default|by rewrite Hm|done].
  pose proof (safe_default s c Hw) as Hd. unfold pq_default in Hd. rewrite Hc in Hd.
  by apply Hd.
Qed.

Lemma leak_free_destroy fuel s q s' :
  world_safe s → leak_free s → size (mem s) ≤ fuel →
  pq_destroy fuel q s = (Val tt, s') → leak_free s'.
Proof.
  intros Hw Hl Hf Hrun.
  destruct (objs s !! q) as [o|] eqn:Hq.
  2:{ pose proof (pq_destroy_dead fuel s q Hq) as H. by rewrite Hrun in H. }
  destruct (world_safe_queue _ _ _ Hw Hq) as (t & Hqt).
  destruct (pq_destroy_spec fuel s q t _ Hqt (queue_at_fuel _ _ _ _ _ Hqt Hf))
    as (s1 & Hrun1 & Hgone & Hframe & Hobjs).
  rewrite Hrun1 in Hrun. injection Hrun as <-.
  apply (leak_free_step s s1 (locs t)); [done| |].
  - intros p Hal. right. destruct (decide (p ∈ locs t)) as [Hin|Hn].
    + rewrite (Hgone p Hin) in Hal. by destruct Hal.
    + by rewrite <- (Hframe p Hn).
  - apply (others_keep s s1 q t _ Hw Hqt).
    + intros p Hp _. by apply Hframe.
    + intros q' Hne. rewrite Hobjs. by rewrite lookup_delete_ne.
Qed.

Lemma leak_free_push s q e s' :
  world_safe s → leak_free s → pq_push q e s = (Val tt, s') → leak_free s'.
Proof.
  intros Hw Hl Hrun.
  destruct (objs s !! q) as [o|] eqn:Hq.
  2:{ pose proof (pq_push_dead s q e Hq) as H. by rewrite Hrun in H. }
  destruct (world_safe_queue _ _ _ Hw Hq) as (t & Hqt).
  pose proof (pq_push_spec s q t _ e Hqt) as H. rewrite Hrun in H.
  destruct H as (t' & Hq' & Hobjs & Hlocs & _ & _ & Hframe).
  apply (leak_free_step s s' (locs t)); [done| |].
  - intros p Hal. destruct (decide (p ∈ locs t')) as [Hin|Hn]; [left; by eauto|right].
    rewrite Hlocs in Hn. rewrite (Hframe p Hn) in Hal. split; [done|].
    intros Hin. apply Hn, elem_of_app. by left.
  - apply (others_keep s s' q t _ Hw Hqt).
    + intros p Hp Hal. apply Hframe. intros [?|Hin]%elem_of_app; [done|].
      apply list_elem_of_singleton in Hin as ->.
      destruct Hal as [x Hx]. by rewrite fresh_unallocated in Hx.
    + intros q' Hne. rewrite Hobjs. by rewrite lookup_insert_ne.
Qed.

Lemma leak_free_pop fuel s q s' :
  world_safe s → leak_free s → size (mem s) ≤ fuel →
  pq_pop fuel q s = (Val tt, s') → leak_free s'.
Proof.
  intros Hw Hl Hf Hrun.
  destruct (objs s !! q) as [o|] eqn:Hq.
  2:{ pose proof (pq_pop_dead fuel s q Hq) as H. by rewrite Hrun in H. }
  destruct (world_safe_queue _ _ _ Hw Hq) as (t & Hqt).
  pose proof (pq_pop_spec fuel s q t _ Hqt (queue_at_fuel _ _ _ _ _ Hqt Hf)) as H.
  rewrite Hrun in H.
  destruct H as (rp & v & c & t' & -> & Hq' & Hobjs & Hlocs & _ & _ & Hgone & Hframe).
  apply (leak_free_step s s' (locs (Bin rp v c Leaf))); [done| |].
  - intros p Hal. destruct (decide (p ∈ locs t')) as [Hin|Hn]; [left; by eauto|right].
    assert (p ∉ locs (Bin rp v c Leaf)) as Hout.
    { simpl. rewrite app_nil_r. intros [->|Hin]%elem_of_cons.
      - rewrite Hgone in Hal. by destruct Hal.
      - apply Hn. by rewrite Hlocs. }
    by rewrite <- (Hframe p Hout).
  - apply (others_keep s s' q _ _ Hw Hqt).
    + intros p Hp _. by apply Hframe.
    + intros q' Hne. rewrite Hobjs. by rewrite lookup_insert_ne.
Qed.

Lemma leak_free_merge s a b s' :
  world_safe s → leak_free s → a ≠ b →
  pq_merge a b s = (Val tt, s') → leak_free s'.
Proof.
  intros Hw Hl Hab Hrun.
  destruct (objs s !! a) as [oa|] eqn:Hoa.
  2:{ pose proof (pq_merge_dead_l s a b Hoa) as H. by rewrite Hrun in H. }
  destruct (objs s !! b) as [ob|] eqn:Hob.
  2:{ pose proof (pq_merge_dead_r s a b oa Hoa Hob) as H. by rewrite Hrun in H. }
  destruct (world_safe_queue _ _ _ Hw Hoa) as (ta & Hqa).
  destruct (world_safe_queue _ _ _ Hw Hob) as (tb & Hqb).
  pose proof (world_safe_disjoint s a b ta tb _ _ Hw Hab Hqa Hqb) as Hdisj.
  pose proof (pq_merge_spec s a b ta tb _ _ Hab Hqa Hqb Hdisj) as H.
  rewrite Hrun in H.
  destruct H as (t' & Hqa' & _ & Hobjs & Hlocs & _ & _ & Hframe & Hdom).
  apply (leak_free_step s s' (locs ta ++ locs tb)); [done| |].
  - intros p Hal. destruct (decide (p ∈ locs t')) as [Hin|Hn]; [left; by eauto|right].
    rewrite Hlocs in Hn. split; [|done].
    apply elem_of_dom. rewrite <- Hdom. by apply elem_of_dom.
  - intros q0 t0 n0 p Hq0 Hp0 Hp.
    assert (q0 ≠ a) as Hna.
    { intros ->. rewrite (queue_at_inj _ _ _ _ _ _ Hq0 Hqa) in Hp0.
      apply Hp, elem_of_app. by left. }
    assert (q0 ≠ b) as Hnb.
    { intros ->. rewrite (queue_at_inj _ _ _ _ _ _ Hq0 Hqb) in Hp0.
      apply Hp, elem_of_app. by right. }
    eapply queue_at_frame; [done| |by apply Hobjs].
    intros p' Hp'. apply Hframe. intros [Hin|Hin]%elem_of_app.
    + by apply (world_safe_disjoint s q0 a t0 ta n0 _ Hw Hna Hq0 Hqa p').
    + by apply (world_safe_disjoint s q0 b t0 tb n0 _ Hw Hnb Hq0 Hqb p').
Qed.

Lemma reachable_unmerged_any s : reachable_unmerged s → reachable_any s.
Proof.
  intros Hreach. induction Hreach as [c|s fuel o a s' _ IH Hf _ Hrun]; [constructor|].
  pose proof (reachable_any_step s fuel o IH Hf) as H. rewrite Hrun in H. by apply H.
Qed.

Lemma reachable_unmerged_leak_free s : reachable_unmerged s → leak_free s.
Proof.
  intros Hreach. induction Hreach as [c|s fuel o a s' Hreach IH Hf Hself Hrun].
  { intros p [x Hx]. simpl in Hx. by rewrite lookup_empty in Hx. }
  pose proof (reachable_any_safe s (reachable_unmerged_any s Hreach)) as Hw.
  destruct o; cbn [exec self_merge] in *;
    apply bind_Val_inv in Hrun as (r & s1 & Hrun & Hret);
    injection Hret as _ <-.
  - destruct r. by eapply leak_free_default.
  - destruct r. by eapply leak_free_copy.
  - destruct r. by eapply leak_free_assign.
  - destruct r. by eapply leak_free_destroy.
  - pose proof (pq_top_state q s) as H. rewrite Hrun in H. simpl in H. by subst.
  - destruct r. by eapply leak_free_push.
  - destruct r. by eapply leak_free_pop.
  - pose proof (pq_size_state q s) as H. rewrite Hrun in H. simpl in H. by subst.
  - pose proof (pq_empty_state q s) as H. rewrite Hrun in H. simpl in H. by subst.
  - destruct r. by eapply leak_free_merge.
Qed.

(** X21.  No leak.  In every state reached through calls of the public
    interface that returned, none of them a merge of a queue into itself,
    and for any comparator, every allocated node belongs to the tree of a
    live queue; so once every queue has been destroyed, no node is left
    allocated. *)
Theorem no_leak_without_self_merge s :
  reachable_unmerged s →
  (∀ p, is_Some (mem s !! p) → ∃ q t n, queue_at s q t n ∧ p ∈ locs t) ∧
  (objs s = ∅ → mem s = ∅).
Proof.
  intros Hreach. pose proof (reachable_unmerged_leak_free s Hreach) as Hl.
  split; [done|]. intros Hempty. apply map_empty. intros p.
  destruct (mem s !! p) as [x|] eqn:Hp; [|done].
  destruct (Hl p (mk_is_Some _ _ Hp)) as (q & t & n & (Ho & _) & _).
  rewrite Hempty, lookup_empty in Ho. done.
Qed.


End PairingHeap.

(** ** Concrete queues and comparators *)

(** [x < y] on [nat], except that comparing 3 with 1 throws. *)
Definition throwing_less (c : unit) (x y : nat) : (unit + bool) * unit :=
  if (Nat.eqb x 3 && Nat.eqb y 1)%bool then (inl tt, c) else (inr (Nat.ltb x y), c).

(** The plain [x < y]. *)
Definition less (c : unit) (x y : nat) : (unit + bool) * unit := (inr (Nat.ltb x y), c).

Definition initial : @state nat unit := State ∅ ∅ tt [].

(** The state a program is in after a call, whatever the call's outcome. *)
Definition after {A} (m : @M nat unit unit A) (s : state) : state := (m s).2.

(** Queue 1 after [push 9; push 1; push 2; push 3]. *)
Definition pushed4 (cmp : unit → nat → nat → (unit + bool) * unit) : state :=
  after (pq_push cmp 1 3)
    (after (pq_push cmp 1 2)
       (after (pq_push cmp 1 1)
          (after (pq_push cmp 1 9)
             (after (pq_default 1) initial)))).

(** Two singleton nodes, 5 at address 1 and 7 at address 2. *)
Definition two_nodes : @state nat unit :=
  State (<[2%positive := PqNode 7 None None]> {[1%positive := PqNode 5 None None]}) ∅ tt [].


(** Queue 1 holding the single element 3. *)
Definition one3 : state :=
  after (pq_push throwing_less 1 3) (after (pq_default 1) initial).

(** Queue 1 holding 5 and 3, queue 2 holding 4. *)
Definition two_queues : state :=
  after (pq_push less 2 4)
    (after (pq_default 2)
       (after (pq_push less 1 3)
          (after (pq_push less 1 5)
             (after (pq_default 1) initial)))).

(** [two_queues] with a third, empty queue. *)
Definition three_queues : state := after (pq_default 3) two_queues.

Definition pushed4_tree : bt :=
  Bin 1 9 (Bin 4 3 Leaf (Bin 3 2 Leaf (Bin 2 1 Leaf Leaf))) Leaf.

(** [top] then [pop], [n] times over; the elements seen on top. *)
Fixpoint drain (n : nat) (q : qid) (s : state) : list nat :=
  match n with
  | O => []
  | S n' =>
      match (@pq_top nat unit unit q s).1 with
      | Val v => v :: drain n' q (after (pq_pop less 20 q) s)
      | _ => []
      end
  end.

(** Queue 1 after the pushes 5, 3, 8, 1, 9 and one pop; queue 2 holding 4
    and 2. *)
Definition scenario : state :=
  after (pq_push less 2 2)
    (after (pq_push less 2 4)
       (after (pq_default 2)
          (after (pq_pop less 20 1)
             (after (pq_push less 1 9)
                (after (pq_push less 1 1)
                   (after (pq_push less 1 8)
                      (after (pq_push less 1 3)
                         (after (pq_push less 1 5)
                            (after (pq_default 1) initial))))))))).

(** Queue 1 after [push 9; push 1; push 3] under [throwing_less]: the
    children of 9 are 3 and 1, in this order. *)
Definition pushed3 : state :=
  after (pq_push throwing_less 1 3)
    (after (pq_push throwing_less 1 1)
       (after (pq_push throwing_less 1 9)
          (after (pq_default 1) initial))).

(** The children of the root of [pushed4_tree]. *)
Definition pushed4_children : bt :=
  Bin 4 3 Leaf (Bin 3 2 Leaf (Bin 2 1 Leaf Leaf)).


(** ** The claims on concrete queues *)

Lemma empty_queue_errors_witness :
  @pq_top nat unit unit 1 (after (pq_default 1) initial)
    = (Exn container_is_empty, after (pq_default 1) initial) ∧
  pq_pop less 5 1 (after (pq_default 1) initial)
    = (Exn container_is_empty, after (pq_default 1) initial) ∧
  @pq_top nat unit unit 1 (pushed4 less) = (Val 9, pushed4 less).
Proof.
  destruct (@empty_queue_errors nat unit unit less) as (H1 & H2 & H3 & H4).
  split_and!.
  - by apply (H1 _ 1%positive (PriorityQueue None 0)).
  - by apply (H2 5 _ 1%positive (PriorityQueue None 0)).
  - by apply (H4 (pushed4 less) 1%positive (PriorityQueue (Some 1%positive) 4)
                1%positive (PqNode 9 (Some 4%positive) None)).
Defined.

Lemma meld_nodes_correct_witness :
  ∃ s', meld_nodes less (Some 1%positive) (Some 2%positive) two_nodes
          = (Val (Some 2%positive), s') ∧
        calls s' = [(5, 7)] ∧ cst s' = tt ∧ objs s' = objs two_nodes ∧
        mem s' !! 1%positive = Some (PqNode 5 None None) ∧
        mem s' !! 2%positive = Some (PqNode 7 (Some 1%positive) None) ∧
        (∀ p, p ≠ 1%positive → p ≠ 2%positive → mem s' !! p = mem two_nodes !! p).
Proof.
  destruct (@meld_nodes_correct nat unit unit less) as (_ & _ & H).
  by apply (H two_nodes 1%positive 2%positive
              (PqNode 5 None None) (PqNode 7 None None) true tt).
Defined.


(** ** The orders of the examples *)

Lemma less_sound : cmp_sound less Nat.ltb.
Proof. intros c x y b c'. unfold less. by intros [= <- _]. Qed.

Lemma throwing_less_sound : cmp_sound throwing_less Nat.ltb.
Proof.
  intros c x y b c'. unfold throwing_less.
  destruct (Nat.eqb x 3 && Nat.eqb y 1)%bool; [done|]. by intros [= <- _].
Qed.

Lemma ltb_asym : lt_asym Nat.ltb.
Proof.
  intros x y H. apply Nat.ltb_lt in H. apply Nat.ltb_ge. lia.
Qed.

Lemma ltb_negtrans : lt_negtrans Nat.ltb.
Proof.
  intros x y z H1 H2. apply Nat.ltb_ge in H1, H2. apply Nat.ltb_ge. lia.
Qed.

Lemma one3_queue : queue_at one3 1 (Bin 1 3 Leaf Leaf) 1.
Proof.
  unfold queue_at.
  split_and!; [by vm_compute|vm_compute; by repeat split|apply NoDup_singleton|done].
Defined.

Lemma push_correct_witness :
  queue_at one3 1 (Bin 1 3 Leaf Leaf) 1 ∧
  throwing_less (cst one3) 3 1 = (inl tt, tt) ∧
  throwing_less (cst one3) 3 7 = (inr true, tt) ∧
  (∃ s', pq_push throwing_less 1 1 one3 = (Exn runtime_error, s') ∧
         mem s' = mem one3 ∧ objs s' = objs one3 ∧
         mem s' !! fresh (dom (mem one3)) = None ∧
         calls s' = (3, 1) :: calls one3) ∧
  (∃ s' t', pq_push throwing_less 1 7 one3 = (Val tt, s') ∧
            queue_at s' 1 t' (size_incr 1) ∧
            elems t' ≡ₚ 7 :: elems (Bin 1 3 Leaf Leaf) ∧
            nodes t' = S (nodes (Bin 1 3 Leaf Leaf)) ∧
            calls s' = (3, 7) :: calls one3 ∧
            @pq_top nat unit unit 1 s' = (Val 7, s')).
Proof.
  assert (throwing_less (cst one3) 3 1 = (inl tt, tt)) as Hthrow by (by vm_compute).
  assert (throwing_less (cst one3) 3 7 = (inr true, tt)) as Hans by (by vm_compute).
  split; [exact one3_queue|]. split; [exact Hthrow|]. split; [exact Hans|]. split.
  - destruct (push_correct throwing_less one3 1 (Bin 1 3 Leaf Leaf) 1 1 one3_queue)
      as (Hout & _ & _ & Hexn).
    destruct (Hexn 1%positive 3 Leaf Leaf tt tt eq_refl Hthrow) as (s' & Hrun & Hcalls & _).
    rewrite Hrun in Hout. destruct Hout as (_ & Hm & Ho & Hfr).
    exists s'. by split_and!.
  - destruct (push_correct throwing_less one3 1 (Bin 1 3 Leaf Leaf) 1 7 one3_queue)
      as (Hout & _ & Hval & _).
    destruct (Hval 1%positive 3 Leaf Leaf true tt eq_refl Hans)
      as (s' & Hrun & Hcalls & _ & Htop).
    rewrite Hrun in Hout. destruct Hout as (t' & Hq & He & Hn).
    exists s', t'. by split_and!.
Defined.

Lemma two_queues_1 : queue_at two_queues 1 (Bin 1 5 (Bin 2 3 Leaf Leaf) Leaf) 2.
Proof.
  unfold queue_at. split_and!; [by vm_compute|vm_compute; by repeat split| |done].
  apply NoDup_cons. split; [|apply NoDup_singleton].
  by intros [=]%list_elem_of_singleton.
Defined.

Lemma two_queues_2 : queue_at two_queues 2 (Bin 3 4 Leaf Leaf) 1.
Proof.
  unfold queue_at.
  split_and!; [by vm_compute|vm_compute; by repeat split|apply NoDup_singleton|done].
Defined.

Lemma two_queues_disjoint p :
  p ∈ locs (Bin 1 5 (Bin 2 3 Leaf Leaf) Leaf) → p ∉ locs (Bin 3 4 Leaf Leaf).
Proof.
  simpl. intros [->|[->|[]%elem_of_nil]%elem_of_cons]%elem_of_cons;
    by intros [=]%list_elem_of_singleton.
Defined.


Lemma three_queues_1 : queue_at three_queues 1 (Bin 1 5 (Bin 2 3 Leaf Leaf) Leaf) 2.
Proof.
  unfold queue_at. split_and!; [by vm_compute|vm_compute; by repeat split| |done].
  apply NoDup_cons. split; [|apply NoDup_singleton].
  by intros [=]%list_elem_of_singleton.
Defined.

Lemma copy_independence_witness :
  ∃ s' t',
    @pq_copy nat unit unit 9 3 1 two_queues = (Val tt, s') ∧
    copied s' 3 1 (Bin 1 5 (Bin 2 3 Leaf Leaf) Leaf) t' 2 ∧
    @observe nat unit unit 1 (pq_push less 3 7 s').2 = observe 1 s' ∧
    @observe nat unit unit 3 (pq_pop less (size (mem s')) 1 s').2 = observe 3 s'.
Proof.
  destruct (@copy_independence nat unit unit less) as (Hcopy & _ & Hind).
  destruct (Hcopy 9 two_queues 3%positive 1%positive _ 2%N
              ltac:(done) two_queues_1 ltac:(done) ltac:(simpl; lia))
    as (s' & t' & Hrun & Hcopied).
  exists s', t'. split; [done|]. split; [done|].
  split.
  - apply (proj1 (Hind s' _ _ _ _ _ (pq_push less 3 7 s').2 Hcopied)).
    apply mutated_push, mutated_refl.
  - apply (proj2 (Hind s' _ _ _ _ _ (pq_pop less (size (mem s')) 1 s').2 Hcopied)).
    by apply mutated_pop; [apply mutated_refl|].
Defined.

Lemma copy_source_precondition_witness :
  queue_at three_queues 1 (Bin 1 5 (Bin 2 3 Leaf Leaf) Leaf) 2 ∧
  objs three_queues !! 3%positive = Some (PriorityQueue None 0) ∧
  (@pq_assign nat unit unit 9 1 3 three_queues).1 = UB.
Proof.
  split; [exact three_queues_1|]. split; [done|].
  destruct (@copy_source_precondition nat unit unit) as (_ & _ & _ & _ & H).
  apply (H 9 three_queues 1%positive 3%positive _ 2%N (PriorityQueue None 0)
           three_queues_1); [done|done|done|simpl; lia].
Defined.

(** ** The pop that fails after its validation pass

    Queue 1 holds 9 with the children 3, 2, 1, in this order, built by the
    pushes 9, 1, 2, 3 under [throwing_less].  The validation pass compares
    (3, 2) and (2, 1); the merge pass melds 3 with 2 and then compares the
    winner 3 with 1, a pair the validation never looked at. *)

Lemma pushed4_queue_ok : queue_ok (pushed4 throwing_less) 1 pushed4_tree.
Proof.
  unfold queue_ok, queue_at. split_and!; [by vm_compute|by vm_compute| |done].
  simpl. repeat (apply NoDup_cons; split; [set_solver|]). apply NoDup_nil_2.
Qed.

(** C1 (defect).  On the queue above, the validation pass of [pop] returns
    without throwing, the merge pass then throws, [pop] fails with
    [runtime_error], and the element 1 can no longer be reached from the
    root, which is still installed with the count 4. *)
Theorem pop_merge_pass_throws :
  let s := pushed4 throwing_less in
  let validated := compare_siblings throwing_less 9 (Some 4%positive) s in
  let s' := (pq_pop throwing_less 9 1 s).2 in
  mem s !! 1%positive = Some (PqNode 9 (Some 4%positive) None) ∧
  validated.1 = Val tt ∧
  (merge_siblings throwing_less 9 (Some 4%positive) validated.2).1
    = Exn runtime_error ∧
  (pq_pop throwing_less 9 1 s).1 = Exn runtime_error ∧
  values_reachable 9 (mem s) (Some 1%positive) = [9; 3; 2; 1] ∧
  values_reachable 9 (mem s') (Some 1%positive) = [9; 3; 2] ∧
  objs s' !! 1%positive = Some (PriorityQueue (Some 1%positive) 4).
Proof. vm_compute. by repeat split. Qed.

(** C9 (defect).  The same failed [pop]: before it the count 4 is the
    number of nodes reachable from the root; after it the count is still 4
    and only 3 nodes are reachable. *)
Theorem failed_pop_breaks_size_invariant :
  let s := pushed4 throwing_less in
  let s' := (pq_pop throwing_less 9 1 s).2 in
  objs s !! 1%positive = Some (PriorityQueue (Some 1%positive) 4) ∧
  count_reachable 9 (mem s) (Some 1%positive) = 4 ∧
  (pq_pop throwing_less 9 1 s).1 = Exn runtime_error ∧
  objs s' !! 1%positive = Some (PriorityQueue (Some 1%positive) 4) ∧
  count_reachable 9 (mem s') (Some 1%positive) = 3.
Proof. vm_compute. by repeat split. Qed.

(** ** A reachable state *)

Lemma reachable_default (cmp : unit → nat → nat → (unit + bool) * unit) s q :
  reachable cmp s → (@pq_default nat unit unit q s).1 = Val tt →
  reachable cmp (after (pq_default q) s).
Proof.
  intros Hr Hv. apply (reachable_step cmp s (size (mem s)) (OpDefault q) AUnit); [done..|].
  unfold after, exec, bind. destruct (pq_default q s) as [[[]|x| |] s1]; by simplify_eq/=.
Qed.

Lemma reachable_push (cmp : unit → nat → nat → (unit + bool) * unit) s q e :
  reachable cmp s → (pq_push cmp q e s).1 = Val tt →
  reachable cmp (after (pq_push cmp q e) s).
Proof.
  intros Hr Hv. apply (reachable_step cmp s (size (mem s)) (OpPush q e) AUnit); [done..|].
  unfold after, exec, bind. destruct (pq_push cmp q e s) as [[[]|x| |] s1]; by simplify_eq/=.
Qed.

Lemma pushed4_reachable : reachable less (pushed4 less).
Proof.
  unfold pushed4.
  repeat (apply reachable_push; [|by vm_compute]).
  apply reachable_default; [|by vm_compute].
  apply reachable_init.
Qed.

Lemma heap_order_invariant_witness :
  ∃ t, queue_ok (pushed4 less) 1 t ∧
       elems t = values_reachable (S (nodes t)) (mem (pushed4 less)) (Some 1%positive) ∧
       (∀ v x, (v, x) ∈ parent_child t →
          Nat.ltb v x = false ∧ ∀ c0 c1, less c0 v x ≠ (inr true, c1)) ∧
       (Some 1%positive = None ∨
        ∃ v, @pq_top nat unit unit 1 (pushed4 less) = (Val v, pushed4 less) ∧ v ∈ elems t ∧
             ∀ x, x ∈ elems t →
               Nat.ltb v x = false ∧ ∀ c0 c1, less c0 v x ≠ (inr true, c1)).
Proof.
  exact (heap_order_invariant less Nat.ltb (pushed4 less) 1
           (PriorityQueue (Some 1%positive) 4)
           less_sound ltb_asym ltb_negtrans pushed4_reachable eq_refl).
Defined.

(** ** The scenario of the specification

    Pushes 5, 3, 8, 1, 9; the top is 9; after a pop it is 8; a second queue
    with 4 and 2 is merged in: size 6, top 8, the second queue empty; the
    elements then leave in the order 8, 5, 4, 3, 2, 1. *)
Example scenario_runs :
  let merged := after (pq_merge less 1 2) scenario in
  (@pq_top nat unit unit 1 scenario).1 = Val 8 ∧
  (@pq_size nat unit unit 1 merged).1 = Val 6%N ∧
  (@pq_top nat unit unit 1 merged).1 = Val 8 ∧
  (@pq_empty nat unit unit 2 merged).1 = Val true ∧
  (@pq_size nat unit unit 2 merged).1 = Val 0%N ∧
  drain 7 1 merged = [8; 5; 4; 3; 2; 1].
Proof. vm_compute. by repeat split. Qed.


(** ** The further properties on concrete queues *)

Lemma less_total : cmp_total less.
Proof. intros c x y. by exists (Nat.ltb x y), c. Qed.

Lemma pushed4_less_queue : queue_at (pushed4 less) 1 pushed4_tree 4.
Proof.
  unfold queue_at. split_and!; [by vm_compute|by vm_compute| |done].
  simpl. repeat (apply NoDup_cons; split; [set_solver|]). apply NoDup_nil_2.
Qed.

Lemma pushed4_tree_ho : ho Nat.ltb pushed4_tree.
Proof. simpl. split_and!; by repeat constructor. Qed.

Lemma pushed4_children_repr : repr (mem (pushed4 less)) pushed4_children.
Proof. by vm_compute. Qed.

Lemma pushed4_children_NoDup : NoDup (locs pushed4_children).
Proof.
  simpl. repeat (apply NoDup_cons; split; [set_solver|]). apply NoDup_nil_2.
Qed.

Lemma two_queues_disjoint_rev p :
  p ∈ locs (Bin 3 4 Leaf Leaf) → p ∉ locs (Bin 1 5 (Bin 2 3 Leaf Leaf) Leaf).
Proof. intros H2 H1. by apply (two_queues_disjoint p). Qed.

Lemma empty_queue_1 : queue_at (after (@pq_default nat unit unit 1) initial) 1 Leaf 0.
Proof. unfold queue_at. split_and!; [by vm_compute|done|constructor|done]. Qed.

Lemma recursive_del_releases_witness :
  ∃ s', @recursive_del nat unit unit 4 1 (pushed4 less) = (Val tt, s') ∧
        (∀ q, q ∈ locs pushed4_children ++ locs (@Leaf nat) → mem s' !! q = None) ∧
        mem s' !! 1%positive = mem (pushed4 less) !! 1%positive ∧
        (∀ q, q ∉ locs pushed4_children ++ locs (@Leaf nat) →
           mem s' !! q = mem (pushed4 less) !! q) ∧
        objs s' = objs (pushed4 less) ∧ calls s' = calls (pushed4 less).
Proof.
  destruct pushed4_less_queue as (_ & Hr & Hn & _).
  apply (recursive_del_releases 4 1%positive 9 pushed4_children Leaf (pushed4 less) Hr Hn).
  simpl. lia.
Defined.

Lemma destructor_releases_all_witness :
  ∃ s', @pq_destroy nat unit unit 1 2 two_queues = (Val tt, s') ∧
        (∀ p, p ∈ locs (Bin 3 4 Leaf Leaf) → mem s' !! p = None) ∧
        (∀ p, p ∉ locs (Bin 3 4 Leaf Leaf) → mem s' !! p = mem two_queues !! p) ∧
        objs s' !! 2%positive = None ∧
        (∀ q', q' ≠ 2%positive → objs s' !! q' = objs two_queues !! q').
Proof.
  apply (destructor_releases_all 1 two_queues 2%positive _ 1%N two_queues_2).
  simpl. lia.
Defined.

Lemma pop_removes_top_witness :
  match pq_pop less 4 1 (pushed4 less) with
  | (Val _, s') =>
      ∃ p v t', ptr pushed4_tree = Some p ∧
                @pq_top nat unit unit 1 (pushed4 less) = (Val v, pushed4 less) ∧
                queue_at s' 1 t' (size_decr 4) ∧
                elems pushed4_tree ≡ₚ v :: elems t' ∧ nodes pushed4_tree = S (nodes t') ∧
                mem s' !! p = None
  | (Exn x, s') =>
      (x = container_is_empty ∧ ptr pushed4_tree = None ∧ s' = pushed4 less) ∨
      (x = runtime_error ∧ ptr pushed4_tree ≠ None)
  | (UB, _) | (OutOfFuel, _) => False
  end.
Proof.
  apply (pop_removes_top less 4 (pushed4 less) 1%positive pushed4_tree 4%N
           pushed4_less_queue).
  simpl. lia.
Defined.

Lemma pop_validation_throw_unchanged_witness :
  pq_pop throwing_less 9 1 pushed3 = (Exn runtime_error, after_call pushed3 3 1 tt) ∧
  mem (after_call pushed3 3 1 tt) = mem pushed3 ∧
  objs (after_call pushed3 3 1 tt) = objs pushed3.
Proof.
  apply (pop_validation_throw_unchanged throwing_less 9 pushed3 1%positive
           (PriorityQueue (Some 1%positive) 3) 1%positive
           (PqNode 9 (Some 3%positive) None) runtime_error);
    by vm_compute.
Defined.

Lemma total_comparator_no_runtime_error_witness :
  cmp_total less ∧
  (∀ q e s x s', pq_push less q e s ≠ (Exn x, s')) ∧
  (∀ a b s x s', pq_merge less a b s ≠ (Exn x, s')) ∧
  (∀ fuel q s x s', pq_pop less fuel q s = (Exn x, s') →
     x = container_is_empty ∧ s' = s ∧ ∃ o, objs s !! q = Some o ∧ root o = None).
Proof.
  split; [exact less_total|].
  exact (total_comparator_no_runtime_error less less_total).
Defined.

Lemma pop_all_sorted_witness :
  pop_all less 4 4 1 (pushed4 less) ≡ₚ elems pushed4_tree ∧
  StronglySorted (λ a b, Nat.ltb a b = false) (pop_all less 4 4 1 (pushed4 less)).
Proof.
  apply (pop_all_sorted less Nat.ltb 4 4 (pushed4 less) 1%positive pushed4_tree 4%N
           less_total less_sound ltb_asym ltb_negtrans pushed4_less_queue pushed4_tree_ho);
    simpl; lia.
Defined.

Lemma validation_pass_calls_witness :
  ∃ s', compare_siblings less 3 (ptr pushed4_children) (pushed4 less) = (Val tt, s') ∧
        calls s' = rev (adjacent (chain_vals pushed4_children)) ++ calls (pushed4 less) ∧
        mem s' = mem (pushed4 less) ∧ objs s' = objs (pushed4 less).
Proof.
  apply (validation_pass_calls less 3 pushed4_children (pushed4 less)
           less_total pushed4_children_repr).
  simpl. lia.
Defined.

Lemma pop_comparator_calls_witness :
  ∃ s', pq_pop less 4 1 (pushed4 less) = (Val tt, s') ∧
        length (calls s')
          = length (calls (pushed4 less)) + 2 * pred (length (chain_vals pushed4_children)).
Proof.
  apply (pop_comparator_calls less 4 (pushed4 less) 1%positive 1%positive 9
           pushed4_children 4%N less_total pushed4_less_queue).
  simpl. lia.
Defined.

Lemma push_comparator_calls_witness :
  calls (pq_push throwing_less 1 1 one3).2 = (3, 1) :: calls one3.
Proof.
  exact (push_comparator_calls throwing_less one3 1%positive (Bin 1 3 Leaf Leaf) 1%N 1
           one3_queue).
Defined.

Lemma push_then_top_witness :
  ∃ r c', less (cst two_queues) 4 7 = (inr r, c') ∧
          @pq_top nat unit unit 2 (after (pq_push less 2 7) two_queues)
            = (Val (if r then 7 else 4), after (pq_push less 2 7) two_queues).
Proof.
  apply (push_then_top less two_queues 2%positive (Bin 3 4 Leaf Leaf) 1%N 7
           (after (pq_push less 2 7) two_queues) two_queues_2).
  by vm_compute.
Defined.

Lemma merge_self_empties_witness :
  ∃ s', pq_merge less 1 1 two_queues = (Val tt, s') ∧
        objs s' = <[1%positive := PriorityQueue None 0]> (objs two_queues) ∧
        mem s' = <[1%positive := PqNode 5 (Some 1%positive) (Some 2%positive)]>
                   (mem two_queues) ∧
        @pq_empty nat unit unit 1 s' = (Val true, s') ∧
        @pq_size nat unit unit 1 s' = (Val 0%N, s') ∧
        (∀ p, p ∈ locs (Bin 1 5 (Bin 2 3 Leaf Leaf) Leaf) → is_Some (mem s' !! p)).
Proof.
  apply (merge_self_empties less two_queues 1%positive 1%positive 5
           (Bin 2 3 Leaf Leaf) Leaf 2%N false tt two_queues_1).
  by vm_compute.
Defined.

Lemma push_all_pop_all_sorts_witness :
  pop_all less 3 3 1 (push_all less [3; 1; 2] 1 (after (pq_default 1) initial))
    ≡ₚ [3; 1; 2] ∧
  StronglySorted (λ a b, Nat.ltb a b = false)
    (pop_all less 3 3 1 (push_all less [3; 1; 2] 1 (after (pq_default 1) initial))).
Proof.
  apply (push_all_pop_all_sorts less Nat.ltb 3 [3; 1; 2] _ 1%positive 0%N
           less_total less_sound ltb_asym ltb_negtrans empty_queue_1).
  simpl. lia.
Defined.

Lemma push_new_top_then_pop_witness :
  ∃ s', pq_pop less 1 2 (pq_push less 2 7 two_queues).2 = (Val tt, s') ∧
        mem s' = mem two_queues ∧ objs s' = objs two_queues.
Proof.
  apply (push_new_top_then_pop less 0 two_queues 2%positive (Bin 3 4 Leaf Leaf) 1%N 7
           two_queues_2).
  - by vm_compute.
  - by exists tt.
Defined.

Lemma size_invariant_any_comparator_witness :
  ∃ t, queue_at (pushed4 less) 1 t 4 ∧
       4%N = wrap (N.of_nat (count_reachable (S (size (mem (pushed4 less))))
                               (mem (pushed4 less)) (Some 1%positive))) ∧
       (Some 1%positive = None → 4%N = 0%N) ∧
       (∀ q' t' n', q' ≠ 1%positive → queue_at (pushed4 less) q' t' n' →
          ∀ p, p ∈ locs t → p ∉ locs t').
Proof.
  apply (size_invariant_any_comparator less (pushed4 less) 1%positive
           (PriorityQueue (Some 1%positive) 4) pushed4_reachable).
  by vm_compute.
Defined.

Lemma assign_releases_old_tree_witness :
  ∃ s' t',
    @pq_assign nat unit unit 2 2 1 two_queues = (Val tt, s') ∧ queue_at s' 2 t' 2 ∧
    nodes t' = nodes (Bin 1 5 (Bin 2 3 Leaf Leaf) Leaf) ∧
    (∀ p, is_Some (mem s' !! p) ↔
          p ∈ locs t' ∨ (is_Some (mem two_queues !! p) ∧ p ∉ locs (Bin 3 4 Leaf Leaf))).
Proof.
  apply (assign_releases_old_tree 2 two_queues 2%positive 1%positive _ _ 1%N 2%N
           ltac:(done) two_queues_2 two_queues_1 two_queues_disjoint_rev);
    [done|simpl; lia..].
Defined.

Lemma recursive_dup_copies_witness :
  ∃ r s' t',
    @recursive_dup nat unit unit 2 1 two_queues = (Val r, s') ∧
    ptr t' = Some r ∧ same_shape (Bin 1 5 (Bin 2 3 Leaf Leaf) Leaf) t' ∧
    elems t' = elems (Bin 1 5 (Bin 2 3 Leaf Leaf) Leaf) ∧
    repr (mem s') t' ∧ NoDup (locs t') ∧
    (∀ q, q ∈ locs t' → mem two_queues !! q = None) ∧
    (∀ q, q ∉ locs t' → mem s' !! q = mem two_queues !! q) ∧
    objs s' = objs two_queues ∧ calls s' = calls two_queues.
Proof.
  destruct two_queues_1 as (_ & Hr & _).
  apply (recursive_dup_copies 2 (Bin 1 5 (Bin 2 3 Leaf Leaf) Leaf) two_queues 1%positive
           eq_refl Hr).
  simpl. lia.
Defined.

Lemma merge_pass_builds_one_tree_witness :
  ∃ r s' t',
    merge_siblings less 4 (ptr pushed4_children) (pushed4 less) = (Val r, s') ∧
    ptr t' = r ∧ repr (mem s') t' ∧ rooted t' ∧
    locs t' ≡ₚ locs pushed4_children ∧ elems t' ≡ₚ elems pushed4_children ∧
    (∀ lessb, cmp_sound less lessb → lt_asym lessb →
       ho lessb pushed4_children → ho lessb t') ∧
    touches (locs pushed4_children) (pushed4 less) s' ∧
    length (calls s')
      = length (calls (pushed4 less)) + pred (length (chain_vals pushed4_children)).
Proof.
  apply (merge_pass_builds_one_tree less 3 pushed4_children (pushed4 less)
           less_total pushed4_children_repr pushed4_children_NoDup).
  simpl. lia.
Defined.


(** The queue of the failed [pop] of the defect, before and after. *)
Lemma pushed4_throwing_queue : queue_at (pushed4 throwing_less) 1 pushed4_tree 4.
Proof.
  unfold queue_at. split_and!; [by vm_compute|by vm_compute| |done].
  simpl. repeat (apply NoDup_cons; split; [set_solver|]). apply NoDup_nil_2.
Qed.

Lemma failed_pop_keeps_a_tree_witness :
  (runtime_error = @container_is_empty unit ∧ pushed4_tree = Leaf ∧
   after (pq_pop throwing_less 9 1) (pushed4 throwing_less) = pushed4 throwing_less) ∨
  (runtime_error = @runtime_error unit ∧ pushed4_tree ≠ Leaf ∧
   ∃ t', queue_at (after (pq_pop throwing_less 9 1) (pushed4 throwing_less)) 1 t' 4 ∧
         ptr t' = ptr pushed4_tree ∧ locs t' ⊆ locs pushed4_tree ∧
         (∀ p, p ∉ locs pushed4_tree →
            mem (after (pq_pop throwing_less 9 1) (pushed4 throwing_less)) !! p
            = mem (pushed4 throwing_less) !! p) ∧
         dom (mem (after (pq_pop throwing_less 9 1) (pushed4 throwing_less)))
         = dom (mem (pushed4 throwing_less)) ∧
         objs (after (pq_pop throwing_less 9 1) (pushed4 throwing_less))
         = objs (pushed4 throwing_less)).
Proof.
  apply (failed_pop_keeps_a_tree throwing_less 9 (pushed4 throwing_less) 1%positive
           pushed4_tree 4%N runtime_error _ pushed4_throwing_queue).
  - simpl. lia.
  - by vm_compute.
Defined.

Lemma reachable_any_default (cmp : unit → nat → nat → (unit + bool) * unit) s q :
  reachable_any cmp s → finished (@pq_default nat unit unit q s).1 →
  reachable_any cmp (after (pq_default q) s).
Proof.
  intros Hr Hfin.
  pose proof (reachable_any_step cmp s (size (mem s)) (OpDefault q) Hr (le_n _)) as H.
  cbn [exec] in H. rewrite bind_ret_snd, bind_ret_finished in H. by apply H.
Qed.

Lemma reachable_any_push (cmp : unit → nat → nat → (unit + bool) * unit) s q e :
  reachable_any cmp s → finished (pq_push cmp q e s).1 →
  reachable_any cmp (after (pq_push cmp q e) s).
Proof.
  intros Hr Hfin.
  pose proof (reachable_any_step cmp s (size (mem s)) (OpPush q e) Hr (le_n _)) as H.
  cbn [exec] in H. rewrite bind_ret_snd, bind_ret_finished in H. by apply H.
Qed.

Lemma reachable_any_pop (cmp : unit → nat → nat → (unit + bool) * unit) s fuel q :
  reachable_any cmp s → size (mem s) ≤ fuel → finished (pq_pop cmp fuel q s).1 →
  reachable_any cmp (after (pq_pop cmp fuel q) s).
Proof.
  intros Hr Hf Hfin.
  pose proof (reachable_any_step cmp s fuel (OpPop q) Hr Hf) as H.
  cbn [exec] in H. rewrite bind_ret_snd, bind_ret_finished in H. by apply H.
Qed.

(** The state after the failed [pop] of the defect is reached through
    calls that returned or threw. *)
Lemma failed_pop_reachable_any :
  reachable_any throwing_less (after (pq_pop throwing_less 9 1) (pushed4 throwing_less)).
Proof.
  apply reachable_any_pop; [|vm_compute; lia|by vm_compute].
  unfold pushed4.
  repeat (apply reachable_any_push; [|by vm_compute]).
  apply reachable_any_default; [|by vm_compute].
  apply reachable_any_init.
Qed.

Lemma memory_safe_after_throws_witness :
  let s := after (pq_pop throwing_less 9 1) (pushed4 throwing_less) in
  ∃ t, queue_at s 1 t 4 ∧
       (∀ q' t' n', q' ≠ 1%positive → queue_at s q' t' n' →
          ∀ p, p ∈ locs t → p ∉ locs t') ∧
       finished (@pq_top nat unit unit 1 s).1 ∧
       (∀ e, finished (pq_push throwing_less 1 e s).1) ∧
       (∀ fuel, size (mem s) ≤ fuel → finished (pq_pop throwing_less fuel 1 s).1) ∧
       (∀ q' o', objs s !! q' = Some o' → finished (pq_merge throwing_less 1 q' s).1) ∧
       (∀ fuel, size (mem s) ≤ fuel → (@pq_destroy nat unit unit fuel 1 s).1 = Val tt).
Proof.
  apply (memory_safe_after_throws throwing_less _ 1%positive
           (PriorityQueue (Some 1%positive) 4) failed_pop_reachable_any).
  by vm_compute.
Defined.


Lemma reachable_unmerged_default (cmp : unit → nat → nat → (unit + bool) * unit) s q :
  reachable_unmerged cmp s → (@pq_default nat unit unit q s).1 = Val tt →
  reachable_unmerged cmp (after (pq_default q) s).
Proof.
  intros Hr Hv.
  apply (reachable_unmerged_step cmp s (size (mem s)) (OpDefault q) AUnit);
    [done|done|by intros []|].
  unfold after, exec, bind. destruct (pq_default q s) as [[[]|x| |] s1]; by simplify_eq/=.
Qed.

Lemma reachable_unmerged_push (cmp : unit → nat → nat → (unit + bool) * unit) s q e :
  reachable_unmerged cmp s → (pq_push cmp q e s).1 = Val tt →
  reachable_unmerged cmp (after (pq_push cmp q e) s).
Proof.
  intros Hr Hv.
  apply (reachable_unmerged_step cmp s (size (mem s)) (OpPush q e) AUnit);
    [done|done|by intros []|].
  unfold after, exec, bind. destruct (pq_push cmp q e s) as [[[]|x| |] s1]; by simplify_eq/=.
Qed.

Lemma reachable_unmerged_destroy (cmp : unit → nat → nat → (unit + bool) * unit) s fuel q :
  reachable_unmerged cmp s → size (mem s) ≤ fuel →
  (@pq_destroy nat unit unit fuel q s).1 = Val tt →
  reachable_unmerged cmp (after (pq_destroy fuel q) s).
Proof.
  intros Hr Hf Hv.
  apply (reachable_unmerged_step cmp s fuel (OpDestroy q) AUnit); [done|done|by intros []|].
  unfold after, exec, bind. destruct (pq_destroy fuel q s) as [[[]|x| |] s1]; by simplify_eq/=.
Qed.

(** Queue 1 built by four pushes and then destroyed. *)
Lemma destroyed_reachable_unmerged :
  reachable_unmerged less (after (pq_destroy 9 1) (pushed4 less)).
Proof.
  apply reachable_unmerged_destroy; [|vm_compute; lia|by vm_compute].
  unfold pushed4.
  repeat (apply reachable_unmerged_push; [|by vm_compute]).
  apply reachable_unmerged_default; [|by vm_compute].
  apply reachable_unmerged_init.
Qed.

Lemma no_leak_without_self_merge_witness :
  let s := after (@pq_destroy nat unit unit 9 1) (pushed4 less) in
  (∀ p, is_Some (mem s !! p) → ∃ q t n, queue_at s q t n ∧ p ∈ locs t) ∧
  (objs s = ∅ → mem s = ∅).
Proof.
  exact (no_leak_without_self_merge less _ destroyed_reachable_unmerged).
Defined.
